(** * The resumable scraping orchestrator of the Google Maps scraper

    A shallow embedding of [scraper.js] (the orchestrator: progress tree,
    retry wrapper, worker pool, de-duplication, exports) and of the parts of
    [maps/maps.js] it calls ([withRetry], [extractBusinessData],
    [searchGoogleMaps]), followed by the properties of the specification
    that concern them.

    Conventions of the embedding.
    - A JavaScript object is an association list in insertion order, which
      is the order [Object.keys] enumerates non-index keys in.
    - A thrown value is an [Error]: a name and a message.
    - Asynchronous code runs in a state-and-exception monad over a [world]
      (the module-level [progressData], the files under [output/], the
      ordered trace of observable effects).  Everything the program cannot
      decide itself (browser sessions, the location directory, timers,
      file-system faults, the order in which pending promises settle) is read
      from an [env] record, indexed by a clock that advances at each
      consultation, so that a statement quantified over [env] covers every
      behaviour of the environment.
    - Paths are kept as the list of segments handed to [path.join].
    - A progress file that parses holds a progress tree: an object
      [completed] whose members [countries], [states], [cities], if present,
      map keys to booleans. *)

From stdpp Require Import gmap strings list fin_maps.
From Stdlib Require Import ZArith String Ascii Lia.

Open Scope string_scope.
Open Scope list_scope.
Open Scope Z_scope.
Open Scope nat_scope.

(* ===================================================================== *)
(** ** JavaScript values and objects *)
(* ===================================================================== *)

Module JS.

(** The field values that occur in business records: strings, numbers
    (carried by their decimal rendering [String(n)], the only thing the
    orchestrator observes of them) and [null].  [undefined] is the absence
    of a value: [option jsval]. *)
Inductive jsval : Type :=
| VStr (s : string)
| VNum (repr : string)
| VNull.

#[global] Instance jsval_eq_dec : EqDecision jsval.
Proof. solve_decision. Defined.

(** An object: its own enumerable properties, in insertion order. *)
Definition obj : Type := list (string * jsval).

(** [o[k]]; [None] is [undefined]. *)
Fixpoint oget (k : string) (o : obj) : option jsval :=
  match o with
  | [] => None
  | (k', v) :: rest => if decide (k' = k) then Some v else oget k rest
  end.

(** [o[k] = v]: an existing property keeps its position, a new one is
    appended. *)
Fixpoint oset (k : string) (v : jsval) (o : obj) : obj :=
  match o with
  | [] => [(k, v)]
  | (k', v') :: rest =>
      if decide (k' = k) then (k, v) :: rest else (k', v') :: oset k v rest
  end.

(** [Object.keys(o)]. *)
Definition keys (o : obj) : list string := map fst o.

(** String conversion inside a template literal, [`${x}`]. *)
Definition tpl (x : option jsval) : string :=
  match x with
  | None => "undefined"
  | Some VNull => "null"
  | Some (VStr s) => s
  | Some (VNum r) => r
  end.

(** Truthiness ([if (x)], [!x], [x || d]). *)
Definition truthy (x : option jsval) : bool :=
  match x with
  | None | Some VNull => false
  | Some (VStr s) => negb (bool_decide (s = ""))
  | Some (VNum r) => negb (bool_decide (r = "0") || bool_decide (r = "NaN"))
  end.

(** [s.toLowerCase()], on the ASCII letters. *)
Definition lower_ascii (c : ascii) : ascii :=
  let n := nat_of_ascii c in
  if (65 <=? n) && (n <=? 90) then ascii_of_nat (n + 32) else c.

Fixpoint toLowerCase (s : string) : string :=
  match s with
  | EmptyString => EmptyString
  | String c r => String (lower_ascii c) (toLowerCase r)
  end.

(** [s.startsWith(p)]. *)
Definition startsWith (s p : string) : bool := String.prefix p s.

(** [s.includes(sub)]. *)
Fixpoint includes (s sub : string) : bool :=
  String.prefix sub s ||
  match s with
  | EmptyString => false
  | String _ r => includes r sub
  end.

(** The characters [\s] matches, among the ASCII ones. *)
Definition is_ws (c : ascii) : bool :=
  let n := nat_of_ascii c in
  (n =? 32) || ((9 <=? n) && (n <=? 13)).

(** [s.replace(/\s+/g, '_')]: every maximal run of white space becomes one
    underscore.  [in_run] tells that the previous character was white
    space. *)
Fixpoint replace_ws_from (in_run : bool) (s : string) : string :=
  match s with
  | EmptyString => EmptyString
  | String c r =>
      if is_ws c
      then (if in_run then replace_ws_from true r
            else String "_"%char (replace_ws_from true r))
      else String c (replace_ws_from false r)
  end.

Definition replace_ws (s : string) : string := replace_ws_from false s.

End JS.

Import JS.

(* ===================================================================== *)
(** ** Data model *)
(* ===================================================================== *)

(** An entry of the location directory (country, state or city), as the
    orchestrator reads it: [iso2] and [name]. *)
Record location : Type := mkLocation {
  iso2 : string;
  name : string
}.

#[global] Instance location_eq_dec : EqDecision location.
Proof. solve_decision. Defined.

(** [progressData.completed]: three objects used as sets of keys.  The
    guards [if (!progressData.completed.states) ...] show that the program
    allows a sub-object to be missing, hence the [option]. *)
Record tree : Type := mkTree {
  completed_countries : option (gmap string bool);
  completed_states : option (gmap string bool);
  completed_cities : option (gmap string bool)
}.

#[global] Instance tree_eq_dec : EqDecision tree.
Proof. solve_decision. Defined.

(** The tree [loadProgress] falls back to. *)
Definition empty_tree : tree :=
  {| completed_countries := Some ∅; completed_states := Some ∅;
     completed_cities := Some ∅ |}.

(** [sub?.[key]] used as a condition. *)
Definition marked (sub : option (gmap string bool)) (key : string) : bool :=
  match sub with
  | Some m => match m !! key with Some b => b | None => false end
  | None => false
  end.

(** [if (!sub) sub = {}; sub[key] = true]. *)
Definition mark (sub : option (gmap string bool)) (key : string)
  : option (gmap string bool) :=
  match sub with
  | Some m => Some (<[key := true]> m)
  | None => Some (<[key := true]> ∅)
  end.

Definition isCountryDone (t : tree) (k : string) : bool :=
  marked (completed_countries t) k.
Definition isStateDone (t : tree) (k : string) : bool :=
  marked (completed_states t) k.
Definition isCityDone (t : tree) (k : string) : bool :=
  marked (completed_cities t) k.

Definition markCountryComplete (k : string) (t : tree) : tree :=
  {| completed_countries := mark (completed_countries t) k;
     completed_states := completed_states t;
     completed_cities := completed_cities t |}.
Definition markStateComplete (k : string) (t : tree) : tree :=
  {| completed_countries := completed_countries t;
     completed_states := mark (completed_states t) k;
     completed_cities := completed_cities t |}.
Definition markCityComplete (k : string) (t : tree) : tree :=
  {| completed_countries := completed_countries t;
     completed_states := completed_states t;
     completed_cities := mark (completed_cities t) k |}.

(** [`${country.iso2}-${state.name}`] *)
Definition stateKey (country state : location) : string :=
  iso2 country +:+ "-" +:+ name state.

(** [`${country.iso2}-${state.iso2}-${city.name}`] *)
Definition cityKey (country state city : location) : string :=
  iso2 country +:+ "-" +:+ iso2 state +:+ "-" +:+ name city.

(** A thrown [Error]: its [name] and [message]. *)
Record error : Type := mkError {
  err_name : string;
  err_message : string
}.

#[global] Instance error_eq_dec : EqDecision error.
Proof. solve_decision. Defined.

Definition TypeError (msg : string) : error := mkError "TypeError" msg.
Definition ReferenceError (msg : string) : error := mkError "ReferenceError" msg.

(** The outcome of an awaited call. *)
Inductive result (A : Type) : Type :=
| Ret (a : A)
| Throw (e : error).

Arguments Ret {A} a.
Arguments Throw {A} e.

(** A path, as the arguments of [path.join]. *)
Definition path : Type := list string.

(** A written table (CSV file or worksheet): header row and data rows. *)
Record sheet : Type := mkSheet {
  sheet_header : list string;
  sheet_rows : list (list string)
}.

#[global] Instance sheet_eq_dec : EqDecision sheet.
Proof. solve_decision. Defined.

(* ===================================================================== *)
(** ** Effects: console lines, timers, browser and file-system calls *)
(* ===================================================================== *)

(** The console lines of the modelled functions, by their template; colour
    and spinner rendering are presentation.  The purely informational lines
    of a browser session ("Scrolling...", "Found n place links") are not
    recorded. *)
Inductive logmsg : Type :=
| LRetry (attempt maxRetries : nat) (e : error)
| LSearchFailed (e : error)
| LHintTimeout
| LHintNetwork
| LHintProtocol
| LBrowserClosed
| LCleanupWarning (e : error)
| LSavedCity (n : nat) (city : string)
| LSaveCityFailed (city : string) (e : error)
| LSavedState (n : nat) (state : string)
| LSaveStateFailed (state : string) (e : error)
| LCumulativeUpdated (country : string) (n : nat)
| LCumulativeFailed (country : string) (e : error)
| LLoadProgressFailed (countryCode : string) (e : error)
| LSaveProgressFailed (e : error)
| LExported (n : nat) (format : string) (p : path)
| LExportFailed (format : string) (e : error)
| LAttemptFailed (attempt : nat) (e : error)
| LAllRetriesFailed (country state city : string)
| LTranslationFailed (language : option string) (e : error)
| LCityDone (city state country : string) (n : nat)
| LCityFailed (city : string) (e : error)
| LProcessingState (state country : string)
| LStateDone (state country : string) (n : nat)
| LCountrySkipped (country : string)
| LQueryTranslated (language : option string) (localizedQuery : string)
| LCountryCompleted (country : string) (n : nat)
| LCountryFailed (country : string) (e : error).

(** Observable effects, in program order.  [ERename] belongs to the
    vocabulary of the file system; no modelled function performs it. *)
Inductive event : Type :=
| ELog (m : logmsg)
| ESleep (ms : Z)
| EFetch (searchQuery countryCode : string)
| ELaunch
| ENewPage
| EClosePage
| ECloseBrowser
| EEnsureDir (p : path)
| EWriteTree (p : path) (t : tree)
| EWriteRecords (p : path) (rs : list obj)
| EWriteSheet (p : path) (s : sheet)
| ERename (src dst : path).

(** What the cheerio selectors of [extractBusinessData] read for one place
    link: the local variables of the callback just before the object
    literal is built. *)
Record place : Type := mkPlace {
  pl_url : string;
  pl_sourceId : string;
  pl_storeName : string;
  pl_category : string;
  pl_formattedAddress : string;
  pl_phoneNumbers : string;
  pl_website : option string;
  pl_ratingText : string;
  pl_stars : option string;
  pl_numberOfReviews : option string;
  pl_priceLevel : string;
  pl_openHours : string;
  pl_timestamp : string
}.

(** The program state the modelled functions read and write. *)
Record world : Type := mkWorld {
  progressData : tree;                      (* [let progressData] *)
  progress_files : gmap path (option tree); (* progress.json files; [None]: does not parse *)
  json_files : gmap path (option (list obj)); (* record arrays written as JSON; [None]: does not parse *)
  sheet_files : gmap path sheet;            (* CSV and XLSX exports *)
  trace : list event;
  clock : nat
}.

(** Configuration ([CONFIG], [allowedCategories], [__dirname]) and the
    environment.  The retry count and the parallelism are natural numbers
    (the command line documents them as counts).  [getRandomInt] is
    [./utils/helpers.js]; the directory functions are
    [./utils/countrystatecity.js] and [./utils/countrylocalemap.js].  Each
    answer of the environment may depend on the clock. *)
Record env : Type := mkEnv {
  cfg_includeCities : bool;
  cfg_localize : bool;
  cfg_parallel : nat;
  cfg_minDelay : Z;
  cfg_maxDelay : Z;
  cfg_retryCount : nat;
  cfg_exportFormats : list string;
  allowedCategories : list string;
  dirname : path;
  getRandomInt : Z → Z → nat → Z;
  (* the browser: failures of [launch], [newPage], [close]; what a page
     yields for a query and a country, or the error of the first step that
     failed *)
  launch_fault : nat → option error;
  newPage_fault : nat → option error;
  page_session : string → string → nat → result (list place);
  close_fault : nat → option error;
  (* failures of file-system calls *)
  fs_fault : nat → option error;
  (* the location directory; an entry of a list may be missing *)
  statesByCountry : string → nat → result (list (option location));
  citiesByCountryState : string → string → nat → result (list (option location));
  (* [info], if any, and [info.languages], if any *)
  countrylocalemap : string → nat → result (option (option (list string)));
  (* [translate(query, { to: language })] *)
  translate : string → option string → nat → result string;
  (* [_.shuffle] *)
  shuffle : list (option location) → nat → list (option location);
  (* among the pending workers, the one whose awaited call settles next *)
  settles_next : nat → nat
}.

(** The monad of asynchronous functions. *)
Definition M (A : Type) : Type := world → result A * world.

#[global] Instance M_ret : MRet M := λ A a w, (Ret a, w).

#[global] Instance M_bind : MBind M := λ A B k m w,
  match m w with
  | (Ret a, w') => k a w'
  | (Throw e, w') => (Throw e, w')
  end.

(** [throw e] *)
Definition throw {A : Type} (e : error) : M A := λ w, (Throw e, w).

(** [try { m } catch (error) { ... }], as the outcome handed to the
    handler. *)
Definition try {A : Type} (m : M A) : M (result A) := λ w,
  match m w with
  | (r, w') => (Ret r, w')
  end.

Definition emit (e : event) : M unit := λ w,
  (Ret (), {| progressData := progressData w; progress_files := progress_files w;
              json_files := json_files w; sheet_files := sheet_files w;
              trace := trace w ++ [e]; clock := clock w |}).

Definition log (m : logmsg) : M unit := emit (ELog m).

(** Reads the clock and advances it: one consultation of the environment. *)
Definition tick : M nat := λ w,
  (Ret (clock w),
   {| progressData := progressData w; progress_files := progress_files w;
      json_files := json_files w; sheet_files := sheet_files w;
      trace := trace w; clock := S (clock w) |}).

Definition readProgressData : M tree := λ w, (Ret (progressData w), w).

Definition writeProgressData (t : tree) : M unit := λ w,
  (Ret (), {| progressData := t; progress_files := progress_files w;
              json_files := json_files w; sheet_files := sheet_files w;
              trace := trace w; clock := clock w |}).

(** An update of [progressData] in place. *)
Definition updateProgressData (f : tree → tree) : M unit := λ w,
  (Ret (), {| progressData := f (progressData w); progress_files := progress_files w;
              json_files := json_files w; sheet_files := sheet_files w;
              trace := trace w; clock := clock w |}).

Definition readWorld : M world := λ w, (Ret w, w).

Definition store_progress_file (p : path) (t : tree) : M unit := λ w,
  (Ret (), {| progressData := progressData w;
              progress_files := <[p := Some t]> (progress_files w);
              json_files := json_files w; sheet_files := sheet_files w;
              trace := trace w; clock := clock w |}).

Definition store_json_file (p : path) (rs : list obj) : M unit := λ w,
  (Ret (), {| progressData := progressData w; progress_files := progress_files w;
              json_files := <[p := Some rs]> (json_files w);
              sheet_files := sheet_files w;
              trace := trace w; clock := clock w |}).

(** Opening a file for writing ([fs.open] with the flag [w], which is what
    [fs.writeJson] does) empties it: until the content is written, the file
    does not parse. *)
Definition truncate_progress_file (p : path) : M unit := λ w,
  (Ret (), {| progressData := progressData w;
              progress_files := <[p := None]> (progress_files w);
              json_files := json_files w; sheet_files := sheet_files w;
              trace := trace w; clock := clock w |}).

Definition truncate_json_file (p : path) : M unit := λ w,
  (Ret (), {| progressData := progressData w; progress_files := progress_files w;
              json_files := <[p := None]> (json_files w);
              sheet_files := sheet_files w;
              trace := trace w; clock := clock w |}).

Definition store_sheet_file (p : path) (s : sheet) : M unit := λ w,
  (Ret (), {| progressData := progressData w; progress_files := progress_files w;
              json_files := json_files w;
              sheet_files := <[p := s]> (sheet_files w);
              trace := trace w; clock := clock w |}).

(** The world a run starts from: given files, nothing in memory. *)
Definition initial_world (pf : gmap path (option tree)) : world :=
  {| progressData := {| completed_countries := None; completed_states := None;
                        completed_cities := None |};
     progress_files := pf; json_files := ∅; sheet_files := ∅;
     trace := []; clock := 0 |}.

(* ===================================================================== *)
(** ** maps/maps.js *)
(* ===================================================================== *)

Section Program.

Variable E : env.

(** [await new Promise(r => setTimeout(r, ms))] *)
Definition sleep (ms : Z) : M unit := emit (ESleep ms).

(** [getRandomInt(lo, hi)] *)
Definition randomInt (lo hi : Z) : M Z :=
  k ← tick; mret (getRandomInt E lo hi k).

(** [withRetry(operation, maxRetries, delay)].  The loop variable [attempt]
    counts from 1; [remaining] is the number of iterations left,
    [maxRetries + 1 - attempt].  Leaving the loop without an attempt
    returns [undefined], here [None]. *)
Fixpoint withRetry_from {A : Type} (operation : M A) (maxRetries : nat) (delay : Z)
    (remaining attempt : nat) : M (option A) :=
  match remaining with
  | 0 => mret None
  | S remaining' =>
      r ← try operation;
      match r with
      | Ret a => mret (Some a)
      | Throw error =>
          if bool_decide (attempt = maxRetries) then throw error
          else
            log (LRetry attempt maxRetries error);;
            sleep (delay * Z.of_nat attempt);;
            withRetry_from operation maxRetries delay remaining' (S attempt)
      end
  end.

Definition withRetry {A : Type} (operation : M A) (maxRetries : nat) (delay : Z)
  : M (option A) :=
  withRetry_from operation maxRetries delay maxRetries 1.

(** The object literal of [extractBusinessData] (the "Build business
    object" block). *)
Definition business_of_place (p : place) : obj :=
  [ ("source_id", VStr (pl_sourceId p));
    ("name", VStr (pl_storeName p));
    ("category", VStr (if bool_decide (pl_category p = "") then "Unknown"
                       else pl_category p));
    ("formatted_address", VStr (pl_formattedAddress p));
    ("phone_number", VStr (pl_phoneNumbers p));
    ("source_url", VStr (if startsWith (pl_url p) "http" then pl_url p
                         else "https://www.google.com" +:+ pl_url p));
    ("website_url", VStr (default "" (pl_website p)));
    ("rating_text", VStr (pl_ratingText p));
    ("stars", match pl_stars p with Some r => VNum r | None => VNull end);
    ("number_of_reviews",
       match pl_numberOfReviews p with Some r => VNum r | None => VNull end);
    ("price_level", VStr (pl_priceLevel p));
    ("open_hours", VStr (pl_openHours p));
    ("extraction_timestamp", VStr (pl_timestamp p)) ].

(** [extractBusinessData]: one pass over the place links with the set
    [seenIds]. *)
Fixpoint extractBusinessData_from (seenIds : gset string) (places : list place)
  : list obj :=
  match places with
  | [] => []
  | p :: rest =>
      if bool_decide (pl_url p = "") then extractBusinessData_from seenIds rest
      else if bool_decide (pl_sourceId p ∈ seenIds)
      then extractBusinessData_from seenIds rest
      else
        let seenIds' := {[pl_sourceId p]} ∪ seenIds in
        if bool_decide (pl_storeName p = "")
        then extractBusinessData_from seenIds' rest
        else
          let business := business_of_place p in
          if truthy (oget "name" business) &&
             (truthy (oget "formatted_address" business) ||
              truthy (oget "phone_number" business))
          then business :: extractBusinessData_from seenIds' rest
          else extractBusinessData_from seenIds' rest
  end.

Definition extractBusinessData (places : list place) : list obj :=
  extractBusinessData_from ∅ places.

(** [puppeteerExtra.launch(config)] *)
Definition launchBrowser : M unit :=
  k ← tick;
  match launch_fault E k with
  | None => emit ELaunch
  | Some e => throw e
  end.

(** [browser.newPage()] *)
Definition newPage : M unit :=
  k ← tick;
  match newPage_fault E k with
  | None => emit ENewPage
  | Some e => throw e
  end.

(** From [page.setExtraHTTPHeaders] to [$("a").toArray()] and the selectors
    of [extractBusinessData]: navigation, waiting for the result feed,
    scrolling, reading the page. *)
Definition page_steps (query country : string) : M (list place) :=
  k ← tick;
  match page_session E query country k with
  | Ret places => mret places
  | Throw e => throw e
  end.

Definition closePage : M unit :=
  k ← tick;
  match close_fault E k with
  | None => emit EClosePage
  | Some e => throw e
  end.

Definition closeBrowser : M unit :=
  k ← tick;
  match close_fault E k with
  | None => emit ECloseBrowser
  | Some e => throw e
  end.

(** The [catch] block of [searchGoogleMaps], up to its [return []]. *)
Definition report_search_failure (error : error) : M unit :=
  log (LSearchFailed error);;
  if bool_decide (err_name error = "TimeoutError") then log LHintTimeout
  else if includes (err_message error) "net::ERR_" then log LHintNetwork
  else if includes (err_message error) "Protocol error" then log LHintProtocol
  else mret ().

(** The [finally] block of [searchGoogleMaps]; [page] and [browser] tell
    whether the variables are set. *)
Definition cleanup (page browser : bool) : M unit :=
  r ← try ((if page then closePage else mret ());;
           (if browser then closeBrowser;; log LBrowserClosed else mret ()));
  match r with
  | Ret _ => mret ()
  | Throw cleanupError => log (LCleanupWarning cleanupError)
  end.

(** [searchGoogleMaps(query, country)].  The call itself is recorded as
    [EFetch]. *)
Definition searchGoogleMaps (query country : string) : M (list obj) :=
  emit (EFetch query country);;
  b ← try (withRetry launchBrowser 3 1000);
  match b with
  | Throw error => report_search_failure error;; cleanup false false;; mret []
  | Ret None =>
      report_search_failure
        (TypeError "Cannot read properties of undefined (reading 'newPage')");;
      cleanup false false;; mret []
  | Ret (Some _) =>
      p ← try newPage;
      match p with
      | Throw error => report_search_failure error;; cleanup false true;; mret []
      | Ret _ =>
          r ← try (page_steps query country);
          match r with
          | Throw error =>
              report_search_failure error;; cleanup true true;; mret []
          | Ret places =>
              let businesses := extractBusinessData places in
              cleanup true true;; mret businesses
          end
      end
  end.

(* ===================================================================== *)
(** ** scraper.js: files, filters, exports *)
(* ===================================================================== *)

(** A call into [fs-extra] that may fail. *)
Definition fs_call {A : Type} (ok : M A) : M A :=
  k ← tick;
  match fs_fault E k with
  | None => ok
  | Some e => throw e
  end.

(** [fs.ensureDir(p)] *)
Definition ensureDir (p : path) : M unit := fs_call (emit (EEnsureDir p)).

(** [fs.writeJson(p, data, { spaces: 2 })], for a progress tree and for an
    array of records.  The call can fail at two points: when it opens [p]
    for writing, and then the file is as it was; or after it opened [p],
    while it writes, and then what the file held is lost and the file does
    not parse.  The event records that the write was begun. *)
Definition writeJson_tree (p : path) (data : tree) : M unit :=
  fs_call (emit (EWriteTree p data);; truncate_progress_file p);;
  fs_call (store_progress_file p data).

Definition writeJson_records (p : path) (data : list obj) : M unit :=
  fs_call (emit (EWriteRecords p data);; truncate_json_file p);;
  fs_call (store_json_file p data).

(** Writing a CSV file or a workbook. *)
Definition write_sheet (p : path) (s : sheet) : M unit :=
  fs_call (emit (EWriteSheet p s);; store_sheet_file p s).

(** [path.dirname(p)] *)
Definition path_dirname (p : path) : path := removelast p.

(** [path.join(__dirname, 'output', query, countryCode, 'progress.json')] *)
Definition progressPath (query countryCode : string) : path :=
  dirname E ++ ["output"; query; countryCode; "progress.json"].

(** [filterByCategory]: the callback of [businesses.filter]. *)
Definition category_allowed (business : obj) : result bool :=
  if negb (truthy (oget "category" business)) then Ret true
  else
    match oget "category" business with
    | Some (VStr category) =>
        Ret (existsb (λ allowed, includes (toLowerCase category) (toLowerCase allowed))
                     (allowedCategories E))
    | _ => Throw (TypeError "business.category.toLowerCase is not a function")
    end.

(** [Array.prototype.filter] with a callback that may throw. *)
Fixpoint filter_result {A : Type} (f : A → result bool) (l : list A)
  : result (list A) :=
  match l with
  | [] => Ret []
  | x :: rest =>
      match f x with
      | Throw e => Throw e
      | Ret keep =>
          match filter_result f rest with
          | Throw e => Throw e
          | Ret rest' => Ret (if keep then x :: rest' else rest')
          end
      end
  end.

Definition filterByCategory (businesses : list obj) : result (list obj) :=
  if bool_decide (List.length (allowedCategories E) = 0) then Ret businesses
  else filter_result category_allowed businesses.

(** The key of [removeDuplicates]:
    [`${business.name}-${business.address}-${business.phone}`]. *)
Definition dedup_key (business : obj) : string :=
  tpl (oget "name" business) +:+ "-" +:+ tpl (oget "address" business)
  +:+ "-" +:+ tpl (oget "phone" business).

(** [removeDuplicates]: [businesses.filter] with the set [seen]. *)
Fixpoint removeDuplicates_from (seen : gset string) (businesses : list obj)
  : list obj :=
  match businesses with
  | [] => []
  | business :: rest =>
      let key := dedup_key business in
      if bool_decide (key ∈ seen) then removeDuplicates_from seen rest
      else business :: removeDuplicates_from ({[key]} ∪ seen) rest
  end.

Definition removeDuplicates (businesses : list obj) : list obj :=
  removeDuplicates_from ∅ businesses.

(** [loadProgress(query, countryCode)] *)
Definition loadProgress (query countryCode : string) : M tree :=
  r ← try (
    let progressPath := progressPath query countryCode in
    w ← readWorld;
    match progress_files w !! progressPath with
    | Some content =>                                   (* fs.pathExists *)
        fs_call (match content with                     (* fs.readJson *)
                 | Some data => mret (Some data)
                 | None => throw (mkError "SyntaxError" "Unexpected end of JSON input")
                 end)
    | None => mret None
    end);
  match r with
  | Ret (Some data) => mret data
  | Ret None => mret empty_tree
  | Throw error =>
      log (LLoadProgressFailed countryCode error);; mret empty_tree
  end.

(** [saveProgress(query, countryCode, progressData)] *)
Definition saveProgress (query countryCode : string) (progressData : tree) : M unit :=
  r ← try (
    let progressPath := progressPath query countryCode in
    ensureDir (path_dirname progressPath);;
    writeJson_tree progressPath progressData);
  match r with
  | Ret _ => mret ()
  | Throw error => log (LSaveProgressFailed error)
  end.

(** [updateCumulativeResults(newBusinesses, query, country)] *)
Definition updateCumulativeResults (newBusinesses : list obj) (query : string)
    (country : location) : M unit :=
  let filePath := dirname E ++ ["output"; query; iso2 country; "cumulative.json"] in
  r ← try (
    w ← readWorld;
    existing ← match json_files w !! filePath with
               | Some content =>                          (* fs.pathExists *)
                   fs_call (match content with            (* fs.readJson *)
                            | Some data => mret data
                            | None => throw (mkError "SyntaxError"
                                               "Unexpected end of JSON input")
                            end)
               | None => mret []
               end;
    let combined := removeDuplicates (existing ++ newBusinesses) in
    writeJson_records filePath combined;;
    log (LCumulativeUpdated (name country) (List.length combined)));
  match r with
  | Ret _ => mret ()
  | Throw error => log (LCumulativeFailed (name country) error)
  end.

(** [saveCityResults(businesses, query, country, state, city)] *)
Definition saveCityResults (businesses : list obj) (query : string)
    (country state city : location) : M unit :=
  r ← try (
    let cityDir := dirname E ++ ["output"; query; iso2 country; "cities"; iso2 state] in
    ensureDir cityDir;;
    let fileName := replace_ws (name city) +:+ ".json" in
    let filePath := cityDir ++ [fileName] in
    writeJson_records filePath businesses;;
    log (LSavedCity (List.length businesses) (name city)));
  match r with
  | Ret _ => mret ()
  | Throw error => log (LSaveCityFailed (name city) error)
  end.

(** [saveStateResults(businesses, query, country, state)] *)
Definition saveStateResults (businesses : list obj) (query : string)
    (country state : location) : M unit :=
  r ← try (
    let stateDir := dirname E ++ ["output"; query; iso2 country; "states"] in
    ensureDir stateDir;;
    let fileName := replace_ws (name state) +:+ ".json" in
    let filePath := stateDir ++ [fileName] in
    writeJson_records filePath businesses;;
    log (LSavedState (List.length businesses) (name state));;
    updateCumulativeResults businesses query country);
  match r with
  | Ret _ => mret ()
  | Throw error => log (LSaveStateFailed (name state) error)
  end.

(** A cell of a written table: [undefined] and [null] give an empty cell,
    anything else its string conversion (quoting is not shown). *)
Definition cell (x : option jsval) : string :=
  match x with
  | None | Some VNull => ""
  | Some (VStr s) => s
  | Some (VNum r) => r
  end.

(** One row per record, one cell per column. *)
Definition rows_for (columns : list string) (data : list obj) : list (list string) :=
  map (λ record, map (λ id, cell (oget id record)) columns) data.

(** [exportJSON(data, filePath)] *)
Definition exportJSON (data : list obj) (filePath : path) : M unit :=
  writeJson_records filePath data.

(** [exportCSV(data, filePath)]: [headers] are [Object.keys(data[0])], each
    both id and title; [csvWriter.writeRecords(data)] writes the title row
    and, per record, the fields named by the ids. *)
Definition exportCSV (data : list obj) (filePath : path) : M unit :=
  match data with
  | [] => mret ()
  | first :: _ =>
      let headers := keys first in
      write_sheet filePath {| sheet_header := headers;
                              sheet_rows := rows_for headers data |}
  end.

(** The header [XLSX.utils.json_to_sheet] builds (behaviour of the SheetJS
    library): every key of every record, in order of first appearance. *)
Fixpoint add_keys (hdr : list string) (ks : list string) : list string :=
  match ks with
  | [] => hdr
  | k :: rest => add_keys (if bool_decide (k ∈ hdr) then hdr else hdr ++ [k]) rest
  end.

Definition json_to_sheet_header (data : list obj) : list string :=
  fold_left (λ hdr record, add_keys hdr (keys record)) data [].

Definition json_to_sheet (data : list obj) : sheet :=
  let hdr := json_to_sheet_header data in
  {| sheet_header := hdr; sheet_rows := rows_for hdr data |}.

(** [exportXLSX(data, filePath)] *)
Definition exportXLSX (data : list obj) (filePath : path) : M unit :=
  let worksheet := json_to_sheet data in
  write_sheet filePath worksheet.

(** The body of the [for (const format of CONFIG.exportFormats)] loop of
    [exportResults]. *)
Definition export_format (businesses : list obj) (outputDir : path)
    (countryName format : string) : M unit :=
  let filePath := outputDir ++ [replace_ws countryName +:+ "." +:+ format] in
  r ← try (
    (if bool_decide (toLowerCase format = "json") then exportJSON businesses filePath
     else if bool_decide (toLowerCase format = "csv") then exportCSV businesses filePath
     else if bool_decide (toLowerCase format = "xlsx") then exportXLSX businesses filePath
     else mret ());;
    log (LExported (List.length businesses) format filePath));
  match r with
  | Ret _ => mret ()
  | Throw error => log (LExportFailed format error)
  end.

Fixpoint export_formats (businesses : list obj) (outputDir : path)
    (countryName : string) (formats : list string) : M unit :=
  match formats with
  | [] => mret ()
  | format :: rest =>
      export_format businesses outputDir countryName format;;
      export_formats businesses outputDir countryName rest
  end.

(** [exportResults(businesses, query, countryCode, countryName)] *)
Definition exportResults (businesses : list obj) (query countryCode countryName : string)
  : M unit :=
  let outputDir := dirname E ++ ["output"; query; countryCode; "results"] in
  ensureDir outputDir;;
  export_formats businesses outputDir countryName (cfg_exportFormats E).

(* ===================================================================== *)
(** ** scraper.js: retry wrapper, worker pool, state loop, country *)
(* ===================================================================== *)

(** The search string of a leaf: with a city name
    [`${query} near ${cityname} ${statename} ${countryname}`], without
    [`${query} near ${statename} ${countryname}`]. *)
Definition searchQuery (query cityname statename countryname : string) : string :=
  if bool_decide (cityname = "")
  then query +:+ " near " +:+ statename +:+ " " +:+ countryname
  else query +:+ " near " +:+ cityname +:+ " " +:+ statename +:+ " " +:+ countryname.

(** [{ ...business, source_name: 'google', source_query: query, ... }] *)
Definition with_provenance (query cityname statename countryname countrycode : string)
    (business : obj) : obj :=
  oset "city" (VStr cityname)
    (oset "state" (VStr statename)
      (oset "country" (VStr countryname)
        (oset "source_country" (VStr countrycode)
          (oset "source_query" (VStr query)
            (oset "source_name" (VStr "google") business))))).

(** The [try] block of [searchMapsWithRetry], over the fetch operation it
    awaits.  An array is truthy, so [if (businesses)] always takes its
    branch. *)
Definition search_attempt (fetch : string → string → M (list obj))
    (query cityname statename countryname countrycode : string) : M (list obj) :=
  let searchQuery := searchQuery query cityname statename countryname in
  businesses ← fetch searchQuery countrycode;
  let updatedBusinesses :=
    map (with_provenance query cityname statename countryname countrycode) businesses in
  match filterByCategory updatedBusinesses with
  | Ret kept => mret kept
  | Throw e => throw e
  end.

(** The loop of [searchMapsWithRetry]: [attempt] runs from 0 to [retries];
    [remaining] is [retries - attempt], so that [attempt === retries] reads
    [remaining = 0]. *)
Fixpoint searchMapsWithRetry_from (fetch : string → string → M (list obj))
    (query cityname statename countryname countrycode : string)
    (remaining attempt : nat) : M (list obj) :=
  r ← try (search_attempt fetch query cityname statename countryname countrycode);
  match r with
  | Ret businesses => mret businesses
  | Throw error =>
      log (LAttemptFailed (attempt + 1) error);;
      match remaining with
      | 0 =>
          log (LAllRetriesFailed countryname statename cityname);;
          mret []
      | S remaining' =>
          ms ← randomInt 1000 3000;
          sleep ms;;
          searchMapsWithRetry_from fetch query cityname statename countryname
            countrycode remaining' (S attempt)
      end
  end.

(** [searchMapsWithRetry] over an arbitrary fetch operation ... *)
Definition searchMapsWithRetry_with (fetch : string → string → M (list obj))
    (query cityname statename countryname countrycode : string) (retries : nat)
  : M (list obj) :=
  searchMapsWithRetry_from fetch query cityname statename countryname countrycode
    retries 0.

(** ... and as the program has it, over [searchGoogleMaps], with
    [retries = CONFIG.retryCount]. *)
Definition searchMapsWithRetry
    (query cityname statename countryname countrycode : string) : M (list obj) :=
  searchMapsWithRetry_with searchGoogleMaps query cityname statename countryname
    countrycode (cfg_retryCount E).

(** [translateQuery(query, targetLanguage)] *)
Definition translateQuery (query : string) (targetLanguage : option string) : M string :=
  if negb (cfg_localize E) || bool_decide (targetLanguage = Some "en") then mret query
  else
    r ← try (k ← tick;
             match translate E query targetLanguage k with
             | Ret text => mret text
             | Throw e => throw e
             end);
    match r with
    | Ret text => mret text
    | Throw error => log (LTranslationFailed targetLanguage error);; mret query
    end.

(** *** processCitiesConcurrently

    [CONFIG.parallel] invocations of [processBatch] share [cityIndex] and
    [results].  JavaScript runs each of them without interruption from one
    [await] to the next; a worker is described by the [await] it is
    suspended at. *)
Inductive wstate : Type :=
| NotStarted
| InSearch (city : location) (key : string)        (* awaiting [searchMapsWithRetry] *)
| InSave (city : location) (businesses : list obj) (* awaiting [saveCityResults] *)
| InDelay                                          (* awaiting the pause *)
| Finished.

(** The variables of one [processCitiesConcurrently] call; [claims] logs
    which worker read which index ([cities[cityIndex++]]), in order. *)
Record pool : Type := mkPool {
  cityIndex : nat;
  results : list obj;
  workers : list wstate;
  claims : list (nat * nat)
}.

Definition is_finished (s : wstate) : bool :=
  match s with Finished => true | _ => false end.

Definition is_in_search (s : wstate) : bool :=
  match s with InSearch _ _ => true | _ => false end.

(** The head of the [while] loop, from the test [cityIndex < cities.length]
    to the first city that is neither missing nor marked: [rest] is what
    remains of [cities] from [idx] on.  Returns the new [cityIndex], the
    indices read, and the city to search, if any. *)
Fixpoint claim_from (country state : location) (t : tree)
    (rest : list (option location)) (idx : nat) (claimed : list nat)
  : nat * list nat * option (location * string) :=
  match rest with
  | [] => (idx, claimed, None)
  | None :: rest' => claim_from country state t rest' (S idx) (claimed ++ [idx])
  | Some city :: rest' =>
      let key := cityKey country state city in
      if isCityDone t key
      then claim_from country state t rest' (S idx) (claimed ++ [idx])
      else (S idx, claimed ++ [idx], Some (city, key))
  end.

Definition set_worker (wid : nat) (s : wstate) (p : pool) : pool :=
  {| cityIndex := cityIndex p; results := results p;
     workers := <[wid := s]> (workers p); claims := claims p |}.

Section Pool.

Variables (cities : list (option location)) (state country : location)
          (query localizedQuery : string).

(** The pool after worker [wid] ran the loop head with the tree [t]: it is
    suspended in its next search, or has left the loop. *)
Definition loop_head (wid : nat) (p : pool) (t : tree) : pool :=
  let '(idx, claimed, next) :=
    claim_from country state t (drop (cityIndex p) cities) (cityIndex p) [] in
  {| cityIndex := idx; results := results p;
     workers := <[wid := match next with
                         | Some (city, key) => InSearch city key
                         | None => Finished
                         end]> (workers p);
     claims := claims p ++ map (pair wid) claimed |}.

Definition enter_loop (wid : nat) (p : pool) : M pool :=
  t ← readProgressData; mret (loop_head wid p t).

(** [await new Promise(r => setTimeout(r, getRandomInt(CONFIG.minDelay, CONFIG.maxDelay)))] *)
Definition pause : M unit :=
  ms ← randomInt (cfg_minDelay E) (cfg_maxDelay E); sleep ms.

(** Worker [wid] runs from the [await] it is suspended at to its next one.
    The search a worker was awaiting takes effect when it resumes: its
    events enter the trace then, not when the worker called
    [searchMapsWithRetry], so the trace orders the searches of a pool by
    their settling, not by their start.  Of the statements in the worker's
    [try] block only the awaited calls can throw. *)
Definition resume (wid : nat) (p : pool) : M pool :=
  match workers p !! wid with
  | Some NotStarted => enter_loop wid p
  | Some (InSearch city key) =>
      r ← try (searchMapsWithRetry localizedQuery (name city) (name state)
                 (name country) (iso2 country));
      match r with
      | Ret businesses =>
          let p1 := {| cityIndex := cityIndex p; results := results p ++ businesses;
                       workers := workers p; claims := claims p |} in
          updateProgressData (markCityComplete key);;
          log (LCityDone (name city) (name state) (name country) (List.length businesses));;
          if 0 <? List.length businesses
          then mret (set_worker wid (InSave city businesses) p1)
          else pause;; mret (set_worker wid InDelay p1)
      | Throw error =>
          log (LCityFailed (name city) error);; enter_loop wid p
      end
  | Some (InSave city businesses) =>
      r ← try (saveCityResults businesses query country state city);
      match r with
      | Ret _ => pause;; mret (set_worker wid InDelay p)
      | Throw error =>
          log (LCityFailed (name city) error);; enter_loop wid p
      end
  | Some InDelay => enter_loop wid p
  | Some Finished | None => mret p
  end.

(** The workers still inside [processBatch]. *)
Fixpoint pending_from (i : nat) (ws : list wstate) : list nat :=
  match ws with
  | [] => []
  | s :: rest =>
      if is_finished s then pending_from (S i) rest
      else i :: pending_from (S i) rest
  end.

Definition pending (p : pool) : list nat := pending_from 0 (workers p).

(** [semaphore.map(() => processBatch())]: each invocation runs up to its
    first [await] before the next one starts. *)
Fixpoint start_workers (wids : list nat) (p : pool) : M pool :=
  match wids with
  | [] => mret p
  | wid :: rest => p' ← resume wid p; start_workers rest p'
  end.

(** [await Promise.all(...)]: while a worker is pending, the environment
    picks the one whose awaited call settles next. *)
Fixpoint run_pool (fuel : nat) (p : pool) : M pool :=
  match fuel with
  | 0 => mret p
  | S fuel' =>
      match pending p with
      | [] => mret p
      | wid0 :: others =>
          k ← tick;
          let wid := nth (settles_next E k mod List.length (wid0 :: others))
                         (wid0 :: others) wid0 in
          p' ← resume wid p;
          run_pool fuel' p'
      end
  end.

Definition initial_pool : pool :=
  {| cityIndex := 0; results := [];
     workers := replicate (cfg_parallel E) NotStarted; claims := [] |}.

(** The pool after [Promise.all] settled.  Three resumptions per city
    suffice ([run_pool_settles]). *)
Definition run_workers : M pool :=
  p1 ← start_workers (seq 0 (cfg_parallel E)) initial_pool;
  run_pool (3 * List.length cities) p1.

(** [processCitiesConcurrently(cities, state, country, query, localizedQuery)] *)
Definition processCitiesConcurrently : M (list obj) :=
  p ← run_workers; mret (results p).

End Pool.

(** *** processStatesConcurrently *)

(** The statement [progressData.completed.cities[cityKey] = true] of
    [processStatesConcurrently]: no binding of [cityKey] is in scope there
    (the only one is local to [processBatch]), and reading an unbound
    identifier in a module throws. *)
Definition assign_unbound_cityKey : M unit :=
  throw (ReferenceError "cityKey is not defined").

(** The work of one state, between the skip test and the marking. *)
Definition state_businesses (state country : location) (query localizedQuery : string)
  : M (list obj) :=
  if cfg_includeCities E then
    k ← tick;
    match citiesByCountryState E (iso2 country) (iso2 state) k with
    | Throw e => throw e
    | Ret citiesByState =>
        k' ← tick;
        let shuffledCities := shuffle E citiesByState k' in
        if 0 <? List.length shuffledCities
        then processCitiesConcurrently shuffledCities state country query localizedQuery
        else mret []
    end
  else
    businesses ← searchMapsWithRetry localizedQuery "" (name state) (name country)
                   (iso2 country);
    log (LStateDone (name state) (name country) (List.length businesses));;
    mret businesses.

(** The [for (const state of states)] loop, with [results] so far. *)
Fixpoint processStates_loop (states : list (option location)) (country : location)
    (query localizedQuery : string) (results : list obj) : M (list obj) :=
  match states with
  | [] => mret results
  | None :: rest => processStates_loop rest country query localizedQuery results
  | Some state :: rest =>
      let stateKey := stateKey country state in
      t ← readProgressData;
      if isStateDone t stateKey
      then processStates_loop rest country query localizedQuery results
      else
        log (LProcessingState (name state) (name country));;
        stateBusinesses ← state_businesses state country query localizedQuery;
        let results := results ++ stateBusinesses in
        updateProgressData (markStateComplete stateKey);;
        (if 0 <? List.length stateBusinesses
         then saveStateResults stateBusinesses query country state
         else mret ());;
        assign_unbound_cityKey;;
        t ← readProgressData;
        saveProgress query (iso2 country) t;;
        pause;;
        processStates_loop rest country query localizedQuery results
  end.

(** [processStatesConcurrently(states, country, query, localizedQuery)] *)
Definition processStatesConcurrently (states : list (option location))
    (country : location) (query localizedQuery : string) : M (list obj) :=
  processStates_loop states country query localizedQuery [].

(** *** processCountry *)

(** The [try] block of [processCountry]. *)
Definition processCountry_body (country : location) (query : string) : M (list obj) :=
  data ← loadProgress query (iso2 country);
  writeProgressData data;;
  t ← readProgressData;
  if isCountryDone t (iso2 country)
  then log (LCountrySkipped (name country));; mret []
  else
    k ← tick;
    info ← match countrylocalemap E (iso2 country) k with
           | Ret info => mret info
           | Throw e => throw e
           end;
    language ← match info with
               | None => throw (TypeError
                           "Cannot read properties of undefined (reading 'languages')")
               | Some None => mret (Some "en")
               | Some (Some languages) => mret (head languages)
               end;
    localizedQuery ← translateQuery query language;
    (if bool_decide (localizedQuery = query) then mret ()
     else log (LQueryTranslated language localizedQuery));;
    k ← tick;
    allStates ← match statesByCountry E (iso2 country) k with
                | Ret l => mret l
                | Throw e => throw e
                end;
    k ← tick;
    let shuffledStates := shuffle E allStates k in
    countryBusinesses ← processStatesConcurrently shuffledStates country query
                          localizedQuery;
    let uniqueBusinesses := removeDuplicates countryBusinesses in
    exportResults uniqueBusinesses query (iso2 country) (name country);;
    updateProgressData (markCountryComplete (iso2 country));;
    t ← readProgressData;
    saveProgress query (iso2 country) t;;
    log (LCountryCompleted (name country) (List.length uniqueBusinesses));;
    mret uniqueBusinesses.

(** [processCountry(country, query)] *)
Definition processCountry (country : location) (query : string) : M (list obj) :=
  r ← try (processCountry_body country query);
  match r with
  | Ret businesses => mret businesses
  | Throw error => log (LCountryFailed (name country) error);; mret []
  end.

End Program.

(* ===================================================================== *)
(** ** scraper.js: the loop over the countries *)
(* ===================================================================== *)

(** The variables the loop of [main] updates: [allBusinesses] and the
    counters of the final summary. *)
Record tally : Type := mkTally {
  allBusinesses : list obj;
  totalBusinesses : nat;
  successfulCountries : nat;
  failedCountries : nat
}.

(** [for (const country of targetCountries)] in [main].  The flag
    [isShuttingDown] is set by the signal handler; here it is read off the
    clock.  The line of the [catch] block has the template of the one in
    [processCountry]. *)
Fixpoint main_loop (E : env) (isShuttingDown : nat → bool)
    (targetCountries : list location) (query : string) (t : tally) : M tally :=
  match targetCountries with
  | [] => mret t
  | country :: rest =>
      w ← readWorld;
      if isShuttingDown (clock w) then mret t
      else
        r ← try (processCountry E country query);
        match r with
        | Ret businesses =>
            main_loop E isShuttingDown rest query
              {| allBusinesses := allBusinesses t ++ businesses;
                 totalBusinesses := totalBusinesses t + List.length businesses;
                 successfulCountries := S (successfulCountries t);
                 failedCountries := failedCountries t |}
        | Throw error =>
            log (LCountryFailed (name country) error);;
            main_loop E isShuttingDown rest query
              {| allBusinesses := allBusinesses t;
                 totalBusinesses := totalBusinesses t;
                 successfulCountries := successfulCountries t;
                 failedCountries := S (failedCountries t) |}
        end
  end.

(* ===================================================================== *)
(** ** maps/maps.js: searchGoogleMapsBatch *)
(* ===================================================================== *)

(** An entry of the array [searchGoogleMapsBatch] returns; [br_error] is
    present on a failed entry only. *)
Record batch_result : Type := mkBatchResult {
  br_query : string;
  br_businesses : list obj;
  br_success : bool;
  br_error : option string
}.

(** The loop [for (let i = 0; i < queries.length; i += maxConcurrent)
    chunks.push(queries.slice(i, i + maxConcurrent))], over what remains of
    [queries] from [i] on.  With [maxConcurrent = 0] the loop does not
    advance; [fuel] bounds its iterations and [None] tells that it has not
    ended. *)
Fixpoint chunks_from (fuel maxConcurrent : nat) (rest : list string)
  : option (list (list string)) :=
  match rest with
  | [] => Some []
  | _ :: _ =>
      match fuel with
      | 0 => None
      | S fuel' =>
          match chunks_from fuel' maxConcurrent (drop maxConcurrent rest) with
          | Some chunks => Some (take maxConcurrent rest :: chunks)
          | None => None
          end
      end
  end.

Section Batch.

Variable E : env.

(** The callbacks [onProgress] and [onError] of [options]; the defaults do
    nothing. *)
Variables (onProgress : nat → nat → nat → M unit) (onError : string → error → M unit).

(** [await Promise.allSettled(chunk.map(query => searchGoogleMaps(query,
    country)))]: each call is recorded when it is made, in the order of the
    chunk; the sessions are taken one after the other. *)
Fixpoint settle_chunk (country : string) (chunk : list string)
  : M (list (string * result (list obj))) :=
  match chunk with
  | [] => mret []
  | query :: rest =>
      r ← try (searchGoogleMaps E query country);
      settled ← settle_chunk country rest;
      mret ((query, r) :: settled)
  end.

(** [chunkResults.forEach(...)]: returns [results] as the pushes left it,
    and whether the loop completed or [onError] threw. *)
Fixpoint record_settled (settled : list (string * result (list obj)))
    (results : list batch_result) : M (list batch_result * result unit) :=
  match settled with
  | [] => mret (results, Ret ())
  | (query, Ret value) :: rest =>
      record_settled rest
        (results ++ [{| br_query := query; br_businesses := value;
                        br_success := true; br_error := None |}])
  | (query, Throw reason) :: rest =>
      let results := results ++ [{| br_query := query; br_businesses := [];
                                    br_success := false;
                                    br_error := Some (err_message reason) |}] in
      r ← try (onError query reason);
      match r with
      | Ret _ => record_settled rest results
      | Throw e => mret (results, Throw e)
      end
  end.

(** The loop over the chunks; [i] is the index of the first of [chunks],
    [total] is [chunks.length].  [results.flat()] is [results], its entries
    being objects.  The console line of the [catch] block is not
    recorded. *)
Fixpoint batch_loop (country : string) (delay : Z) (chunks : list (list string))
    (i total : nat) (results : list batch_result) : M (list batch_result) :=
  match chunks with
  | [] => mret results
  | chunk :: rest =>
      settled ← settle_chunk country chunk;
      '(results, r) ← record_settled settled results;
      match r with
      | Ret _ =>
          try (onProgress (i + 1) total (List.length results);;
               if i <? total - 1 then sleep delay else mret ())
      | Throw e => mret (Throw e)
      end;;
      batch_loop country delay rest (S i) total results
  end.

(** [searchGoogleMapsBatch(queries, country, { delay, maxConcurrent,
    onProgress, onError })]; [None] when the splitting loop has not ended
    within [fuel] iterations. *)
Definition searchGoogleMapsBatch (fuel : nat) (queries : list string) (country : string)
    (delay : Z) (maxConcurrent : nat) : M (option (list batch_result)) :=
  match chunks_from fuel maxConcurrent queries with
  | None => mret None
  | Some chunks =>
      results ← batch_loop country delay chunks 0 (List.length chunks) [];
      mret (Some results)
  end.

End Batch.


(* ===================================================================== *)
(** ** Notions used in the statements *)
(* ===================================================================== *)

(** [w'] is [w] after some more events, each satisfying [φ]. *)
Definition extends (φ : event → Prop) (w w' : world) : Prop :=
  ∃ new, trace w' = trace w ++ new ∧ Forall φ new.

(** [f] reads the same in [w'] as in [w]. *)
Definition same_on {B : Type} (f : world → B) (w w' : world) : Prop := f w' = f w.

(** Whatever [m] returns, the world it leaves is related to the one it
    started from. *)
Definition respects (R : relation world) {A : Type} (m : M A) : Prop :=
  ∀ w, R w (snd (m w)).

(** [m] returns: it does not throw. *)
Definition returns {A : Type} (m : M A) : Prop :=
  ∀ w, ∃ a, fst (m w) = Ret a.

(** Marks are only added to the in-memory tree. *)
Definition marks_grow (w w' : world) : Prop :=
  (∀ k, isCityDone (progressData w) k = true → isCityDone (progressData w') k = true) ∧
  (∀ k, isStateDone (progressData w) k = true → isStateDone (progressData w') k = true).

Definition is_fetch (e : event) : Prop := ∃ q cc, e = EFetch q cc.

Definition not_fetch (e : event) : Prop := ∀ q cc, e ≠ EFetch q cc.

Definition not_tree_write (e : event) : Prop :=
  (∀ p t, e ≠ EWriteTree p t) ∧ (∀ src dst, e ≠ ERename src dst).

(** [w] after the events [new] and [ticks] consultations of the
    environment. *)
Definition advance (w : world) (new : list event) (ticks : nat) : world :=
  {| progressData := progressData w; progress_files := progress_files w;
     json_files := json_files w; sheet_files := sheet_files w;
     trace := trace w ++ new; clock := ticks + clock w |}.

(** The events of a browser session after the call was recorded. *)
Definition session_event (e : event) : Prop :=
  match e with
  | ELaunch | ENewPage | EClosePage | ECloseBrowser | ESleep _ => True
  | ELog (LRetry _ _ _) | ELog (LSearchFailed _) | ELog LHintTimeout
  | ELog LHintNetwork | ELog LHintProtocol | ELog LBrowserClosed
  | ELog (LCleanupWarning _) => True
  | _ => False
  end.

(** Events other than a fetch call, a write of a progress tree and a
    rename. *)
Definition quiet (e : event) : Prop :=
  match e with
  | EFetch _ _ | EWriteTree _ _ | ERename _ _ => False
  | _ => True
  end.

(** From [w] to [w']: [progressData] and the progress files are the same,
    and the new events satisfy [ψ]. *)
Definition touches (ψ : event → Prop) (w w' : world) : Prop :=
  progressData w' = progressData w ∧
  progress_files w' = progress_files w ∧
  extends ψ w w'.

(** From [w] to [w']: marks were only added in memory, the progress files
    are the same, and the new events satisfy [ψ]. *)
Definition steps (ψ : event → Prop) (w w' : world) : Prop :=
  marks_grow w w' ∧
  progress_files w' = progress_files w ∧
  extends ψ w w'.

(** The pool with [businesses] appended to [results]. *)
Definition with_results (p : pool) (businesses : list obj) : pool :=
  {| cityIndex := cityIndex p; results := results p ++ businesses;
     workers := workers p; claims := claims p |}.

(** One resumption of worker [wid], by what it does to the pool and to the
    world: nothing when the worker is done; the loop head when it starts
    or wakes from its pause; after a search, the city is marked and the
    worker goes on to save or to pause; after saving, it pauses. *)
Inductive transition (cities : list (option location)) (state country : location)
    (localizedQuery : string) (wid : nat) : pool → world → pool → world → Prop :=
| T_idle p w :
    workers p !! wid = Some Finished ∨ workers p !! wid = None →
    transition cities state country localizedQuery wid p w p w
| T_enter p w :
    workers p !! wid = Some NotStarted ∨ workers p !! wid = Some InDelay →
    transition cities state country localizedQuery wid p w
      (loop_head cities state country wid p (progressData w)) w
| T_searched p w city key businesses s' w' :
    workers p !! wid = Some (InSearch city key) →
    progressData w' = markCityComplete key (progressData w) →
    progress_files w' = progress_files w →
    extends (λ e, quiet e ∨
                  e = EFetch (searchQuery localizedQuery (name city) (name state)
                                (name country)) (iso2 country)) w w' →
    s' = InSave city businesses ∨ s' = InDelay →
    transition cities state country localizedQuery wid p w
      (set_worker wid s' (with_results p businesses)) w'
| T_saved p w city businesses w' :
    workers p !! wid = Some (InSave city businesses) →
    touches quiet w w' →
    transition cities state country localizedQuery wid p w
      (set_worker wid InDelay p) w'.

(** What a worker still has to do, in resumptions, once its city is
    read. *)
Definition weight (s : wstate) : nat :=
  match s with
  | InSearch _ _ => 3
  | InSave _ _ => 2
  | InDelay => 1
  | NotStarted | Finished => 0
  end.

(** A bound on the resumptions left before every worker has left its
    loop. *)
Definition work_left (cities : list (option location)) (p : pool) : nat :=
  3 * (List.length cities - cityIndex p) + sum_list (map weight (workers p)).

(** The events a city-level run may add when it starts from the tree [t0]:
    quiet ones, and fetch calls for cities of the list that [t0] does not
    mark. *)
Definition city_events (cities : list (option location)) (state country : location)
    (localizedQuery : string) (t0 : tree) (e : event) : Prop :=
  quiet e ∨
  ∃ city, Some city ∈ cities ∧
          isCityDone t0 (cityKey country state city) = false ∧
          e = EFetch (searchQuery localizedQuery (name city) (name state) (name country))
                (iso2 country).

(** Every worker awaiting a search holds a city of the list that [t0] does
    not mark, under its own key. *)
Definition searches_unmarked (cities : list (option location)) (state country : location)
    (t0 : tree) (p : pool) : Prop :=
  ∀ wid city key,
    workers p !! wid = Some (InSearch city key) →
    Some city ∈ cities ∧ key = cityKey country state city ∧ isCityDone t0 key = false.

(** The events a run over [states] may add when it starts from [t0]: quiet
    ones, and fetch calls for a state that [t0] does not mark, or for a city
    under such a state when city-level tasks are on. *)
Definition state_events (E : env) (states : list (option location)) (country : location)
    (localizedQuery : string) (t0 : tree) (e : event) : Prop :=
  quiet e ∨
  ∃ state cityname,
    Some state ∈ states ∧
    isStateDone t0 (stateKey country state) = false ∧
    (cfg_includeCities E = false → cityname = "") ∧
    e = EFetch (searchQuery localizedQuery cityname (name state) (name country))
          (iso2 country).

(** No worker is still to be started. *)
Definition all_started (p : pool) : Prop :=
  ∀ wid, workers p !! wid ≠ Some NotStarted.

(** The identity key as the specification words it: the triple of name,
    formatted address and phone number, the empty string standing for a
    missing field. *)
Definition field_or_empty (k : string) (business : obj) : string :=
  match oget k business with
  | Some (VStr s) => s
  | Some (VNum r) => r
  | Some VNull | None => ""
  end.

Definition spec_identity_key (business : obj) : string * string * string :=
  (field_or_empty "name" business,
   field_or_empty "formatted_address" business,
   field_or_empty "phone_number" business).

(** The de-duplication keys of a list of records, as a set. *)
Definition key_set (l : list obj) : gset string := list_to_set (map dedup_key l).

(** The column set of a table is the union of the keys of the records. *)
Definition columns_are_union (data : list obj) (s : sheet) : Prop :=
  ∀ k, k ∈ sheet_header s ↔ ∃ record, record ∈ data ∧ k ∈ keys record.

(** A missing field of a record shows as an empty cell in its row. *)
Definition missing_is_empty (data : list obj) (s : sheet) : Prop :=
  ∀ i j record row id,
    data !! i = Some record → sheet_rows s !! i = Some row →
    sheet_header s !! j = Some id → oget id record = None →
    row !! j = Some "".

(** Events that save [t] at [target] through a temporary file: a write of
    [t] to some other path, later renamed onto [target], and no direct
    write to [target]. *)
Definition atomic_save (target : path) (t : tree) (new : list event) : Prop :=
  (∃ tmp i j, tmp ≠ target ∧ i < j ∧
              new !! i = Some (EWriteTree tmp t) ∧
              new !! j = Some (ERename tmp target)) ∧
  (∀ t', EWriteTree target t' ∉ new).

(** Workers awaiting a search. *)
Definition in_flight (p : pool) : nat :=
  List.length (filter (λ s, is_in_search s = true) (workers p)).

(** The scheduler invariant: [K] workers, at most [K] searches in flight,
    and the indices read so far are [0 .. cityIndex - 1], each once, all
    within the task list. *)
Definition pool_ok (cities : list (option location)) (K : nat) (p : pool) : Prop :=
  List.length (workers p) = K ∧
  in_flight p ≤ K ∧
  cityIndex p ≤ List.length cities ∧
  map snd (claims p) = seq 0 (cityIndex p) ∧
  NoDup (map snd (claims p)).

(** A fetch operation that fails on every call with [e], after recording
    the call. *)
Definition failing_fetch (e : error) : string → string → M (list obj) :=
  λ searchQuery countrycode, emit (EFetch searchQuery countrycode);; throw e.

(** The events of [searchMapsWithRetry] over [failing_fetch e], from
    attempt [attempt] with [remaining] retries left, the clock reading [k]. *)
Fixpoint failing_trace (E : env) (e : error) (sq cc : string)
    (countryname statename cityname : string) (remaining attempt k : nat)
  : list event :=
  EFetch sq cc :: ELog (LAttemptFailed (attempt + 1) e) ::
  match remaining with
  | 0 => [ELog (LAllRetriesFailed countryname statename cityname)]
  | S remaining' =>
      ESleep (getRandomInt E 1000 3000 k) ::
      failing_trace E e sq cc countryname statename cityname remaining' (S attempt) (S k)
  end.

(** The pauses in a list of events. *)
Definition pauses (evs : list event) : list Z :=
  omap (λ e, match e with ESleep ms => Some ms | _ => None end) evs.

(** The fetch calls in a list of events. *)
Definition fetches (evs : list event) : list (string * string) :=
  omap (λ e, match e with EFetch q cc => Some (q, cc) | _ => None end) evs.

(** An operation for [withRetry] that fails on every call with [e]. *)
Definition failing_operation (e : error) : M unit := throw e.

(** The keys of every record [searchMapsWithRetry] returns. *)
Definition scraped_keys : list string :=
  [ "source_id"; "name"; "category"; "formatted_address"; "phone_number";
    "source_url"; "website_url"; "rating_text"; "stars"; "number_of_reviews";
    "price_level"; "open_hours"; "extraction_timestamp";
    "source_name"; "source_query"; "source_country"; "country"; "state"; "city" ].

(** The fields [extractBusinessData] requires of a place: a link, a name,
    and an address or a phone number. *)
Definition usable (p : place) : Prop :=
  pl_url p ≠ "" ∧ pl_storeName p ≠ "" ∧
  (pl_formattedAddress p ≠ "" ∨ pl_phoneNumbers p ≠ "").

Definition launches (evs : list event) : nat :=
  List.length (omap (λ e, match e with ELaunch => Some () | _ => None end) evs).

Definition retry_lines (evs : list event) : nat :=
  List.length (omap (λ e, match e with ELog (LRetry _ _ _) => Some () | _ => None end) evs).

Definition cumulativePath (E : env) (query : string) (country : location) : path :=
  dirname E ++ ["output"; query; iso2 country; "cumulative.json"].

Definition export_lines (evs : list event) : list string :=
  omap (λ e, match e with
             | ELog (LExported _ format _) | ELog (LExportFailed format _) => Some format
             | _ => None
             end) evs.

(** [path.join(outputDir, `${countryName.replace(/\s+/g, '_')}.${format}`)] *)
Definition export_path (outputDir : path) (countryName format : string) : path :=
  outputDir ++ [replace_ws countryName +:+ "." +:+ format].

(** The events of exporting [businesses] in the formats [formats]: a write
    of the records for a JSON format, of a table for a CSV or XLSX format,
    each to the path of its format, and the console lines. *)
Definition export_event (businesses : list obj) (outputDir : path) (countryName : string)
    (formats : list string) (e : event) : Prop :=
  match e with
  | ELog (LExported n format p) =>
      n = List.length businesses ∧ format ∈ formats ∧
      p = export_path outputDir countryName format
  | ELog (LExportFailed format _) => format ∈ formats
  | EWriteRecords p rs =>
      rs = businesses ∧
      ∃ format, format ∈ formats ∧ toLowerCase format = "json" ∧
                p = export_path outputDir countryName format
  | EWriteSheet p s =>
      List.length (sheet_rows s) = List.length businesses ∧
      ∃ format, format ∈ formats ∧ p = export_path outputDir countryName format ∧
                ((toLowerCase format = "csv" ∧ businesses ≠ []) ∨
                 toLowerCase format = "xlsx")
  | _ => False
  end.


(** The entry [searchGoogleMapsBatch] records for a settled call that was
    fulfilled. *)
Definition fulfilled_entry (qr : string * result (list obj)) : batch_result :=
  {| br_query := fst qr;
     br_businesses := match snd qr with Ret value => value | Throw _ => [] end;
     br_success := true; br_error := None |}.

(** Every city read so far is marked or being searched by a worker, under
    its own key; and once a worker has left its loop the whole list has
    been read. *)
Definition covered (cities : list (option location)) (state country : location)
    (p : pool) (w : world) : Prop :=
  cityIndex p ≤ List.length cities ∧
  (∀ wid city key, workers p !! wid = Some (InSearch city key) →
                   key = cityKey country state city) ∧
  (∀ i city, i < cityIndex p → cities !! i = Some (Some city) →
             isCityDone (progressData w) (cityKey country state city) = true ∨
             ∃ wid, workers p !! wid
                    = Some (InSearch city (cityKey country state city))) ∧
  (∀ wid, workers p !! wid = Some Finished → cityIndex p = List.length cities).


(** The invariant of a city-level run that started in [w0]: [covered], and
    every mark the run added is the mark of a city it has searched. *)
Definition scheduled (cities : list (option location)) (state country : location)
    (localizedQuery : string) (w0 : world) (p : pool) (w : world) : Prop :=
  covered cities state country p w ∧
  ∃ new, trace w = trace w0 ++ new ∧
    ∀ k, isCityDone (progressData w) k = true →
         isCityDone (progressData w0) k = true ∨
         ∃ city, k = cityKey country state city ∧
                 EFetch (searchQuery localizedQuery (name city) (name state)
                           (name country)) (iso2 country) ∈ new.

(** The events of the search for one leaf under [state]: in state mode the
    state itself, in city mode a city of it that [t0] does not mark. *)
Definition leaf_fetch (E : env) (country state : location) (localizedQuery : string)
    (t0 : tree) (e : event) : Prop :=
  ∃ cityname,
    (if cfg_includeCities E
     then ∃ city, cityname = name city ∧
                  isCityDone t0 (cityKey country state city) = false
     else cityname = "") ∧
    e = EFetch (searchQuery localizedQuery cityname (name state) (name country))
          (iso2 country).

(** [state] is an entry of the list of states the directory gives for
    [country], at some time. *)
Definition listed (E : env) (country state : location) : Prop :=
  ∃ k k' allStates,
    statesByCountry E (iso2 country) k = Ret allStates ∧
    Some state ∈ shuffle E allStates k'.

(** The events a country may add when it starts from the tree [t0]: quiet
    ones, and searches for leaves that [t0] does not mark, under listed
    states that [t0] does not mark. *)
Definition leaf_event (E : env) (country : location) (t0 : tree) (e : event) : Prop :=
  quiet e ∨
  ∃ state localizedQuery,
    listed E country state ∧
    isStateDone t0 (stateKey country state) = false ∧
    leaf_fetch E country state localizedQuery t0 e.

(* ===================================================================== *)
(** ** Scenarios *)
(* ===================================================================== *)

Module Scenario.

Definition MK : location := mkLocation "MK" "North Macedonia".
Definition Skopje : location := mkLocation "85" "Skopje".
Definition Bitola : location := mkLocation "04" "Bitola".
Definition Ohrid : location := mkLocation "58" "Ohrid".

Definition timeout : error := mkError "TimeoutError" "Navigation timeout of 90000 ms exceeded".

Definition cafe_a : place :=
  {| pl_url := "/maps/place/Cafe/data=!1sChIa"; pl_sourceId := "ChIa";
     pl_storeName := "Cafe"; pl_category := "Coffee shop";
     pl_formattedAddress := "Main St 1, Bitola"; pl_phoneNumbers := "+38947111111";
     pl_website := None; pl_ratingText := "4.5 stars"; pl_stars := Some "4.5";
     pl_numberOfReviews := None; pl_priceLevel := ""; pl_openHours := "";
     pl_timestamp := "2025-01-01T00:00:00.000Z" |}.

Definition cafe_b : place :=
  {| pl_url := "/maps/place/Cafe/data=!1sChIb"; pl_sourceId := "ChIb";
     pl_storeName := "Cafe"; pl_category := "Coffee shop";
     pl_formattedAddress := "Lake Rd 9, Ohrid"; pl_phoneNumbers := "+38946222222";
     pl_website := None; pl_ratingText := ""; pl_stars := None;
     pl_numberOfReviews := None; pl_priceLevel := ""; pl_openHours := "";
     pl_timestamp := "2025-01-01T00:00:05.000Z" |}.

(** State mode, two retries, two workers; every browser session for Skopje
    times out, every other one finds [cafe_a]; the directory lists Skopje
    before Bitola and [_.shuffle] leaves the order. *)
Definition E0 : env :=
  {| cfg_includeCities := false; cfg_localize := false; cfg_parallel := 2;
     cfg_minDelay := 10; cfg_maxDelay := 100; cfg_retryCount := 2;
     cfg_exportFormats := ["json"]; allowedCategories := [];
     dirname := [];
     getRandomInt := λ lo _ _, lo;
     launch_fault := λ _, None; newPage_fault := λ _, None;
     page_session := λ q _ _, if includes q "Skopje" then Throw timeout else Ret [cafe_a];
     close_fault := λ _, None; fs_fault := λ _, None;
     statesByCountry := λ _ _, Ret [Some Skopje; Some Bitola];
     citiesByCountryState := λ _ _ _, Ret [Some Ohrid; Some Bitola];
     countrylocalemap := λ _ _, Ret (Some (Some ["mk"]));
     translate := λ q _ _, Ret q;
     shuffle := λ l _, l;
     settles_next := λ _, 0 |}.

(** The same with city-level tasks. *)
Definition E_cities : env :=
  {| cfg_includeCities := true; cfg_localize := false; cfg_parallel := 2;
     cfg_minDelay := 10; cfg_maxDelay := 100; cfg_retryCount := 2;
     cfg_exportFormats := ["json"]; allowedCategories := [];
     dirname := [];
     getRandomInt := λ lo _ _, lo;
     launch_fault := λ _, None; newPage_fault := λ _, None;
     page_session := λ q _ _, if includes q "Skopje" then Throw timeout else Ret [cafe_a];
     close_fault := λ _, None; fs_fault := λ _, None;
     statesByCountry := λ _ _, Ret [Some Skopje; Some Bitola];
     citiesByCountryState := λ _ _ _, Ret [Some Ohrid; Some Bitola];
     countrylocalemap := λ _ _, Ret (Some (Some ["mk"]));
     translate := λ q _ _, Ret q;
     shuffle := λ l _, l;
     settles_next := λ _, 0 |}.

(** [E0] with the directory listing Bitola before Skopje. *)
Definition E0_rev : env :=
  {| cfg_includeCities := false; cfg_localize := false; cfg_parallel := 2;
     cfg_minDelay := 10; cfg_maxDelay := 100; cfg_retryCount := 2;
     cfg_exportFormats := ["json"]; allowedCategories := [];
     dirname := [];
     getRandomInt := λ lo _ _, lo;
     launch_fault := λ _, None; newPage_fault := λ _, None;
     page_session := λ q _ _, if includes q "Skopje" then Throw timeout else Ret [cafe_a];
     close_fault := λ _, None; fs_fault := λ _, None;
     statesByCountry := λ _ _, Ret [Some Bitola; Some Skopje];
     citiesByCountryState := λ _ _ _, Ret [Some Ohrid; Some Bitola];
     countrylocalemap := λ _ _, Ret (Some (Some ["mk"]));
     translate := λ q _ _, Ret q;
     shuffle := λ l _, l;
     settles_next := λ _, 0 |}.

(** [E0] with a directory of one state, Bitola. *)
Definition E_one : env :=
  {| cfg_includeCities := false; cfg_localize := false; cfg_parallel := 2;
     cfg_minDelay := 10; cfg_maxDelay := 100; cfg_retryCount := 2;
     cfg_exportFormats := ["json"]; allowedCategories := [];
     dirname := [];
     getRandomInt := λ lo _ _, lo;
     launch_fault := λ _, None; newPage_fault := λ _, None;
     page_session := λ q _ _, if includes q "Skopje" then Throw timeout else Ret [cafe_a];
     close_fault := λ _, None; fs_fault := λ _, None;
     statesByCountry := λ _ _, Ret [Some Bitola];
     citiesByCountryState := λ _ _ _, Ret [Some Ohrid; Some Bitola];
     countrylocalemap := λ _ _, Ret (Some (Some ["mk"]));
     translate := λ q _ _, Ret q;
     shuffle := λ l _, l;
     settles_next := λ _, 0 |}.

(** [E0] with a disk that is full: the third call into the file system
    fails while it writes. *)
Definition E_full : env :=
  {| cfg_includeCities := false; cfg_localize := false; cfg_parallel := 2;
     cfg_minDelay := 10; cfg_maxDelay := 100; cfg_retryCount := 2;
     cfg_exportFormats := ["json"]; allowedCategories := [];
     dirname := [];
     getRandomInt := λ lo _ _, lo;
     launch_fault := λ _, None; newPage_fault := λ _, None;
     page_session := λ q _ _, if includes q "Skopje" then Throw timeout else Ret [cafe_a];
     close_fault := λ _, None;
     fs_fault := λ k, if k =? 2 then Some (mkError "Error" "ENOSPC: no space left on device")
                      else None;
     statesByCountry := λ _ _, Ret [Some Skopje; Some Bitola];
     citiesByCountryState := λ _ _ _, Ret [Some Ohrid; Some Bitola];
     countrylocalemap := λ _ _, Ret (Some (Some ["mk"]));
     translate := λ q _ _, Ret q;
     shuffle := λ l _, l;
     settles_next := λ _, 0 |}.

(** [E0] with a browser whose first launch fails. *)
Definition E_flaky : env :=
  {| cfg_includeCities := false; cfg_localize := false; cfg_parallel := 2;
     cfg_minDelay := 10; cfg_maxDelay := 100; cfg_retryCount := 2;
     cfg_exportFormats := ["json"]; allowedCategories := [];
     dirname := [];
     getRandomInt := λ lo _ _, lo;
     launch_fault := λ k, if k =? 0 then Some timeout else None;
     newPage_fault := λ _, None;
     page_session := λ q _ _, if includes q "Skopje" then Throw timeout else Ret [cafe_a];
     close_fault := λ _, None; fs_fault := λ _, None;
     statesByCountry := λ _ _, Ret [Some Skopje; Some Bitola];
     citiesByCountryState := λ _ _ _, Ret [Some Ohrid; Some Bitola];
     countrylocalemap := λ _ _, Ret (Some (Some ["mk"]));
     translate := λ q _ _, Ret q;
     shuffle := λ l _, l;
     settles_next := λ _, 0 |}.


(** A tree with Bitola (state) and Ohrid (city of Skopje) marked. *)
Definition partial_tree : tree :=
  markCityComplete (cityKey MK Skopje Ohrid)
    (markStateComplete (stateKey MK Bitola) empty_tree).

(** A tree with the country marked. *)
Definition done_tree : tree := markCountryComplete "MK" empty_tree.

(** No file on disk, nothing in memory. *)
Definition w0 : world := initial_world ∅.

(** In memory, the tree a fresh country starts from. *)
Definition w_fresh : world :=
  {| progressData := empty_tree; progress_files := ∅; json_files := ∅;
     sheet_files := ∅; trace := []; clock := 0 |}.

(** On disk, a progress file for "cafe" in MK that marks the country. *)
Definition w_done : world :=
  initial_world {[ ["output"; "cafe"; "MK"; "progress.json"] := Some done_tree ]}.

(** In memory, [partial_tree]. *)
Definition w_partial : world :=
  {| progressData := partial_tree; progress_files := ∅; json_files := ∅;
     sheet_files := ∅; trace := []; clock := 0 |}.

(** A pool of two workers, the first awaiting the search for Ohrid. *)
Definition pool_searching : pool :=
  {| cityIndex := 1; results := [];
     workers := [InSearch Ohrid (cityKey MK Skopje Ohrid); NotStarted];
     claims := [(0, 0)] |}.

(** Two scraped records of the same name at different addresses. *)
Definition record_a : obj :=
  with_provenance "cafe" "" "Bitola" "North Macedonia" "MK" (business_of_place cafe_a).
Definition record_b : obj :=
  with_provenance "cafe" "" "Ohrid" "North Macedonia" "MK" (business_of_place cafe_b).

(** A batch whose second record has a key the first lacks. *)
Definition mixed_batch : list obj :=
  [ [("name", VStr "Cafe")];
    [("name", VStr "Bar"); ("phone_number", VStr "+38946222222")] ].

End Scenario.

(* ===================================================================== *)
(** ** De-duplication *)
(* ===================================================================== *)

Section Dedup.

Implicit Types (seen : gset string) (l : list obj).

Lemma removeDuplicates_from_app seen l1 l2 :
  removeDuplicates_from seen (l1 ++ l2) =
  removeDuplicates_from seen l1 ++ removeDuplicates_from (key_set l1 ∪ seen) l2.
Proof.
  revert seen. induction l1 as [|b l1 IH]; intros seen; simpl.
  - f_equal. unfold key_set. simpl. by rewrite union_empty_l_L.
  - case_bool_decide as Hb.
    + rewrite IH. do 2 f_equal. unfold key_set. simpl.
      apply set_eq. intros k. rewrite !elem_of_union, elem_of_singleton.
      split; [tauto | intros [[-> |?]|?]; auto].
    + simpl. rewrite IH. do 3 f_equal. unfold key_set. simpl.
      apply set_eq. intros k. rewrite !elem_of_union, elem_of_singleton.
      tauto.
Qed.

Lemma removeDuplicates_from_seen seen l :
  (∀ b, b ∈ l → dedup_key b ∈ seen) → removeDuplicates_from seen l = [].
Proof.
  induction l as [|b l IH]; intros H; simpl; [done|].
  rewrite bool_decide_eq_true_2 by (apply H; left).
  apply IH. intros b' Hb'. apply H. by right.
Qed.

Lemma removeDuplicates_from_sublist seen l :
  sublist (removeDuplicates_from seen l) l.
Proof.
  revert seen. induction l as [|b l IH]; intros seen; simpl; [constructor|].
  case_bool_decide; [apply sublist_cons | apply sublist_skip]; apply IH.
Qed.



Lemma key_set_spec l k : k ∈ key_set l ↔ k ∈ map dedup_key l.
Proof. unfold key_set. by rewrite elem_of_list_to_set. Qed.

End Dedup.


(** Every record the scraper produces has the de-duplication key
    [name-undefined-undefined]: the record has no [address] and no [phone]
    property. *)
Lemma dedup_key_scraped (query cityname statename countryname countrycode : string)
    (p : place) :
  dedup_key (with_provenance query cityname statename countryname countrycode
               (business_of_place p))
  = pl_storeName p +:+ "-undefined-undefined".
Proof. reflexivity. Qed.

(** C3: two scraped records of the same name whose address and phone differ
    are taken for duplicates: the second is dropped, although their triples
    of name, formatted address and phone number differ. *)
Theorem removeDuplicates_ignores_address_and_phone :
  removeDuplicates [Scenario.record_a; Scenario.record_b] = [Scenario.record_a] ∧
  spec_identity_key Scenario.record_a ≠ spec_identity_key Scenario.record_b ∧
  dedup_key Scenario.record_a = "Cafe-undefined-undefined" ∧
  dedup_key Scenario.record_b = "Cafe-undefined-undefined".
Proof. repeat split; try reflexivity. vm_compute. discriminate. Qed.

(* ===================================================================== *)
(** ** The monad *)
(* ===================================================================== *)

Lemma bind_run {A B : Type} (m : M A) (k : A → M B) (w : world) :
  (m ≫= k) w = match m w with
               | (Ret a, w') => k a w'
               | (Throw e, w') => (Throw e, w')
               end.
Proof. reflexivity. Qed.

Lemma try_run {A : Type} (m : M A) (w : world) :
  try m w = (Ret (fst (m w)), snd (m w)).
Proof. unfold try. by destruct (m w). Qed.

(** Unfolds the primitives of the monad in the goal. *)
Ltac run_prims :=
  unfold log, sleep, emit, tick, throw, try, readProgressData, writeProgressData,
    updateProgressData,
    readWorld, store_progress_file, store_json_file, store_sheet_file,
    truncate_progress_file, truncate_json_file,
    mbind, mret, M_bind, M_ret in *.

(** Decides membership in a list that is written out. *)
Ltac explicit_in H :=
  repeat (apply elem_of_cons in H as [H|H];
          [try discriminate; try (by inversion H)|]);
  try (by apply elem_of_nil in H).

(* ===================================================================== *)
(** ** saveProgress *)
(* ===================================================================== *)

(** C6 (as the program has it): [saveProgress] never throws; it creates the
    directory and writes the tree directly onto
    [output/{query}/{country}/progress.json]; it writes to no other path and
    renames nothing.  A failure to create the directory or to open the file
    is logged and leaves the file as it was.  A failure while writing, after
    the file was opened, is logged and leaves the file truncated: what it
    held is lost, and the next [loadProgress] falls back to the empty
    tree. *)
Theorem saveProgress_writes_in_place (E : env) (query countryCode : string)
    (t : tree) (w : world) :
  let target := progressPath E query countryCode in
  let w' := snd (saveProgress E query countryCode t w) in
  fst (saveProgress E query countryCode t w) = Ret () ∧
  target = dirname E ++ ["output"; query; countryCode; "progress.json"] ∧
  ∃ new, trace w' = trace w ++ new ∧
    (∀ src dst, ERename src dst ∉ new) ∧
    (∀ p t', EWriteTree p t' ∈ new → p = target ∧ t' = t) ∧
    (∀ p, p ≠ target → progress_files w' !! p = progress_files w !! p) ∧
    match fs_fault E (clock w), fs_fault E (S (clock w)), fs_fault E (S (S (clock w))) with
    | None, None, None =>
        new = [EEnsureDir (dirname E ++ ["output"; query; countryCode]);
               EWriteTree target t] ∧
        progress_files w' = <[target := Some t]> (progress_files w)
    | None, None, Some e =>
        new = [EEnsureDir (dirname E ++ ["output"; query; countryCode]);
               EWriteTree target t;
               ELog (LSaveProgressFailed e)] ∧
        progress_files w' = <[target := None]> (progress_files w) ∧
        fst (loadProgress E query countryCode w') = Ret empty_tree
    | None, Some e, _ =>
        new = [EEnsureDir (dirname E ++ ["output"; query; countryCode]);
               ELog (LSaveProgressFailed e)] ∧
        progress_files w' = progress_files w
    | Some e, _, _ =>
        new = [ELog (LSaveProgressFailed e)] ∧
        progress_files w' = progress_files w
    end.
Proof.
  intros target w'. subst target w'.
  assert (Hdir : path_dirname (progressPath E query countryCode)
                 = dirname E ++ ["output"; query; countryCode]).
  { unfold path_dirname, progressPath.
    change ["output"; query; countryCode; "progress.json"]
      with (["output"; query; countryCode] ++ ["progress.json"]).
    rewrite app_assoc. apply removelast_last. }
  unfold saveProgress, ensureDir, writeJson_tree, fs_call. rewrite Hdir.
  run_prims. simpl.
  destruct (fs_fault E (clock w)) as [e1|] eqn:H1; simpl;
    [|destruct (fs_fault E (S (clock w))) as [e2|] eqn:H2; simpl;
      [|destruct (fs_fault E (S (S (clock w)))) as [e3|] eqn:H3; simpl]].
  all: split; [done|]; split; [done|]; eexists.
  all: split; [by rewrite <- ?app_assoc|].
  all: split; [intros src dst Hin; explicit_in Hin|].
  all: split; [intros p t' Hin; explicit_in Hin|].
  all: split; [intros p Hp; by rewrite ?lookup_insert_ne|].
  - done.
  - done.
  - split; [done|]. split; [done|].
    unfold loadProgress, fs_call. run_prims. simpl.
    rewrite lookup_insert_eq. simpl.
    by destruct (fs_fault E (S (S (S (clock w))))).
  - split; [done|]. apply insert_insert_eq.
Qed.

(** C6 (as stated) fails: the events of a save are not a write to a
    temporary path followed by a rename; the tree is written onto
    [progress.json] itself.  And a save that fails while it writes (here the
    disk is full) leaves a truncated file: the progress that was on disk is
    lost to the next load. *)
Lemma saveProgress_not_atomic :
  let target := progressPath Scenario.E0 "cafe" "MK" in
  let w' := snd (saveProgress Scenario.E0 "cafe" "MK" Scenario.partial_tree Scenario.w0) in
  let crashed :=
    snd (saveProgress Scenario.E_full "cafe" "MK" Scenario.partial_tree Scenario.w_done) in
  trace w' = [EEnsureDir ["output"; "cafe"; "MK"];
              EWriteTree ["output"; "cafe"; "MK"; "progress.json"] Scenario.partial_tree] ∧
  (¬ ∃ new, trace w' = trace Scenario.w0 ++ new ∧
            atomic_save target Scenario.partial_tree new) ∧
  progress_files Scenario.w_done !! target = Some (Some Scenario.done_tree) ∧
  progress_files crashed !! target = Some None ∧
  fst (loadProgress Scenario.E_full "cafe" "MK" crashed) = Ret empty_tree.
Proof.
  intros target w' crashed.
  assert (Htr : trace w' = [EEnsureDir ["output"; "cafe"; "MK"];
              EWriteTree ["output"; "cafe"; "MK"; "progress.json"] Scenario.partial_tree])
    by reflexivity.
  split; [exact Htr|]. split; [|by vm_compute].
  intros (new & Hnew & _ & Hdirect). rewrite Htr in Hnew. simpl in Hnew. subst new.
  apply (Hdirect Scenario.partial_tree). right. left.
Qed.

(* ===================================================================== *)
(** ** Exports *)
(* ===================================================================== *)

Lemma add_keys_spec (hdr ks : list string) (k : string) :
  k ∈ add_keys hdr ks ↔ k ∈ hdr ∨ k ∈ ks.
Proof.
  revert hdr. induction ks as [|k' ks IH]; intros hdr; simpl.
  - split; [by left | intros [?|Hn]; [done | by apply elem_of_nil in Hn]].
  - rewrite IH. case_bool_decide as Hk'.
    + split.
      * intros [?|?]; [by left | right; by right].
      * intros [?|Hin]; [by left|].
        apply elem_of_cons in Hin as [->|?]; [by left | by right].
    + rewrite elem_of_app, list_elem_of_singleton, elem_of_cons. tauto.
Qed.

Lemma json_to_sheet_header_from (data : list obj) (hdr : list string) (k : string) :
  k ∈ fold_left (λ hdr record, add_keys hdr (keys record)) data hdr ↔
  k ∈ hdr ∨ ∃ record, record ∈ data ∧ k ∈ keys record.
Proof.
  revert hdr. induction data as [|r data IH]; intros hdr; simpl.
  - split; [by left | intros [?|(r & Hr & _)]; [done | by apply elem_of_nil in Hr]].
  - rewrite IH, add_keys_spec. split.
    + intros [[?|?]|(r' & ? & ?)]; [by left | right; exists r | right; exists r'].
      * split; [left | done].
      * split; [by right | done].
    + intros [?|(r' & Hr' & ?)]; [left; by left|].
      apply elem_of_cons in Hr' as [->|?]; [left; by right | right; by exists r'].
Qed.

Lemma rows_for_missing (columns : list string) (data : list obj) :
  missing_is_empty data {| sheet_header := columns; sheet_rows := rows_for columns data |}.
Proof.
  intros i j record row id Hrec Hrow Hid Hmiss. simpl in *.
  unfold rows_for in Hrow. rewrite list_lookup_fmap, Hrec in Hrow.
  simpl in Hrow. injection Hrow as <-.
  by rewrite list_lookup_fmap, Hid; simpl; rewrite Hmiss.
Qed.

(** When every record has the keys of the first, these are the union. *)
Lemma uniform_columns (first : obj) (rest : list obj) (rows : list (list string)) :
  Forall (λ record, keys record = keys first) rest →
  columns_are_union (first :: rest) {| sheet_header := keys first; sheet_rows := rows |}.
Proof.
  intros Hall k. cbn [sheet_header]. split.
  - intros Hk. exists first. split; [left | done].
  - intros (record & Hin & Hk). apply elem_of_cons in Hin as [-> |Hin]; [done|].
    eapply Forall_forall in Hall; [|exact Hin]. by rewrite <- Hall.
Qed.

(** C9 (as the program has it): for a non-empty batch, unless the write
    fails, the CSV file has exactly the keys of the first record as its
    columns (the union, when all records have the same keys, as the records
    of a browser session do) and the worksheet has the union of the keys of
    all records; in both, there is one row per record and a field a record
    lacks is an empty cell. *)
Theorem export_columns (E : env) (first : obj) (rest : list obj) (filePath : path)
    (w : world) :
  let data := first :: rest in
  let csv := exportCSV E data filePath w in
  let xlsx := exportXLSX E data filePath w in
  match fs_fault E (clock w) with
  | Some e => fst csv = Throw e ∧ fst xlsx = Throw e
  | None =>
      (fst csv = Ret () ∧
       ∃ s, sheet_files (snd csv) !! filePath = Some s ∧
            sheet_header s = keys first ∧
            List.length (sheet_rows s) = List.length data ∧
            missing_is_empty data s ∧
            (Forall (λ record, keys record = keys first) rest →
             columns_are_union data s)) ∧
      (fst xlsx = Ret () ∧
       ∃ s, sheet_files (snd xlsx) !! filePath = Some s ∧
            columns_are_union data s ∧
            List.length (sheet_rows s) = List.length data ∧
            missing_is_empty data s)
  end.
Proof.
  intros data csv xlsx. subst csv xlsx.
  unfold exportCSV, exportXLSX, write_sheet, fs_call. subst data.
  run_prims. cbv zeta. cbn [clock].
  destruct (fs_fault E (clock w)) as [e|]; [done|].
  split; (split; [done|]); eexists; cbn [sheet_files snd].
  - split; [apply lookup_insert_eq|]. split; [done|].
    split; [unfold rows_for; cbn [sheet_rows]; by rewrite length_map|].
    split; [apply rows_for_missing | apply uniform_columns].
  - split; [apply lookup_insert_eq|]. split.
    + intros k. unfold json_to_sheet, json_to_sheet_header. cbn [sheet_header].
      rewrite json_to_sheet_header_from. split; [intros [Hn|?]; [|done] | by right].
      by apply elem_of_nil in Hn.
    + split; [unfold json_to_sheet, rows_for; cbn [sheet_rows]; by rewrite length_map|].
      apply rows_for_missing.
Qed.

(** C9 (as stated) fails for CSV: the second record of the batch has a key
    the first lacks, and the written file has no column for it. *)
Lemma exportCSV_columns_not_union :
  let filePath := ["output"; "cafe"; "MK"; "results"; "North_Macedonia.csv"] in
  let w' := snd (exportCSV Scenario.E0 Scenario.mixed_batch filePath Scenario.w0) in
  ∃ s, sheet_files w' !! filePath = Some s ∧
       sheet_header s = ["name"] ∧
       sheet_rows s = [["Cafe"]; ["Bar"]] ∧
       ¬ columns_are_union Scenario.mixed_batch s.
Proof.
  intros filePath w'. eexists. split; [apply lookup_insert_eq|].
  split; [reflexivity|]. split; [reflexivity|].
  intros Hunion. specialize (Hunion "phone_number") as [_ Hin].
  cbn [sheet_header] in Hin.
  assert (Hhas : "phone_number" ∈ keys [("name", VStr "Cafe")]).
  { apply Hin. eexists. split; [right; left|]. right. left. }
  explicit_in Hhas.
Qed.

(* ===================================================================== *)
(** ** searchGoogleMaps *)
(* ===================================================================== *)

(** Case analysis on the answers of the environment that the goal is
    blocked on. *)
Ltac ask_env :=
  repeat match goal with
    | |- context [match launch_fault ?E ?k with _ => _ end] =>
        destruct (launch_fault E k) eqn:?; cbn -[extractBusinessData]
    | |- context [match newPage_fault ?E ?k with _ => _ end] =>
        destruct (newPage_fault E k) eqn:?; cbn -[extractBusinessData]
    | |- context [match page_session ?E ?q ?c ?k with _ => _ end] =>
        destruct (page_session E q c k) eqn:?; cbn -[extractBusinessData]
    | |- context [match close_fault ?E ?k with _ => _ end] =>
        destruct (close_fault E k) eqn:?; cbn -[extractBusinessData]
    | |- context [if bool_decide ?P then _ else _] =>
        destruct (bool_decide P) eqn:?; cbn -[extractBusinessData]
    | |- context [if includes ?a ?b then _ else _] =>
        destruct (includes a b) eqn:?; cbn -[extractBusinessData]
    end.

(** What a call of [searchGoogleMaps] does, whatever the browser does: it
    returns; it is recorded once; it touches neither [progressData] nor any
    file; what it returns is empty or what a page yielded; and it is empty
    whenever the [catch] block ran. *)
Lemma searchGoogleMaps_outcome (E : env) (query country : string) (w : world) :
  let w' := snd (searchGoogleMaps E query country w) in
  ∃ businesses new,
    fst (searchGoogleMaps E query country w) = Ret businesses ∧
    trace w' = trace w ++ EFetch query country :: new ∧
    Forall session_event new ∧
    progressData w' = progressData w ∧
    progress_files w' = progress_files w ∧
    json_files w' = json_files w ∧
    sheet_files w' = sheet_files w ∧
    (businesses = [] ∨
     ∃ k places, page_session E query country k = Ret places ∧
                 businesses = extractBusinessData places) ∧
    (∀ e, ELog (LSearchFailed e) ∈ new → businesses = []).
Proof.
  unfold searchGoogleMaps, withRetry, withRetry_from, launchBrowser, newPage,
    page_steps, report_search_failure, cleanup, closePage, closeBrowser.
  run_prims. cbn -[extractBusinessData].
  ask_env.
  all: eexists; eexists.
  all: split; [reflexivity|].
  all: split; [rewrite <- ?app_assoc; reflexivity|].
  all: split; [repeat constructor|].
  all: do 4 (split; [reflexivity|]).
  all: split; [first [by left | right; eauto]|].
  all: intros err Hin; first [reflexivity | explicit_in Hin].
Qed.

(** Every record [extractBusinessData] returns is built by the object
    literal. *)
Lemma extractBusinessData_from_built (seenIds : gset string) (places : list place) :
  Forall (λ b, ∃ p, b = business_of_place p) (extractBusinessData_from seenIds places).
Proof.
  revert seenIds.
  induction places as [|p places IH]; intros seenIds;
    cbn [extractBusinessData_from]; [constructor|].
  destruct (bool_decide (pl_url p = "")); [apply IH|].
  destruct (bool_decide (pl_sourceId p ∈ seenIds)); [apply IH|].
  destruct (bool_decide (pl_storeName p = "")); [apply IH|].
  cbv zeta.
  destruct (truthy _ && _); [constructor; [by exists p|]|]; apply IH.
Qed.

Lemma category_allowed_scraped (E : env)
    (query cityname statename countryname countrycode : string) (p : place) :
  ∃ keep, category_allowed E
            (with_provenance query cityname statename countryname countrycode
               (business_of_place p)) = Ret keep.
Proof.
  unfold category_allowed. cbn. destruct (negb _); eauto.
Qed.

Lemma keys_scraped (query cityname statename countryname countrycode : string)
    (p : place) :
  keys (with_provenance query cityname statename countryname countrycode
          (business_of_place p)) = scraped_keys.
Proof. reflexivity. Qed.

Lemma filter_result_returns {A : Type} (f : A → result bool) (l : list A) :
  Forall (λ x, ∃ keep, f x = Ret keep) l →
  ∃ l', filter_result f l = Ret l' ∧ sublist l' l.
Proof.
  induction 1 as [|x l [keep Hx] _ (l' & Hl' & Hsub)]; simpl.
  - eexists. split; [done | constructor].
  - rewrite Hx, Hl'. destruct keep; eexists; (split; [done|]).
    + by apply sublist_skip.
    + by apply sublist_cons.
Qed.

(** On the records of a browser session [filterByCategory] does not throw,
    and what it keeps still has the nineteen keys. *)
Lemma filterByCategory_scraped (E : env)
    (query cityname statename countryname countrycode : string) (businesses : list obj) :
  Forall (λ b, ∃ p, b = business_of_place p) businesses →
  ∃ kept,
    filterByCategory E
      (map (with_provenance query cityname statename countryname countrycode) businesses)
    = Ret kept ∧
    Forall (λ b, keys b = scraped_keys) kept ∧
    (businesses = [] → kept = []).
Proof.
  intros Hbuilt.
  assert (Hkeys : Forall (λ b, keys b = scraped_keys)
            (map (with_provenance query cityname statename countryname countrycode)
                 businesses)).
  { apply Forall_fmap. eapply Forall_impl; [exact Hbuilt|].
    intros b [p ->]. apply keys_scraped. }
  unfold filterByCategory. case_bool_decide.
  - eexists. split; [done|]. split; [done|]. by intros ->.
  - destruct (filter_result_returns (category_allowed E)
                (map (with_provenance query cityname statename countryname countrycode)
                     businesses)) as (kept & Hk & Hsub).
    { apply Forall_fmap. eapply Forall_impl; [exact Hbuilt|].
      intros b [p ->]. apply category_allowed_scraped. }
    exists kept. split; [done|]. split.
    + eapply Forall_forall. intros b Hb.
      eapply Forall_forall in Hkeys; [exact Hkeys|].
      eapply elem_of_sublist; eauto.
    + intros ->. simpl in Hsub. by apply sublist_nil_r in Hsub.
Qed.

(** One attempt of the retry wrapper over [searchGoogleMaps]: it returns. *)
Lemma search_attempt_outcome (E : env)
    (query cityname statename countryname countrycode : string) (w : world) :
  let m := search_attempt E (searchGoogleMaps E) query cityname statename countryname
             countrycode in
  ∃ businesses new,
    fst (m w) = Ret businesses ∧
    trace (snd (m w)) =
      trace w ++ EFetch (searchQuery query cityname statename countryname) countrycode
              :: new ∧
    Forall session_event new ∧
    progressData (snd (m w)) = progressData w ∧
    progress_files (snd (m w)) = progress_files w ∧
    json_files (snd (m w)) = json_files w ∧
    sheet_files (snd (m w)) = sheet_files w ∧
    Forall (λ b, keys b = scraped_keys) businesses ∧
    (∀ e, ELog (LSearchFailed e) ∈ new → businesses = []).
Proof.
  intros m. subst m. unfold search_attempt. rewrite bind_run.
  destruct (searchGoogleMaps_outcome E (searchQuery query cityname statename countryname)
              countrycode w)
    as (bs & new & Hret & Htr & Hev & Hpd & Hpf & Hjf & Hsf & Hsrc & Hfail).
  destruct (searchGoogleMaps E _ countrycode w) as [r w1]. simpl in *. subst r.
  destruct (filterByCategory_scraped E query cityname statename countryname countrycode bs)
    as (kept & Hkept & Hkeys & Hnil).
  { destruct Hsrc as [->|(k & places & _ & ->)]; [constructor|].
    apply extractBusinessData_from_built. }
  rewrite Hkept. simpl. exists kept, new. repeat split; try done.
  intros e He. apply Hnil. eauto.
Qed.

(** Over [searchGoogleMaps] the wrapper is its first attempt: the loop is
    left at the first [return]. *)
Lemma searchMapsWithRetry_is_one_attempt (E : env)
    (query cityname statename countryname countrycode : string) (w : world) :
  searchMapsWithRetry E query cityname statename countryname countrycode w
  = search_attempt E (searchGoogleMaps E) query cityname statename countryname
      countrycode w.
Proof.
  unfold searchMapsWithRetry, searchMapsWithRetry_with.
  destruct (search_attempt_outcome E query cityname statename countryname countrycode w)
    as (bs & new & Hret & _).
  destruct (cfg_retryCount E); simpl; rewrite bind_run, try_run, Hret; simpl;
    by destruct (search_attempt _ _ _ _ _ _ _ w) as [r w']; simpl in *; subst r.
Qed.

(** C10: [searchGoogleMaps] never throws; it returns the empty array
    whenever its [catch] block ran, which is also what a session that found
    no business returns; and the retry wrapper around it makes one fetch call
    whatever the retry count, logs no failed attempt and returns. *)
Theorem searchGoogleMaps_never_throws (E : env)
    (query cityname statename countryname countrycode : string) (w : world) :
  (∀ q cc,
     ∃ businesses new,
       fst (searchGoogleMaps E q cc w) = Ret businesses ∧
       trace (snd (searchGoogleMaps E q cc w)) = trace w ++ EFetch q cc :: new ∧
       (∀ e, ELog (LSearchFailed e) ∈ new → businesses = []) ∧
       (businesses = [] ∨
        ∃ k places, page_session E q cc k = Ret places ∧
                    businesses = extractBusinessData places)) ∧
  extractBusinessData [] = [] ∧
  let run := searchMapsWithRetry E query cityname statename countryname countrycode w in
  ∃ businesses new,
    fst run = Ret businesses ∧
    trace (snd run) = trace w ++ new ∧
    fetches new = [(searchQuery query cityname statename countryname, countrycode)] ∧
    (∀ n e, ELog (LAttemptFailed n e) ∉ new) ∧
    (∀ c s k, ELog (LAllRetriesFailed c s k) ∉ new) ∧
    (∀ e, ELog (LSearchFailed e) ∈ new → businesses = []).
Proof.
  split; [|split; [reflexivity|]].
  - intros q cc.
    destruct (searchGoogleMaps_outcome E q cc w)
      as (bs & new & Hret & Htr & _ & _ & _ & _ & _ & Hsrc & Hfail).
    exists bs, new. eauto.
  - intros run. subst run. rewrite searchMapsWithRetry_is_one_attempt.
    destruct (search_attempt_outcome E query cityname statename countryname countrycode w)
      as (bs & new & Hret & Htr & Hev & _ & _ & _ & _ & _ & Hfail).
    exists bs, (EFetch (searchQuery query cityname statename countryname) countrycode :: new).
    split; [done|]. split; [done|].
    assert (Hquiet : ∀ e, e ∈ new → session_event e) by (by apply Forall_forall).
    split; [|split; [|split]].
    + unfold fetches. simpl. f_equal.
      clear -Hev. induction Hev as [|e new He _ IH]; [done|].
      simpl. rewrite IH. by destruct e.
    + intros n e Hin. apply elem_of_cons in Hin as [?|Hin]; [done|].
      by apply Hquiet in Hin.
    + intros c s k Hin. apply elem_of_cons in Hin as [?|Hin]; [done|].
      by apply Hquiet in Hin.
    + intros e Hin. apply elem_of_cons in Hin as [?|Hin]; [done|]. eauto.
Qed.

(* ===================================================================== *)
(** ** The retry wrappers *)
(* ===================================================================== *)

Lemma world_eq (w1 w2 : world) :
  progressData w1 = progressData w2 → progress_files w1 = progress_files w2 →
  json_files w1 = json_files w2 → sheet_files w1 = sheet_files w2 →
  trace w1 = trace w2 → clock w1 = clock w2 → w1 = w2.
Proof. destruct w1, w2; simpl; by intros -> -> -> -> -> ->. Qed.

(** The wrapper returns whatever the wrapped operation does. *)
Lemma searchMapsWithRetry_from_returns (E : env) (fetch : string → string → M (list obj))
    (query cityname statename countryname countrycode : string)
    (remaining attempt : nat) (w : world) :
  ∃ businesses,
    fst (searchMapsWithRetry_from E fetch query cityname statename countryname
           countrycode remaining attempt w) = Ret businesses.
Proof.
  revert attempt w. induction remaining as [|remaining IH]; intros attempt w;
    cbn [searchMapsWithRetry_from]; rewrite bind_run, try_run;
    destruct (fst (search_attempt _ _ _ _ _ _ _ w)); cbn; eauto.
  run_prims. cbn. apply IH.
Qed.

(** Over an operation that always fails, the run of the wrapper in closed
    form. *)
Lemma searchMapsWithRetry_from_failing (E : env) (e : error)
    (query cityname statename countryname countrycode : string)
    (remaining attempt : nat) (w : world) :
  searchMapsWithRetry_from E (failing_fetch e) query cityname statename countryname
    countrycode remaining attempt w
  = (Ret [],
     advance w
       (failing_trace E e (searchQuery query cityname statename countryname) countrycode
          countryname statename cityname remaining attempt (clock w))
       remaining).
Proof.
  revert attempt w. induction remaining as [|remaining IH]; intros attempt w;
    cbn [searchMapsWithRetry_from]; rewrite bind_run, try_run;
    unfold search_attempt, failing_fetch, randomInt; run_prims; cbn.
  - f_equal. apply world_eq; cbn; try done. by rewrite <- !app_assoc.
  - rewrite IH. f_equal. apply world_eq; cbn; try done;
      first [by rewrite <- !app_assoc | lia].
Qed.

Lemma failing_trace_pauses (E : env) (e : error) (sq cc cn s c : string)
    (remaining attempt k : nat) :
  pauses (failing_trace E e sq cc cn s c remaining attempt k)
  = map (getRandomInt E 1000 3000) (seq k remaining).
Proof.
  revert attempt k. induction remaining as [|remaining IH]; intros attempt k; [done|].
  cbn. f_equal. apply IH.
Qed.

Lemma failing_trace_fetches (E : env) (e : error) (sq cc cn s c : string)
    (remaining attempt k : nat) :
  fetches (failing_trace E e sq cc cn s c remaining attempt k)
  = replicate (S remaining) (sq, cc).
Proof.
  revert attempt k. induction remaining as [|remaining IH]; intros attempt k; [done|].
  cbn. f_equal. apply IH.
Qed.

(** [withRetry] over an operation that always fails: it throws the error of
    the last attempt, having paused [delay * attempt] after each earlier
    one. *)
Lemma withRetry_from_failing (E : env) (e : error) (maxRetries : nat) (delay : Z)
    (remaining attempt : nat) (w : world) :
  attempt + remaining = S maxRetries → 1 ≤ remaining →
  ∃ new,
    withRetry_from (failing_operation e) maxRetries delay remaining attempt w
      = (Throw e, advance w new 0) ∧
    pauses new = map (λ a, (delay * Z.of_nat a)%Z) (seq attempt (remaining - 1)) ∧
    fetches new = [].
Proof.
  revert attempt w. induction remaining as [|remaining IH]; intros attempt w Hsum Hpos;
    [lia|].
  cbn [withRetry_from]. rewrite bind_run.
  change (try (failing_operation e) w) with (Ret (Throw (A:=unit) e), w).
  cbn match. case_bool_decide as Hlast;
    [unfold throw
    | unfold log, sleep, emit;
      repeat (rewrite bind_run; cbn -[withRetry_from failing_operation Z.mul Z.of_nat])].
  - exists []. replace remaining with 0 by lia. split; [|done].
    f_equal. apply world_eq; cbn; try done. by rewrite app_nil_r.
  - destruct (IH (S attempt)
                {| progressData := progressData w; progress_files := progress_files w;
                   json_files := json_files w; sheet_files := sheet_files w;
                   trace := (trace w ++ [ELog (LRetry attempt maxRetries e)]) ++
                            [ESleep (delay * Z.of_nat attempt)];
                   clock := clock w |})
      as (new & Hrun & Hp & Hf); [lia.. |].
    rewrite Hrun.
    exists (ELog (LRetry attempt maxRetries e) :: ESleep (delay * Z.of_nat attempt) :: new).
    split; [|split].
    + f_equal. apply world_eq; cbn; try done. by rewrite <- !app_assoc.
    + change (pauses (ELog (LRetry attempt maxRetries e)
                        :: ESleep (delay * Z.of_nat attempt) :: new))
        with ((delay * Z.of_nat attempt)%Z :: pauses new).
      rewrite Hp. destruct remaining as [|remaining]; [lia|].
      cbn [Nat.sub seq map]. by rewrite Nat.sub_0_r.
    + done.
Qed.

(** C4 (as the program has it): [searchMapsWithRetry] never re-raises; over
    an operation that fails on every call it makes [retries + 1] calls,
    pauses [getRandomInt(1000, 3000)] before each retry and returns the
    empty array; with [retries = 0] that is one call and no pause.
    [withRetry] of maps.js is the wrapper that re-raises the last error and
    pauses [delay * attempt]; with [maxRetries = 0] it makes no attempt. *)
Theorem searchMapsWithRetry_swallows (E : env) (fetch : string → string → M (list obj))
    (e : error) (query cityname statename countryname countrycode : string)
    (retries : nat) (w : world) :
  let sq := searchQuery query cityname statename countryname in
  let events := failing_trace E e sq countrycode countryname statename cityname
                  retries 0 (clock w) in
  (∃ businesses,
     fst (searchMapsWithRetry_with E fetch query cityname statename countryname
            countrycode retries w) = Ret businesses) ∧
  searchMapsWithRetry_with E (failing_fetch e) query cityname statename countryname
    countrycode retries w = (Ret [], advance w events retries) ∧
  fetches events = replicate (S retries) (sq, countrycode) ∧
  pauses events = map (getRandomInt E 1000 3000) (seq (clock w) retries) ∧
  failing_trace E e sq countrycode countryname statename cityname 0 0 (clock w)
    = [EFetch sq countrycode; ELog (LAttemptFailed 1 e);
       ELog (LAllRetriesFailed countryname statename cityname)] ∧
  (∀ n delay, ∃ new,
     withRetry (failing_operation e) (S n) delay w = (Throw e, advance w new 0) ∧
     pauses new = map (λ a, (delay * Z.of_nat a)%Z) (seq 1 n)) ∧
  (∀ (operation : M unit) delay, withRetry operation 0 delay w = (Ret None, w)).
Proof.
  intros sq events. subst sq events. repeat split.
  - apply searchMapsWithRetry_from_returns.
  - apply searchMapsWithRetry_from_failing.
  - apply failing_trace_fetches.
  - apply failing_trace_pauses.
  - intros n delay.
    destruct (withRetry_from_failing E e (S n) delay (S n) 1 w) as (new & Hrun & Hp & _);
      [lia.. |].
    exists new. split; [done|]. by rewrite Hp; cbn; rewrite Nat.sub_0_r.
Qed.

(** C4 (as stated) fails: with two retries and an operation that fails on
    every call the wrapper returns the empty array instead of throwing, and
    its two pauses are equal, so they are not [baseDelay * 1] and
    [baseDelay * 2]. *)
Lemma searchMapsWithRetry_does_not_reraise :
  let run := searchMapsWithRetry_with Scenario.E0 (failing_fetch Scenario.timeout)
               "cafe" "" "Skopje" "North Macedonia" "MK" 2 Scenario.w0 in
  fst run = Ret [] ∧
  (∀ e, fst run ≠ Throw e) ∧
  pauses (trace (snd run)) = [1000%Z; 1000%Z] ∧
  ¬ ∃ baseDelay : Z, baseDelay ≠ 0%Z ∧
      pauses (trace (snd run)) = [(baseDelay * 1)%Z; (baseDelay * 2)%Z].
Proof.
  intros run.
  assert (Hret : fst run = Ret []) by reflexivity.
  assert (Hp : pauses (trace (snd run)) = [1000%Z; 1000%Z]) by reflexivity.
  split; [done|]. split; [by rewrite Hret|]. split; [done|].
  intros (d & Hd & Heq). rewrite Hp in Heq. injection Heq as H1 H2. lia.
Qed.

(* ===================================================================== *)
(** ** Framing: what a function leaves alone *)
(* ===================================================================== *)

Lemma bind_ret_inv {A B : Type} (m : M A) (k : A → M B) (w : world) (b : B) :
  fst ((m ≫= k) w) = Ret b →
  ∃ a, fst (m w) = Ret a ∧ fst (k a (snd (m w))) = Ret b.
Proof.
  rewrite bind_run. destruct (m w) as [[a|e] w1]; simpl; [eauto | done].
Qed.

Lemma bind_snd {A B : Type} (m : M A) (k : A → M B) (w : world) :
  snd ((m ≫= k) w) = match fst (m w) with
                     | Ret a => snd (k a (snd (m w)))
                     | Throw _ => snd (m w)
                     end.
Proof. rewrite bind_run. by destruct (m w) as [[a|e] w1]. Qed.

#[global] Instance extends_preorder (φ : event → Prop) : PreOrder (extends φ).
Proof.
  split.
  - intros w. exists []. by rewrite app_nil_r.
  - intros w1 w2 w3 (n1 & H1 & F1) (n2 & H2 & F2). exists (n1 ++ n2).
    split; [by rewrite H2, H1, app_assoc | by apply Forall_app].
Qed.

Lemma extends_mono (φ ψ : event → Prop) (w w' : world) :
  (∀ e, φ e → ψ e) → extends φ w w' → extends ψ w w'.
Proof. intros H (new & ? & ?). exists new. split; [done|]. by eapply Forall_impl. Qed.

#[global] Instance marks_grow_preorder : PreOrder marks_grow.
Proof.
  split.
  - by intros w.
  - intros w1 w2 w3 [H1 H1'] [H2 H2']. split; eauto.
Qed.

#[global] Instance touches_preorder (ψ : event → Prop) : PreOrder (touches ψ).
Proof.
  split.
  - intros w. by repeat split.
  - intros w1 w2 w3 (H1 & H1' & E1) (H2 & H2' & E2).
    split; [congruence|]. split; [congruence|]. by etrans.
Qed.

#[global] Instance steps_preorder (ψ : event → Prop) : PreOrder (steps ψ).
Proof.
  split.
  - intros w. by repeat split.
  - intros w1 w2 w3 (H1 & H1' & E1) (H2 & H2' & E2).
    split; [by etrans|]. split; [congruence | by etrans].
Qed.

Lemma touches_steps (ψ : event → Prop) (w w' : world) :
  touches ψ w w' → steps ψ w w'.
Proof.
  intros (Hpd & Hpf & He). split; [|done]. split; intros k; by rewrite Hpd.
Qed.

Lemma touches_mono (φ ψ : event → Prop) (w w' : world) :
  (∀ e, φ e → ψ e) → touches φ w w' → touches ψ w w'.
Proof. intros H (? & ? & ?). repeat split; eauto using extends_mono. Qed.

Lemma steps_mono (φ ψ : event → Prop) (w w' : world) :
  (∀ e, φ e → ψ e) → steps φ w w' → steps ψ w w'.
Proof.
  intros H (? & ? & ?). split; [done|]. split; [done|]. by eapply extends_mono.
Qed.

Section Respects.

Context (R : relation world) `{!PreOrder R}.

Lemma respects_ret {A : Type} (a : A) : respects R (mret a).
Proof. intros w. reflexivity. Qed.

Lemma respects_throw {A : Type} (e : error) : respects R (throw (A:=A) e).
Proof. intros w. reflexivity. Qed.

Lemma respects_bind {A B : Type} (m : M A) (k : A → M B) :
  respects R m → (∀ a, respects R (k a)) → respects R (m ≫= k).
Proof.
  intros Hm Hk w. rewrite bind_snd. specialize (Hm w).
  destruct (fst (m w)); [|done]. etrans; [exact Hm | apply Hk].
Qed.

Lemma respects_try {A : Type} (m : M A) : respects R m → respects R (try m).
Proof. intros Hm w. rewrite try_run. apply Hm. Qed.

(** Nothing runs after a [throw]. *)
Lemma respects_throw_bind {A B : Type} (e : error) (k : A → M B) :
  respects R (throw e ≫= k).
Proof. intros w. reflexivity. Qed.

Lemma respects_readWorld : respects R readWorld.
Proof. intros w. reflexivity. Qed.

Lemma respects_readProgressData : respects R readProgressData.
Proof. intros w. reflexivity. Qed.

End Respects.

Lemma respects_mono (R R' : relation world) {A : Type} (m : M A) :
  (∀ w w', R w w' → R' w w') → respects R m → respects R' m.
Proof. intros H Hm w. apply H, Hm. Qed.

Section Touches.

Context (ψ : event → Prop) (Hquiet : ∀ e, quiet e → ψ e).

Lemma touches_emit (e : event) : ψ e → respects (touches ψ) (emit e).
Proof.
  intros He w. repeat split. exists [e]. split; [done|]. by constructor.
Qed.

Lemma touches_tick : respects (touches ψ) tick.
Proof. intros w. repeat split. exists []. by rewrite app_nil_r. Qed.

Lemma touches_json (p : path) (rs : list obj) : respects (touches ψ) (store_json_file p rs).
Proof. intros w. repeat split. exists []. by rewrite app_nil_r. Qed.

Lemma touches_truncate_json (p : path) : respects (touches ψ) (truncate_json_file p).
Proof. intros w. repeat split. exists []. by rewrite app_nil_r. Qed.

Lemma touches_sheet (p : path) (s : sheet) : respects (touches ψ) (store_sheet_file p s).
Proof. intros w. repeat split. exists []. by rewrite app_nil_r. Qed.

(** Proves [respects (touches ψ) m] along the structure of [m]. *)
Ltac frame :=
  repeat first
    [ apply respects_ret | apply respects_throw | apply respects_readWorld
    | apply respects_readProgressData
    | apply touches_tick | apply touches_json | apply touches_truncate_json
    | apply touches_sheet
    | apply touches_emit; apply Hquiet; exact I
    | apply respects_try
    | apply respects_bind; [typeclasses eauto| |intros ?]
    | progress cbv zeta
    | match goal with
      | |- respects _ (match ?x with _ => _ end) => destruct x
      | H : _ |- _ => apply H
      end
    | typeclasses eauto ].

Variable E : env.

Lemma touches_fs_call {A : Type} (m : M A) :
  respects (touches ψ) m → respects (touches ψ) (fs_call E m).
Proof. intros Hm. unfold fs_call. frame. Qed.

Lemma touches_ensureDir (p : path) : respects (touches ψ) (ensureDir E p).
Proof. unfold ensureDir. apply touches_fs_call. frame. Qed.

Lemma touches_writeJson_records (p : path) (data : list obj) :
  respects (touches ψ) (writeJson_records E p data).
Proof.
  unfold writeJson_records.
  apply respects_bind; [typeclasses eauto | | intros _]; apply touches_fs_call; frame.
Qed.

Lemma touches_write_sheet (p : path) (s : sheet) :
  respects (touches ψ) (write_sheet E p s).
Proof. unfold write_sheet. apply touches_fs_call. frame. Qed.

Lemma touches_log (m : logmsg) : respects (touches ψ) (log m).
Proof. unfold log. frame. Qed.

Lemma touches_sleep (ms : Z) : respects (touches ψ) (sleep ms).
Proof. unfold sleep. frame. Qed.

Lemma touches_pause : respects (touches ψ) (pause E).
Proof. unfold pause, randomInt. pose proof touches_sleep. frame. Qed.

Lemma touches_updateCumulativeResults (newBusinesses : list obj) (query : string)
    (country : location) :
  respects (touches ψ) (updateCumulativeResults E newBusinesses query country).
Proof.
  unfold updateCumulativeResults.
  pose proof touches_log. pose proof touches_writeJson_records.
  pose proof (touches_fs_call (A:=list obj)). frame.
Qed.

Lemma touches_saveCityResults (businesses : list obj) (query : string)
    (country state city : location) :
  respects (touches ψ) (saveCityResults E businesses query country state city).
Proof.
  unfold saveCityResults.
  pose proof touches_log. pose proof touches_writeJson_records.
  pose proof touches_ensureDir. frame.
Qed.

Lemma touches_saveStateResults (businesses : list obj) (query : string)
    (country state : location) :
  respects (touches ψ) (saveStateResults E businesses query country state).
Proof.
  unfold saveStateResults.
  pose proof touches_log. pose proof touches_writeJson_records.
  pose proof touches_ensureDir. pose proof touches_updateCumulativeResults. frame.
Qed.

(** [searchMapsWithRetry] adds its fetch call and events of the browser
    session, and returns. *)
Lemma touches_searchMapsWithRetry
    (query cityname statename countryname countrycode : string) (w : world) :
  ψ (EFetch (searchQuery query cityname statename countryname) countrycode) →
  ∃ businesses,
    fst (searchMapsWithRetry E query cityname statename countryname countrycode w)
      = Ret businesses ∧
    touches ψ w
      (snd (searchMapsWithRetry E query cityname statename countryname countrycode w)).
Proof.
  intros Hfetch. rewrite searchMapsWithRetry_is_one_attempt.
  destruct (search_attempt_outcome E query cityname statename countryname countrycode w)
    as (bs & new & Hret & Htr & Hev & Hpd & Hpf & _).
  exists bs. split; [done|]. split; [done|]. split; [done|].
  eexists. split; [exact Htr|]. constructor; [done|].
  eapply Forall_impl; [exact Hev|]. intros e He. apply Hquiet. by destruct e.
Qed.

End Touches.

(* ===================================================================== *)
(** ** The worker pool *)
(* ===================================================================== *)

Section PoolFacts.

Variables (E : env) (cities : list (option location)) (state country : location)
          (query localizedQuery : string).

(** The loop head reads consecutive indices, stops within the list, and
    only stops at a city that is not marked. *)
Lemma claim_from_spec (t : tree) (rest : list (option location))
    (idx : nat) (claimed : list nat) :
  ∃ idx' next,
    claim_from country state t rest idx claimed
      = (idx', claimed ++ seq idx (idx' - idx), next) ∧
    idx ≤ idx' ≤ idx + List.length rest ∧
    match next with
    | Some (city, key) =>
        Some city ∈ rest ∧ key = cityKey country state city ∧
        isCityDone t key = false ∧ idx < idx'
    | None => idx' = idx + List.length rest
    end.
Proof.
  revert idx claimed. induction rest as [|[city|] rest IH]; intros idx claimed; simpl.
  - exists idx, None. rewrite Nat.sub_diag, app_nil_r. split; [done|]. lia.
  - destruct (isCityDone t (cityKey country state city)) eqn:Hdone.
    + destruct (IH (S idx) (claimed ++ [idx])) as (idx' & next & Heq & Hle & Hnext).
      exists idx', next. rewrite Heq. split; [|split; [lia|]].
      * f_equal. f_equal. rewrite <- app_assoc. f_equal.
        replace (idx' - idx) with (S (idx' - S idx)) by lia. done.
      * destruct next as [[c k]|]; [|lia].
        destruct Hnext as (? & ? & ? & ?). split; [by right|]. split; [done|].
        split; [done|lia].
    + exists (S idx), (Some (city, cityKey country state city)).
      replace (S idx - idx) with 1 by lia. split; [done|]. split; [lia|].
      split; [left|]. split; [done|]. split; [done|lia].
  - destruct (IH (S idx) (claimed ++ [idx])) as (idx' & next & Heq & Hle & Hnext).
    exists idx', next. rewrite Heq. split; [|split; [lia|]].
    + f_equal. f_equal. rewrite <- app_assoc. f_equal.
      replace (idx' - idx) with (S (idx' - S idx)) by lia. done.
    + destruct next as [[c k]|]; [|lia].
      destruct Hnext as (? & ? & ? & ?). split; [by right|]. split; [done|].
      split; [done|lia].
Qed.

Lemma saveCityResults_returns (businesses : list obj) (city : location) (w : world) :
  fst (saveCityResults E businesses query country state city w) = Ret ().
Proof.
  unfold saveCityResults. rewrite bind_run, try_run.
  match goal with |- context [fst (?m w)] => destruct (fst (m w)) end; reflexivity.
Qed.

Lemma pause_run (w : world) :
  pause E w = (Ret (), advance w [ESleep (getRandomInt E (cfg_minDelay E)
                                             (cfg_maxDelay E) (clock w))] 1).
Proof. reflexivity. Qed.

(** Every resumption of a worker is one of the four transitions, and
    returns. *)
Lemma resume_transition (wid : nat) (p : pool) (w : world) :
  ∃ p' w',
    resume E cities state country query localizedQuery wid p w = (Ret p', w') ∧
    transition cities state country localizedQuery wid p w p' w'.
Proof.
  unfold resume.
  destruct (workers p !! wid) as [[|city key|city businesses| |]|] eqn:Hw.
  - eexists _, _. split; [reflexivity|]. apply T_enter. by left.
  - rewrite bind_run, try_run.
    destruct (touches_searchMapsWithRetry
                (λ e, quiet e ∨
                      e = EFetch (searchQuery localizedQuery (name city) (name state)
                                    (name country)) (iso2 country))
                (λ e He, or_introl He) E localizedQuery (name city) (name state)
                (name country) (iso2 country) w (or_intror eq_refl))
      as (businesses & Hret & Hpd & Hpf & Hext).
    rewrite Hret. cbn match.
    set (w1 := snd (searchMapsWithRetry E localizedQuery (name city) (name state)
                      (name country) (iso2 country) w)) in *.
    destruct (0 <? List.length businesses) eqn:Hlen.
    + eexists _, _. split.
      { unfold pause, randomInt. run_prims. cbn. reflexivity. }
      apply T_searched with (city := city) (key := key); cbn; try done.
      * by rewrite Hpd.
      * etrans; [exact Hext|]. eexists. split; [reflexivity|].
        repeat constructor. 
      * by left.
    + eexists _, _. split.
      { unfold pause, randomInt. run_prims. cbn. reflexivity. }
      apply T_searched with (city := city) (key := key); cbn; try done.
      * by rewrite Hpd.
      * etrans; [exact Hext|]. eexists. split; [by rewrite <- app_assoc|].
        repeat constructor.
      * by right.
  - rewrite bind_run, try_run, saveCityResults_returns. cbn match.
    rewrite bind_run, pause_run. cbn.
    eexists _, _. split; [reflexivity|].
    apply T_saved with (city := city) (businesses := businesses); [done|].
    pose proof (touches_saveCityResults quiet (λ e He, He) E businesses query country
                  state city w) as (Hpd & Hpf & Hext).
    split; [done|]. split; [done|].
    etrans; [exact Hext|]. eexists. split; [reflexivity|]. repeat constructor.
  - eexists _, _. split; [reflexivity|]. apply T_enter. by right.
  - eexists _, _. split; [reflexivity|]. apply T_idle. by left.
  - eexists _, _. split; [reflexivity|]. apply T_idle. by right.
Qed.

(** *** Invariants of a run *)

Section Invariant.

(** A property of the pool and the world that no transition and no
    reading of the clock breaks ... *)
Variable I : pool → world → Prop.
Hypothesis I_tick : ∀ p w, I p w → I p (snd (tick w)).
Hypothesis I_step : ∀ wid p w p' w',
  I p w → transition cities state country localizedQuery wid p w p' w' → I p' w'.

(** ... holds however far the run has come. *)
Lemma start_workers_invariant (wids : list nat) (p : pool) (w : world) :
  I p w →
  ∃ p' w',
    start_workers E cities state country query localizedQuery wids p w = (Ret p', w') ∧
    I p' w'.
Proof.
  revert p w. induction wids as [|wid wids IH]; intros p w HI; simpl.
  - by eexists _, _.
  - rewrite bind_run.
    destruct (resume_transition wid p w) as (p1 & w1 & -> & Ht). eauto.
Qed.

Lemma run_pool_invariant (fuel : nat) (p : pool) (w : world) :
  I p w →
  ∃ p' w',
    run_pool E cities state country query localizedQuery fuel p w = (Ret p', w') ∧
    I p' w'.
Proof.
  revert p w. induction fuel as [|fuel IH]; intros p w HI; simpl.
  - by eexists _, _.
  - destruct (pending p) as [|wid0 others]; [by eexists _, _|].
    rewrite bind_run. unfold tick at 1. cbn beta iota. rewrite bind_run.
    match goal with
    | |- context [resume _ _ _ _ _ _ ?wid p ?w1] =>
        destruct (resume_transition wid p w1) as (p1 & w2 & Hrun & Ht)
    end.
    rewrite Hrun. apply IH. eapply I_step; [|exact Ht]. apply (I_tick p w HI).
Qed.

(** The pool after the workers were started and [fuel] of them resumed. *)
Lemma pool_invariant (fuel : nat) (w : world) :
  I (initial_pool E) w →
  ∃ p' w',
    (start_workers E cities state country query localizedQuery
       (seq 0 (cfg_parallel E)) (initial_pool E)
     ≫= λ p1, run_pool E cities state country query localizedQuery fuel p1) w
    = (Ret p', w') ∧
    I p' w'.
Proof.
  intros HI. rewrite bind_run.
  destruct (start_workers_invariant (seq 0 (cfg_parallel E)) _ w HI)
    as (p1 & w1 & -> & HI1).
  by apply run_pool_invariant.
Qed.

End Invariant.

End PoolFacts.

Section SchedulerInvariant.

Variables (E : env) (cities : list (option location)) (state country : location)
          (query localizedQuery : string).

Lemma in_flight_bound (K : nat) (p : pool) :
  List.length (workers p) = K → in_flight p ≤ K.
Proof. intros <-. unfold in_flight. apply length_filter. Qed.

Lemma loop_head_pool_ok (K wid : nat) (p : pool) (t : tree) :
  pool_ok cities K p → pool_ok cities K (loop_head cities state country wid p t).
Proof.
  intros (Hlen & _ & Hidx & Hclaims & _). unfold loop_head.
  destruct (claim_from_spec state country t (drop (cityIndex p) cities) (cityIndex p) [])
    as (idx' & next & -> & Hle & _).
  rewrite length_drop in Hle.
  assert (Hlen' : List.length
            (<[wid:=match next with
                    | Some (city, key) => InSearch city key
                    | None => Finished
                    end]> (workers p)) = K) by (by rewrite length_insert).
  assert (Hmap : map snd (claims p ++ map (pair wid) (seq (cityIndex p) (idx' - cityIndex p)))
                 = seq 0 idx').
  { rewrite map_app, Hclaims, map_map. cbn [snd]. rewrite map_id.
    replace idx' with (cityIndex p + (idx' - cityIndex p)) at 2 by lia.
    by rewrite seq_app. }
  split; [done|]. split; [|split; [|split]]; cbn [cityIndex claims workers app].
  - by apply in_flight_bound.
  - lia.
  - done.
  - rewrite Hmap. apply NoDup_seq.
Qed.

Lemma set_worker_pool_ok (K wid : nat) (s : wstate) (p : pool) (businesses : list obj) :
  pool_ok cities K p → pool_ok cities K (set_worker wid s (with_results p businesses)).
Proof.
  intros (Hlen & _ & Hidx & Hclaims & Hnd).
  assert (Hlen' : List.length (workers (set_worker wid s (with_results p businesses))) = K)
    by (cbn; by rewrite length_insert).
  split; [done|]. split; [|done]. by apply in_flight_bound.
Qed.

Lemma transition_pool_ok (K wid : nat) (p p' : pool) (w w' : world) :
  pool_ok cities K p →
  transition cities state country localizedQuery wid p w p' w' →
  pool_ok cities K p'.
Proof.
  intros Hok Ht. destruct Ht.
  - done.
  - by apply loop_head_pool_ok.
  - by apply set_worker_pool_ok.
  - destruct Hok as (Hlen & _ & ? & ? & ?).
    assert (Hlen' : List.length (workers (set_worker wid InDelay p)) = K)
      by (cbn; by rewrite length_insert).
    split; [done|]. split; [|done]. by apply in_flight_bound.
Qed.

Lemma initial_pool_ok : pool_ok cities (cfg_parallel E) (initial_pool E).
Proof.
  split; [apply length_replicate|]. split; [|split; [cbn; lia|split; [done|constructor]]].
  apply in_flight_bound, length_replicate.
Qed.

End SchedulerInvariant.

(** C8: in [processCitiesConcurrently], while the workers are being started
    and after any number of resumptions, in whatever order the awaited calls
    settle: the pool has [CONFIG.parallel] workers, so at most that many
    searches are in flight, and the indices read from the task list are
    [0 .. cityIndex - 1], each read once by one worker. *)
Theorem scheduler_invariant (E : env) (cities : list (option location))
    (state country : location) (query localizedQuery : string)
    (started resumptions : nat) (w : world) :
  (∃ p w',
     start_workers E cities state country query localizedQuery (seq 0 started)
       (initial_pool E) w = (Ret p, w') ∧
     pool_ok cities (cfg_parallel E) p) ∧
  (∃ p w',
     (start_workers E cities state country query localizedQuery
        (seq 0 (cfg_parallel E)) (initial_pool E)
      ≫= λ p1, run_pool E cities state country query localizedQuery resumptions p1) w
     = (Ret p, w') ∧
     List.length (workers p) = cfg_parallel E ∧
     in_flight p ≤ cfg_parallel E ∧
     cityIndex p ≤ List.length cities ∧
     map snd (claims p) = seq 0 (cityIndex p) ∧
     NoDup (map snd (claims p))).
Proof.
  split.
  - apply (start_workers_invariant E cities state country query localizedQuery
             (λ p _, pool_ok cities (cfg_parallel E) p)).
    + intros wid p w1 p' w1' Hok Ht. eapply transition_pool_ok; eauto.
    + apply initial_pool_ok.
  - apply (pool_invariant E cities state country query localizedQuery
             (λ p _, pool_ok cities (cfg_parallel E) p)).
    + done.
    + intros wid p w1 p' w1' Hok Ht. eapply transition_pool_ok; eauto.
    + apply initial_pool_ok.
Qed.

(* ===================================================================== *)
(** ** Marks and search strings *)
(* ===================================================================== *)

Lemma marked_mark (sub : option (gmap string bool)) (k k' : string) :
  marked (mark sub k) k' = true ↔ k' = k ∨ marked sub k' = true.
Proof.
  destruct sub as [m|]; simpl.
  - destruct (decide (k' = k)) as [->|Hne].
    + rewrite lookup_insert_eq. tauto.
    + rewrite lookup_insert_ne by done. split; [by right | by intros [?|?]].
  - destruct (decide (k' = k)) as [->|Hne].
    + rewrite lookup_insert_eq. tauto.
    + rewrite lookup_insert_ne, lookup_empty by done.
      split; [done | by intros [?|?]].
Qed.

Lemma markCityComplete_grows (w w' : world) (key : string) :
  progressData w' = markCityComplete key (progressData w) → marks_grow w w'.
Proof.
  intros H. unfold marks_grow. rewrite H. split; intros k Hk; [|done].
  unfold isCityDone. cbn. apply marked_mark. by right.
Qed.

Lemma markStateComplete_grows (w w' : world) (key : string) :
  progressData w' = markStateComplete key (progressData w) → marks_grow w w'.
Proof.
  intros H. unfold marks_grow. rewrite H. split; intros k Hk; [done|].
  unfold isStateDone. cbn. apply marked_mark. by right.
Qed.

Lemma string_length_app (s1 s2 : string) :
  String.length (s1 +:+ s2) = String.length s1 + String.length s2.
Proof. induction s1 as [|c s1 IH]; simpl; [done | by rewrite IH]. Qed.

Lemma string_app_inj_r (s1 s2 t : string) : s1 +:+ t = s2 +:+ t → s1 = s2.
Proof.
  revert s2. induction s1 as [|c s1 IH]; intros [|c' s2] H.
  - done.
  - apply (f_equal String.length) in H.
    change (String c' s2 +:+ t) with (String c' (s2 +:+ t)) in H.
    cbn [String.length String.append] in H. rewrite !string_length_app in H. cbn [String.length] in H. lia.
  - apply (f_equal String.length) in H.
    change (String c s1 +:+ t) with (String c (s1 +:+ t)) in H.
    cbn [String.length String.append] in H. rewrite !string_length_app in H. cbn [String.length] in H. lia.
  - change (String c (s1 +:+ t) = String c' (s2 +:+ t)) in H.
    injection H as -> H. f_equal. by apply IH.
Qed.

(** For a given query, state and country, the search string determines the
    city name (the empty name standing for the state-level task). *)
Lemma searchQuery_inj_city (query c1 c2 statename countryname : string) :
  searchQuery query c1 statename countryname = searchQuery query c2 statename countryname →
  c1 = c2.
Proof.
  unfold searchQuery. intros Heq.
  destruct (decide (c1 = "")) as [-> |H1], (decide (c2 = "")) as [-> |H2]; [done|..].
  - rewrite bool_decide_eq_true_2, bool_decide_eq_false_2 in Heq by done.
    do 2 apply String.app_inj in Heq.
    apply (f_equal String.length) in Heq. rewrite !string_length_app in Heq.
    simpl in Heq. lia.
  - rewrite bool_decide_eq_false_2, bool_decide_eq_true_2 in Heq by done.
    do 2 apply String.app_inj in Heq.
    apply (f_equal String.length) in Heq. rewrite !string_length_app in Heq.
    simpl in Heq. lia.
  - rewrite !bool_decide_eq_false_2 in Heq by done.
    do 2 apply String.app_inj in Heq. by apply string_app_inj_r in Heq.
Qed.

(** Without a city, the search string determines the state name. *)
Lemma searchQuery_inj_state (query s1 s2 countryname : string) :
  searchQuery query "" s1 countryname = searchQuery query "" s2 countryname → s1 = s2.
Proof.
  unfold searchQuery. rewrite bool_decide_eq_true_2 by done. intros Heq.
  do 2 apply String.app_inj in Heq. by apply string_app_inj_r in Heq.
Qed.

(* ===================================================================== *)
(** ** What a city-level run fetches *)
(* ===================================================================== *)

Section CityRun.

Variables (E : env) (cities : list (option location)) (state country : location)
          (query localizedQuery : string) (w0 : world).

Let ψ := city_events cities state country localizedQuery (progressData w0).

Let I (p : pool) (w : world) : Prop :=
  steps ψ w0 w ∧ searches_unmarked cities state country (progressData w0) p.

Lemma city_invariant_tick (p : pool) (w : world) : I p w → I p (snd (tick w)).
Proof. done. Qed.

Lemma elem_of_drop_list {A : Type} (x : A) (n : nat) (l : list A) :
  x ∈ drop n l → x ∈ l.
Proof. rewrite <- (take_drop n l) at 2. rewrite elem_of_app. by right. Qed.

Lemma city_invariant_step (wid : nat) (p : pool) (w : world) (p' : pool) (w' : world) :
  I p w →
  transition cities state country localizedQuery wid p w p' w' →
  I p' w'.
Proof.
  intros [Hsteps Hinv] Ht. destruct Ht as [p w Hw|p w Hw|p w city key bs s' w' Hw Hpd Hpf Hext Hs'
                                          |p w city bs w' Hw Htouch].
  - done.
  - split; [done|]. intros wid' city key. unfold loop_head.
    destruct (claim_from_spec state country (progressData w)
                (drop (cityIndex p) cities) (cityIndex p) [])
      as (idx' & next & -> & _ & Hnext).
    cbn [workers]. destruct (decide (wid = wid')) as [<- |Hne].
    + destruct (decide (wid < List.length (workers p))) as [Hlt|Hge].
      * rewrite list_lookup_insert_eq by done.
        destruct next as [[c k]|]; [|done]. intros [= -> ->].
        destruct Hnext as (Hin & -> & Hdone & _).
        split; [by eapply elem_of_drop_list|]. split; [done|].
        destruct (isCityDone (progressData w0) (cityKey country state city)) eqn:H0;
          [|done].
        destruct Hsteps as ([Hgrow _] & _). apply Hgrow in H0. congruence.
      * rewrite list_insert_ge by lia. apply Hinv.
    + rewrite list_lookup_insert_ne by done. apply Hinv.
  - destruct (Hinv wid city key Hw) as (Hin & -> & Hdone).
    split.
    + etrans; [exact Hsteps|]. split; [by eapply markCityComplete_grows|].
      split; [done|]. eapply extends_mono; [|exact Hext].
      intros e [?| ->]; [by left|]. right. by exists city.
    + intros wid' city' key'. cbn [set_worker with_results workers].
      destruct (decide (wid = wid')) as [<- |Hne].
      * destruct (decide (wid < List.length (workers p))) as [Hlt|Hge].
        -- rewrite list_lookup_insert_eq by done. by destruct Hs' as [-> | ->].
        -- rewrite list_insert_ge by lia. apply Hinv.
      * rewrite list_lookup_insert_ne by done. apply Hinv.
  - split.
    + etrans; [exact Hsteps|]. apply touches_steps.
      eapply touches_mono; [|exact Htouch]. intros e ?. by left.
    + intros wid' city' key'. cbn [set_worker workers].
      destruct (decide (wid = wid')) as [<- |Hne].
      * destruct (decide (wid < List.length (workers p))) as [Hlt|Hge].
        -- by rewrite list_lookup_insert_eq by done.
        -- rewrite list_insert_ge by lia. apply Hinv.
      * rewrite list_lookup_insert_ne by done. apply Hinv.
Qed.

(** A city-level run returns, adds marks only, writes no progress file,
    and fetches only for cities of the list not marked when it started. *)
Lemma processCitiesConcurrently_steps :
  ∃ businesses,
    fst (processCitiesConcurrently E cities state country query localizedQuery w0)
      = Ret businesses ∧
    steps ψ w0
      (snd (processCitiesConcurrently E cities state country query localizedQuery w0)).
Proof.
  unfold processCitiesConcurrently, run_workers.
  destruct (pool_invariant E cities state country query localizedQuery I
              city_invariant_tick city_invariant_step (3 * List.length cities) w0)
    as (p & w' & Hrun & Hsteps & _).
  { split; [reflexivity|]. intros wid city key Hw. cbn in Hw.
    apply lookup_replicate in Hw as [? _]. done. }
  rewrite bind_run, Hrun. cbn. eauto.
Qed.

End CityRun.

(* ===================================================================== *)
(** ** The state loop *)
(* ===================================================================== *)

Section StateLoop.

Variables (E : env) (country : location) (query localizedQuery : string).

Lemma steps_tick (ψ : event → Prop) : respects (steps ψ) tick.
Proof. intros w. apply touches_steps. repeat split. exists []. by rewrite app_nil_r. Qed.

Lemma steps_log (ψ : event → Prop) (m : logmsg) :
  (∀ e, quiet e → ψ e) → respects (steps ψ) (log m).
Proof.
  intros Hq w. apply touches_steps. repeat split. exists [ELog m].
  split; [done|]. constructor; [by apply Hq | constructor].
Qed.

Lemma steps_markStateComplete (ψ : event → Prop) (key : string) :
  respects (steps ψ) (updateProgressData (markStateComplete key)).
Proof.
  intros w. split; [by eapply markStateComplete_grows|]. split; [done|].
  exists []. by rewrite app_nil_r.
Qed.

(** The fetch calls made for one state are for this state, or for cities
    under it when city-level tasks are on. *)
Lemma state_businesses_steps (states : list (option location)) (state : location)
    (t0 : tree) :
  Some state ∈ states →
  isStateDone t0 (stateKey country state) = false →
  respects (steps (state_events E states country localizedQuery t0))
    (state_businesses E state country query localizedQuery).
Proof.
  intros Hin Hdone.
  assert (Hq : ∀ e, quiet e → state_events E states country localizedQuery t0 e)
    by (intros e ?; by left).
  unfold state_businesses. destruct (cfg_includeCities E) eqn:Hmode.
  - apply respects_bind; [typeclasses eauto | apply steps_tick | intros k].
    destruct (citiesByCountryState E _ _ k) as [citiesByState|e];
      [|apply respects_throw; typeclasses eauto].
    apply respects_bind; [typeclasses eauto | apply steps_tick | intros k'].
    cbv zeta. destruct (0 <? _); [|apply respects_ret; typeclasses eauto].
    intros w.
    destruct (processCitiesConcurrently_steps E (shuffle E citiesByState k') state
                country query localizedQuery w) as (bs & _ & Hsteps).
    eapply steps_mono; [|exact Hsteps].
    intros e [?|(city & _ & _ & ->)]; [by left|].
    right. exists state, (name city). split; [done|]. split; [done|].
    split; [congruence | done].
  - intros w. rewrite bind_snd.
    destruct (touches_searchMapsWithRetry
                (state_events E states country localizedQuery t0) Hq E localizedQuery ""
                (name state) (name country) (iso2 country) w) as (bs & Hret & Htouch).
    { right. exists state, "". done. }
    rewrite Hret. etrans; [apply touches_steps, Htouch|].
    apply (respects_bind (steps (state_events E states country localizedQuery t0))).
    + by apply steps_log.
    + intros _. apply respects_ret. typeclasses eauto.
Qed.

Lemma state_events_mono (l1 l2 : list (option location)) (t0 : tree) (e : event) :
  (∀ s, Some s ∈ l1 → Some s ∈ l2) →
  state_events E l1 country localizedQuery t0 e →
  state_events E l2 country localizedQuery t0 e.
Proof.
  intros Hsub [?|(s & c & ? & ? & ? & ?)]; [by left|].
  right. exists s, c. eauto.
Qed.

(** The state loop: marks are only added, no progress file is written, the
    fetch calls are for states not marked at the start; and if the loop
    returns, every state was marked already and nothing was done. *)
Lemma processStates_loop_steps (states : list (option location)) (results : list obj)
    (w : world) :
  let run := processStates_loop E states country query localizedQuery results w in
  steps (state_events E states country localizedQuery (progressData w)) w (snd run) ∧
  (∀ v, fst run = Ret v →
        v = results ∧ snd run = w ∧
        ∀ s, Some s ∈ states → isStateDone (progressData w) (stateKey country s) = true).
Proof.
  induction states as [|[state|] states IH]; intros run; subst run.
  - split; [reflexivity|]. intros v [= <-]. split; [done|]. split; [done|].
    intros s Hs. by apply elem_of_nil in Hs.
  - cbn [processStates_loop]. rewrite bind_run. cbn [readProgressData].
    destruct (isStateDone (progressData w) (stateKey country state)) eqn:Hdone.
    + destruct IH as [Hsteps Hret]. split.
      * eapply steps_mono; [|exact Hsteps].
        intros e. apply state_events_mono. intros s ?. by right.
      * intros v Hv. destruct (Hret v Hv) as (-> & Hw & Hall).
        split; [done|]. split; [done|]. intros s Hs.
        apply elem_of_cons in Hs as [[= ->]|Hs]; [done | by apply Hall].
    + set (ψ := state_events E (Some state :: states) country localizedQuery
                  (progressData w)).
      assert (Hq : ∀ e, quiet e → ψ e) by (intros e ?; by left).
      split.
      * apply (respects_bind (steps ψ)); [by apply steps_log | intros _].
        apply respects_bind; [typeclasses eauto | | intros stateBusinesses].
        { apply state_businesses_steps; [left | done]. }
        cbv zeta.
        apply respects_bind; [typeclasses eauto | apply steps_markStateComplete | intros _].
        apply respects_bind; [typeclasses eauto | | intros _].
        { destruct (0 <? _); [|apply respects_ret; typeclasses eauto].
          eapply respects_mono; [apply touches_steps|].
          by apply touches_saveStateResults. }
        apply respects_throw_bind. typeclasses eauto.
      * intros v Hv. exfalso.
        apply bind_ret_inv in Hv as (? & _ & Hv).
        apply bind_ret_inv in Hv as (? & _ & Hv). cbv zeta in Hv.
        apply bind_ret_inv in Hv as (? & _ & Hv).
        apply bind_ret_inv in Hv as (? & _ & Hv).
        apply bind_ret_inv in Hv as (? & Hv & _). discriminate Hv.
  - cbn [processStates_loop]. destruct IH as [Hsteps Hret]. split.
    + eapply steps_mono; [|exact Hsteps].
      intros e. apply state_events_mono. intros s ?. by right.
    + intros v Hv. destruct (Hret v Hv) as (-> & Hw & Hall).
      split; [done|]. split; [done|]. intros s Hs.
      apply elem_of_cons in Hs as [[=]|Hs]. by apply Hall.
Qed.

End StateLoop.

(* ===================================================================== *)
(** ** Progress across a run *)
(* ===================================================================== *)

Lemma state_events_not_tree_write (E : env) (states : list (option location))
    (country : location) (localizedQuery : string) (t0 : tree) (e : event) :
  state_events E states country localizedQuery t0 e → not_tree_write e.
Proof.
  intros [Hq|(s & c & _ & _ & _ & ->)]; [|by split].
  split; intros ? ? ->; exact Hq.
Qed.

(** The state loop never writes a progress file, and it only returns when
    it had nothing to do. *)
Lemma processStatesConcurrently_never_saves (E : env) (states : list (option location))
    (country : location) (query localizedQuery : string) (w : world) :
  let run := processStatesConcurrently E states country query localizedQuery w in
  progress_files (snd run) = progress_files w ∧
  (∃ new, trace (snd run) = trace w ++ new ∧ Forall not_tree_write new) ∧
  (∀ v, fst run = Ret v →
        v = [] ∧ snd run = w ∧
        ∀ s, Some s ∈ states → isStateDone (progressData w) (stateKey country s) = true).
Proof.
  intros run. subst run. unfold processStatesConcurrently.
  destruct (processStates_loop_steps E country query localizedQuery states [] w)
    as [(_ & Hpf & new & Htr & Hev) Hret].
  split; [done|]. split; [|done].
  exists new. split; [done|]. eapply Forall_impl; [exact Hev|].
  intros e. apply state_events_not_tree_write.
Qed.

(** C2: a country with one state and no progress file.  The state is
    searched, its results are saved and it is marked in memory; then the
    loop throws on the unbound [cityKey], before [saveProgress]:
    [processCountry] reports the failure and no progress.json exists. *)
Theorem progress_not_saved_after_state :
  let run := processCountry Scenario.E_one Scenario.MK "cafe" Scenario.w0 in
  fst run = Ret [] ∧
  trace (snd run) =
    [ ELog (LProcessingState "Bitola" "North Macedonia");
      EFetch "cafe near Bitola North Macedonia" "MK";
      ELaunch; ENewPage; EClosePage; ECloseBrowser; ELog LBrowserClosed;
      ELog (LStateDone "Bitola" "North Macedonia" 1);
      EEnsureDir ["output"; "cafe"; "MK"; "states"];
      EWriteRecords ["output"; "cafe"; "MK"; "states"; "Bitola.json"]
        [Scenario.record_a];
      ELog (LSavedState 1 "Bitola");
      EWriteRecords ["output"; "cafe"; "MK"; "cumulative.json"] [Scenario.record_a];
      ELog (LCumulativeUpdated "North Macedonia" 1);
      ELog (LCountryFailed "North Macedonia" (ReferenceError "cityKey is not defined")) ] ∧
  isStateDone (progressData (snd run)) (stateKey Scenario.MK Scenario.Bitola) = true ∧
  progress_files (snd run) = ∅.
Proof. repeat split; vm_compute; reflexivity. Qed.

(** C1 (as stated) fails.  With Skopje listed first, its fetch fails and
    its key is marked in the in-memory tree all the same; with Bitola listed
    first, its fetch succeeds; in both runs no progress.json is written, so
    the succeeding state's key is not in a persisted tree. *)
Lemma failed_state_marked_nothing_persisted :
  let run := processCountry Scenario.E0 Scenario.MK "cafe" Scenario.w0 in
  let run' := processCountry Scenario.E0_rev Scenario.MK "cafe" Scenario.w0 in
  (ELog (LSearchFailed Scenario.timeout) ∈ trace (snd run) ∧
   isStateDone (progressData (snd run)) (stateKey Scenario.MK Scenario.Skopje) = true ∧
   progress_files (snd run) !! progressPath Scenario.E0 "cafe" "MK" = None) ∧
  (ELog (LStateDone "Bitola" "North Macedonia" 1) ∈ trace (snd run') ∧
   isStateDone (progressData (snd run')) (stateKey Scenario.MK Scenario.Bitola) = true ∧
   progress_files (snd run') !! progressPath Scenario.E0_rev "cafe" "MK" = None).
Proof.
  intros run run'.
  assert (Htr : trace (snd run) !! 4 = Some (ELog (LSearchFailed Scenario.timeout)))
    by (vm_compute; reflexivity).
  assert (Htr' : trace (snd run') !! 7 = Some (ELog (LStateDone "Bitola" "North Macedonia" 1)))
    by (vm_compute; reflexivity).
  split.
  - split; [exact (list_elem_of_lookup_2 _ 4 _ Htr)|]. split; vm_compute; reflexivity.
  - split; [exact (list_elem_of_lookup_2 _ 7 _ Htr')|]. split; vm_compute; reflexivity.
Qed.

Section MarkedWhateverTheOutcome.

Variables (E : env) (country : location) (query localizedQuery : string).

Lemma state_businesses_state_mode (state : location) (w : world) :
  cfg_includeCities E = false →
  ∃ businesses,
    fst (state_businesses E state country query localizedQuery w) = Ret businesses ∧
    progressData (snd (state_businesses E state country query localizedQuery w))
      = progressData w.
Proof.
  intros Hmode. unfold state_businesses. rewrite Hmode, bind_run.
  destruct (touches_searchMapsWithRetry (λ _, True) (λ _ _, I) E localizedQuery ""
              (name state) (name country) (iso2 country) w I)
    as (bs & Hret & Hpd & _).
  destruct (searchMapsWithRetry E localizedQuery "" (name state) (name country)
              (iso2 country) w) as [r w1].
  simpl in Hret, Hpd. subst r. exists bs. by split.
Qed.

(** In state mode, the first unmarked state of the list is marked in memory
    when the loop stops, whatever its search returned. *)
Lemma processStates_marks_first (state : location) (rest : list (option location))
    (w : world) :
  cfg_includeCities E = false →
  isStateDone (progressData w) (stateKey country state) = false →
  progressData (snd (processStatesConcurrently E (Some state :: rest) country query
                       localizedQuery w))
  = markStateComplete (stateKey country state) (progressData w).
Proof.
  intros Hmode Hdone. unfold processStatesConcurrently. cbn [processStates_loop].
  rewrite bind_run. cbn [readProgressData]. rewrite Hdone.
  rewrite bind_snd. cbn [log emit fst snd].
  rewrite bind_snd.
  match goal with |- context [state_businesses _ _ _ _ _ ?w1] =>
    destruct (state_businesses_state_mode state w1 Hmode) as (bs & Hret & Hpd)
  end.
  rewrite Hret. cbv zeta. rewrite bind_snd. cbn [updateProgressData fst snd].
  match goal with |- progressData (snd (?m ?w3)) = _ =>
    assert (Hsame : touches (λ _, True) w3 (snd (m w3)))
  end.
  { apply (respects_bind (touches (λ _, True))).
    - destruct (0 <? _); [|apply respects_ret; typeclasses eauto].
      by apply touches_saveStateResults.
    - intros _. apply respects_throw_bind. typeclasses eauto. }
  destruct Hsame as (-> & _). cbn [progressData]. by rewrite Hpd.
Qed.

End MarkedWhateverTheOutcome.

(** The loop passes over the states that are marked, and over missing
    entries. *)
Lemma processStates_loop_skips (E : env) (country : location)
    (query localizedQuery : string) (pre states : list (option location))
    (results : list obj) (w : world) :
  (∀ s, Some s ∈ pre → isStateDone (progressData w) (stateKey country s) = true) →
  processStates_loop E (pre ++ states) country query localizedQuery results w
  = processStates_loop E states country query localizedQuery results w.
Proof.
  induction pre as [|[s|] pre IH]; intros Hpre; [done| |].
  - cbn [app processStates_loop]. rewrite bind_run. cbn [readProgressData].
    rewrite (Hpre s) by left. apply IH. intros s' Hs'. apply Hpre. by right.
  - cbn [app processStates_loop]. apply IH. intros s' Hs'. apply Hpre. by right.
Qed.

(** C1 (as the program has it): a leaf is marked in the in-memory tree
    whatever its search returned, and a failed search returns the empty
    array like one that found nothing.  In state mode the first state of the
    list that is not marked is marked when the loop stops.  In either mode
    a worker resumed from the search of a city has marked that city. *)
Theorem leaf_marked_whatever_the_fetch (E : env) (country state cstate : location)
    (pre post cities : list (option location)) (query localizedQuery : string)
    (wid : nat) (p : pool) (city : location) (key : string) (w wc : world)
    (Hpre : ∀ s, Some s ∈ pre →
                 isStateDone (progressData w) (stateKey country s) = true)
    (Hstate : isStateDone (progressData w) (stateKey country state) = false)
    (Hworker : workers p !! wid = Some (InSearch city key)) :
  (cfg_includeCities E = false →
   isStateDone
     (progressData (snd (processStatesConcurrently E (pre ++ Some state :: post) country
                           query localizedQuery w)))
     (stateKey country state) = true) ∧
  isCityDone
    (progressData (snd (resume E cities cstate country query localizedQuery wid p wc)))
    key = true.
Proof.
  split.
  - intros Hmode. unfold processStatesConcurrently.
    rewrite processStates_loop_skips by done.
    fold (processStatesConcurrently E (Some state :: post) country query localizedQuery w).
    rewrite processStates_marks_first by done.
    unfold isStateDone. cbn. apply marked_mark. by left.
  - destruct (resume_transition E cities cstate country query localizedQuery wid p wc)
      as (p' & w' & -> & Ht).
    cbn [snd]. inversion Ht; subst; try (by destruct H; congruence); try congruence.
    assert (key0 = key) as -> by congruence.
    match goal with H : progressData w' = _ |- _ => rewrite H end.
    unfold isCityDone. cbn. apply marked_mark. by left.
Qed.

Lemma leaf_marked_whatever_the_fetch_witness :
  (ELog (LSearchFailed Scenario.timeout)
     ∈ trace (snd (processStatesConcurrently Scenario.E0
                     [Some Scenario.Bitola; Some Scenario.Skopje] Scenario.MK "cafe" "cafe"
                     Scenario.w_partial)) ∧
   isStateDone
     (progressData
        (snd (processStatesConcurrently Scenario.E0
                [Some Scenario.Bitola; Some Scenario.Skopje] Scenario.MK "cafe" "cafe"
                Scenario.w_partial)))
     (stateKey Scenario.MK Scenario.Skopje) = true) ∧
  (cfg_includeCities Scenario.E_cities = true ∧
   ELog (LSearchFailed Scenario.timeout)
     ∈ trace (snd (resume Scenario.E_cities [Some Scenario.Ohrid; Some Scenario.Bitola]
                     Scenario.Skopje Scenario.MK "cafe" "cafe" 0 Scenario.pool_searching
                     Scenario.w_fresh)) ∧
   isCityDone
     (progressData
        (snd (resume Scenario.E_cities [Some Scenario.Ohrid; Some Scenario.Bitola]
                Scenario.Skopje Scenario.MK "cafe" "cafe" 0 Scenario.pool_searching
                Scenario.w_fresh)))
     (cityKey Scenario.MK Scenario.Skopje Scenario.Ohrid) = true).
Proof.
  assert (Hpre : ∀ s, Some s ∈ [Some Scenario.Bitola] →
            isStateDone (progressData Scenario.w_partial) (stateKey Scenario.MK s) = true).
  { intros s Hs. apply list_elem_of_singleton in Hs. injection Hs as ->.
    vm_compute. reflexivity. }
  split.
  - split.
    + vm_compute. apply (list_elem_of_lookup_2 _ 4). reflexivity.
    + refine (proj1 (leaf_marked_whatever_the_fetch Scenario.E0 Scenario.MK Scenario.Skopje
               Scenario.Skopje [Some Scenario.Bitola] []
               [Some Scenario.Ohrid; Some Scenario.Bitola] "cafe" "cafe" 0
               Scenario.pool_searching Scenario.Ohrid
               (cityKey Scenario.MK Scenario.Skopje Scenario.Ohrid)
               Scenario.w_partial Scenario.w_fresh Hpre _ _) _);
        vm_compute; reflexivity.
  - split; [reflexivity|]. split.
    + vm_compute. apply (list_elem_of_lookup_2 _ 3). reflexivity.
    + refine (proj2 (leaf_marked_whatever_the_fetch Scenario.E_cities Scenario.MK
               Scenario.Skopje Scenario.Skopje [Some Scenario.Bitola] []
               [Some Scenario.Ohrid; Some Scenario.Bitola] "cafe" "cafe" 0
               Scenario.pool_searching Scenario.Ohrid
               (cityKey Scenario.MK Scenario.Skopje Scenario.Ohrid)
               Scenario.w_partial Scenario.w_fresh Hpre _ _));
        vm_compute; reflexivity.
Defined.

(* ===================================================================== *)
(** ** Resuming *)
(* ===================================================================== *)

Lemma touches_loadProgress (E : env) (query countryCode : string) :
  respects (touches quiet) (loadProgress E query countryCode).
Proof.
  unfold loadProgress.
  apply respects_bind; [typeclasses eauto | | intros [[data|]|e]].
  - apply respects_try. cbv zeta.
    apply respects_bind; [typeclasses eauto | apply respects_readWorld; typeclasses eauto|].
    intros w'. destruct (progress_files w' !! _) as [[data|]|];
      [apply touches_fs_call | apply touches_fs_call |]; try done;
      first [apply respects_ret | apply respects_throw]; typeclasses eauto.
  - apply respects_ret. typeclasses eauto.
  - apply respects_ret. typeclasses eauto.
  - apply respects_bind; [typeclasses eauto | by apply touches_log | intros _].
    apply respects_ret. typeclasses eauto.
Qed.

Lemma quiet_not_fetch (e : event) : quiet e → not_fetch e.
Proof. intros Hq q cc ->. exact Hq. Qed.

(** If the loaded tree marks the country, [processCountry] returns the
    empty array at once: after the events of loading, it only reports the
    skip. *)
Lemma processCountry_short_circuit (E : env) (country : location) (query : string)
    (t : tree) (w : world) :
  fst (loadProgress E query (iso2 country) w) = Ret t →
  isCountryDone t (iso2 country) = true →
  fst (processCountry E country query w) = Ret [] ∧
  ∃ new, trace (snd (processCountry E country query w)) = trace w ++ new ∧
         Forall not_fetch new.
Proof.
  intros Hload Hdone.
  pose proof (touches_loadProgress E query (iso2 country) w) as (_ & _ & new & Htr & Hq).
  unfold processCountry, processCountry_body. rewrite bind_run, try_run, bind_run.
  destruct (loadProgress E query (iso2 country) w) as [r w1]. simpl in Hload, Htr. subst r.
  run_prims. cbn. rewrite Hdone. cbn. split; [done|].
  exists (new ++ [ELog (LCountrySkipped (name country))]).
  split; [by rewrite Htr, app_assoc|].
  apply Forall_app. split.
  - eapply Forall_impl; [exact Hq | apply quiet_not_fetch].
  - by repeat constructor.
Qed.

(** A loop over states that are all marked does nothing. *)
Lemma processStates_loop_all_done (E : env) (country : location)
    (query localizedQuery : string) (states : list (option location))
    (results : list obj) (w : world) :
  (∀ s, Some s ∈ states → isStateDone (progressData w) (stateKey country s) = true) →
  processStates_loop E states country query localizedQuery results w = (Ret results, w).
Proof.
  induction states as [|[state|] states IH]; intros Hall; cbn [processStates_loop].
  - done.
  - rewrite bind_run. cbn [readProgressData]. rewrite Hall by left.
    apply IH. intros s Hs. apply Hall. by right.
  - apply IH. intros s Hs. apply Hall. by right.
Qed.

(* ===================================================================== *)
(** ** The pool settles *)
(* ===================================================================== *)

Section Settles.

Variables (E : env) (cities : list (option location)) (state country : location)
          (query localizedQuery : string).

Lemma pending_from_spec (i wid : nat) (ws : list wstate) :
  wid ∈ pending_from i ws ↔
  i ≤ wid ∧ ∃ s, ws !! (wid - i) = Some s ∧ is_finished s = false.
Proof.
  revert i. induction ws as [|s ws IH]; intros i; simpl.
  - split; [by intros ?%elem_of_nil | by intros (_ & ? & ? & _)].
  - destruct (is_finished s) eqn:Hs.
    + rewrite IH. split.
      * intros (Hle & s' & Hl & Hf). split; [lia|]. exists s'. split; [|done].
        replace (wid - i) with (S (wid - S i)) by lia. done.
      * intros (Hle & s' & Hl & Hf).
        destruct (wid - i) as [|n] eqn:Hn; simpl in Hl; [congruence|].
        split; [lia|]. exists s'. split; [|done].
        by replace (wid - S i) with n by lia.
    + rewrite elem_of_cons, IH. split.
      * intros [->|(Hle & s' & Hl & Hf)].
        -- split; [lia|]. exists s. by rewrite Nat.sub_diag.
        -- split; [lia|]. exists s'. split; [|done].
           replace (wid - i) with (S (wid - S i)) by lia. done.
      * intros (Hle & s' & Hl & Hf).
        destruct (wid - i) as [|n] eqn:Hn; simpl in Hl.
        -- left. lia.
        -- right. split; [lia|]. exists s'. split; [|done].
           by replace (wid - S i) with n by lia.
Qed.

Lemma pending_spec (wid : nat) (p : pool) :
  wid ∈ pending p ↔ ∃ s, workers p !! wid = Some s ∧ is_finished s = false.
Proof.
  unfold pending. rewrite pending_from_spec, Nat.sub_0_r. split.
  - by intros [_ ?].
  - intros ?. split; [lia | done].
Qed.

Lemma weight_insert (ws : list wstate) (wid : nat) (s s' : wstate) :
  ws !! wid = Some s →
  sum_list (map weight (<[wid := s']> ws)) + weight s
  = sum_list (map weight ws) + weight s'.
Proof.
  revert wid. induction ws as [|a ws IH]; intros [|wid] Hl; simpl in *; try done.
  - injection Hl as ->. lia.
  - specialize (IH wid Hl). lia.
Qed.

Lemma loop_head_work (wid : nat) (p : pool) (t : tree) (s : wstate) :
  workers p !! wid = Some s → cityIndex p ≤ List.length cities →
  let p' := loop_head cities state country wid p t in
  work_left cities p' + weight s ≤ work_left cities p ∧
  cityIndex p' ≤ List.length cities ∧
  (∀ wid', workers p' !! wid' = Some NotStarted → workers p !! wid' = Some NotStarted).
Proof.
  intros Hw Hidx p'. subst p'. unfold loop_head, work_left.
  destruct (claim_from_spec state country t (drop (cityIndex p) cities) (cityIndex p) [])
    as (idx' & next & -> & Hle & Hnext).
  rewrite length_drop in Hle. cbn [cityIndex workers].
  pose proof (weight_insert (workers p) wid s
                (match next with
                 | Some (city, key) => InSearch city key
                 | None => Finished
                 end) Hw) as Hsum.
  split; [|split; [lia|]].
  - destruct next as [[c k]|]; cbn [weight] in Hsum.
    + destruct Hnext as (_ & _ & _ & Hlt). lia.
    + lia.
  - intros wid' Hl. destruct (decide (wid = wid')) as [<- |Hne].
    + rewrite list_lookup_insert_eq in Hl by (by eapply lookup_lt_Some).
      by destruct next as [[c k]|].
    + by rewrite list_lookup_insert_ne in Hl.
Qed.

(** A resumption of a pending, started worker uses up work. *)
Lemma transition_work (wid : nat) (p p' : pool) (w w' : world) :
  transition cities state country localizedQuery wid p w p' w' →
  wid ∈ pending p → all_started p → cityIndex p ≤ List.length cities →
  work_left cities p' < work_left cities p ∧ all_started p' ∧
  cityIndex p' ≤ List.length cities.
Proof.
  intros Ht Hpend Hstarted Hidx. apply pending_spec in Hpend as (s & Hs & Hfin).
  destruct Ht as [p w Hw|p w Hw|p w city key bs s' w' Hw Hpd Hpf Hext Hs'
                 |p w city bs w' Hw Htouch].
  - destruct Hw as [Hw|Hw]; rewrite Hw in Hs; [|done]. by injection Hs as <-.
  - destruct Hw as [Hw|Hw]; [by apply Hstarted in Hw|].
    destruct (loop_head_work wid p (progressData w) InDelay Hw Hidx) as (Hwork & ? & Hns).
    cbn [weight] in Hwork. split; [lia|]. split; [|done].
    intros wid' Hl. apply Hns in Hl. by apply Hstarted in Hl.
  - pose proof (weight_insert (workers p) wid _ s' Hw) as Hsum.
    unfold work_left. cbn [set_worker with_results cityIndex workers weight] in *.
    split; [|split; [|done]].
    + destruct Hs' as [-> | ->]; cbn [weight] in Hsum; lia.
    + intros wid' Hl. cbn [set_worker with_results workers] in Hl.
      destruct (decide (wid = wid')) as [<- |Hne].
      * rewrite list_lookup_insert_eq in Hl by (by eapply lookup_lt_Some).
        by destruct Hs' as [-> | ->].
      * rewrite list_lookup_insert_ne in Hl by done. by apply Hstarted in Hl.
  - pose proof (weight_insert (workers p) wid _ InDelay Hw) as Hsum.
    unfold work_left. cbn [set_worker cityIndex workers weight] in *.
    split; [lia|]. split; [|done].
    intros wid' Hl. cbn [set_worker workers] in Hl.
    destruct (decide (wid = wid')) as [<- |Hne].
    + by rewrite list_lookup_insert_eq in Hl by (by eapply lookup_lt_Some).
    + rewrite list_lookup_insert_ne in Hl by done. by apply Hstarted in Hl.
Qed.

Lemma replicate_weight (n : nat) : sum_list (map weight (replicate n NotStarted)) = 0.
Proof. induction n as [|n IH]; [done | exact IH]. Qed.

Lemma no_work_no_pending (p : pool) :
  all_started p → work_left cities p = 0 → pending p = [].
Proof.
  intros Hstarted Hwork. apply elem_of_nil_inv. intros wid Hin.
  apply pending_spec in Hin as (s & Hs & Hfin).
  assert (Hw : weight s ≤ sum_list (map weight (workers p))).
  { clear -Hs. revert wid Hs. induction (workers p) as [|a ws IH]; intros [|wid] Hs;
      simpl in *; try done.
    - injection Hs as ->. lia.
    - specialize (IH wid Hs). lia. }
  unfold work_left in Hwork.
  destruct s; cbn in Hw, Hfin; try lia; try done. by apply Hstarted in Hs.
Qed.

Lemma run_pool_settles_from (fuel : nat) (p : pool) (w : world) :
  all_started p → cityIndex p ≤ List.length cities → work_left cities p ≤ fuel →
  ∃ p' w',
    run_pool E cities state country query localizedQuery fuel p w = (Ret p', w') ∧
    pending p' = [].
Proof.
  revert p w. induction fuel as [|fuel IH]; intros p w Hstarted Hidx Hwork;
    cbn [run_pool].
  - eexists _, _. split; [done|]. apply no_work_no_pending; [done | lia].
  - destruct (pending p) as [|wid0 others] eqn:Hpend; [by eexists _, _|].
    rewrite bind_run. unfold tick at 1. cbn beta iota. rewrite bind_run.
    match goal with
    | |- context [resume _ _ _ _ _ _ ?wid p ?w1] =>
        destruct (resume_transition E cities state country query localizedQuery wid p w1)
          as (p1 & w2 & Hrun & Ht);
        assert (Hin : wid ∈ pending p)
    end.
    { rewrite Hpend. apply list_elem_of_In, nth_In, Nat.mod_upper_bound. simpl. lia. }
    rewrite Hrun.
    destruct (transition_work _ _ _ _ _ Ht Hin Hstarted Hidx) as (Hlt & Hstarted' & Hidx').
    apply IH; [done | done | lia].
Qed.

(** While the workers are started, no work is added. *)
Lemma start_workers_work (n k : nat) (p : pool) (w : world) :
  (∀ i, k ≤ i < k + n → workers p !! i = Some NotStarted) →
  (∀ i, workers p !! i = Some NotStarted → k ≤ i) →
  cityIndex p ≤ List.length cities →
  ∃ p' w',
    start_workers E cities state country query localizedQuery (seq k n) p w
      = (Ret p', w') ∧
    work_left cities p' ≤ work_left cities p ∧
    cityIndex p' ≤ List.length cities ∧
    (∀ i, workers p' !! i = Some NotStarted → k + n ≤ i).
Proof.
  revert k p w. induction n as [|n IH]; intros k p w Hnot Hlow Hidx; simpl.
  - eexists _, _. split; [done|]. split; [done|]. split; [done|].
    intros i Hi. apply Hlow in Hi. lia.
  - rewrite bind_run.
    assert (Hk : workers p !! k = Some NotStarted) by (apply Hnot; lia).
    assert (Hres : resume E cities state country query localizedQuery k p w
                   = (Ret (loop_head cities state country k p (progressData w)), w))
      by (unfold resume; by rewrite Hk).
    rewrite Hres.
    destruct (loop_head_work k p (progressData w) NotStarted Hk Hidx) as (Hwork & Hidx' & Hns).
    cbn [weight] in Hwork.
    assert (Hk' : workers (loop_head cities state country k p (progressData w)) !! k
                  ≠ Some NotStarted).
    { unfold loop_head.
      destruct (claim_from _ _ _ _ _ _) as [[idx' claimed] next]. cbn [workers].
      rewrite list_lookup_insert_eq by (by eapply lookup_lt_Some).
      by destruct next as [[c key]|]. }
    assert (Hothers : ∀ i, i ≠ k →
              workers (loop_head cities state country k p (progressData w)) !! i
              = workers p !! i).
    { intros i Hi. unfold loop_head.
      destruct (claim_from _ _ _ _ _ _) as [[idx' claimed] next]. cbn [workers].
      by rewrite list_lookup_insert_ne. }
    destruct (IH (S k) (loop_head cities state country k p (progressData w)) w)
      as (p' & w' & Hrun & Hwork' & Hidx'' & Hlow'); [| |done|].
    + intros i Hi. rewrite Hothers by lia. apply Hnot. lia.
    + intros i Hi. destruct (decide (i = k)) as [-> |Hne]; [done|].
      rewrite Hothers in Hi by done. apply Hlow in Hi. lia.
    + exists p', w'. split; [done|]. split; [lia|]. split; [done|].
      intros i Hi. apply Hlow' in Hi. lia.
Qed.

(** [Promise.all] settles within the resumptions [run_workers] allows:
    when it returns, every worker has left its loop. *)
Lemma run_pool_settles (w : world) :
  ∃ p w',
    run_workers E cities state country query localizedQuery w = (Ret p, w') ∧
    pending p = [] ∧
    processCitiesConcurrently E cities state country query localizedQuery w
      = (Ret (results p), w').
Proof.
  unfold processCitiesConcurrently, run_workers.
  destruct (start_workers_work (cfg_parallel E) 0 (initial_pool E) w)
    as (p1 & w1 & Hstart & Hwork & Hidx & Hlow).
  - intros i Hi. cbn. apply lookup_replicate_2. lia.
  - intros i _. lia.
  - cbn. lia.
  - destruct (run_pool_settles_from (3 * List.length cities) p1 w1) as (p & w' & Hrun & Hp).
    + intros wid Hwid.
      assert (Hlen : List.length (workers p1) = cfg_parallel E).
      { destruct (start_workers_invariant E cities state country query localizedQuery
                    (λ p _, pool_ok cities (cfg_parallel E) p))
          with (wids := seq 0 (cfg_parallel E)) (p := initial_pool E) (w := w)
          as (p0 & w0' & H0 & Hok).
        - intros wid' p w2 p' w2' Hok Ht. eapply transition_pool_ok; eauto.
        - apply initial_pool_ok.
        - rewrite Hstart in H0. injection H0 as <- <-. apply Hok. }
      pose proof (lookup_lt_Some _ _ _ Hwid). apply Hlow in Hwid. lia.
    + done.
    + etrans; [exact Hwork|]. unfold work_left. cbn.
      rewrite replicate_weight. lia.
    + exists p, w'. rewrite !bind_run, Hstart, Hrun. done.
Qed.

End Settles.

(* ===================================================================== *)
(** ** Loading and saving progress *)
(* ===================================================================== *)

Lemma progressPath_dirname (E : env) (query countryCode : string) :
  path_dirname (progressPath E query countryCode)
  = dirname E ++ ["output"; query; countryCode].
Proof.
  unfold path_dirname, progressPath.
  change ["output"; query; countryCode; "progress.json"]
    with (["output"; query; countryCode] ++ ["progress.json"]).
  rewrite app_assoc. apply removelast_last.
Qed.


(** What [saveProgress] leaves behind, by the outcome of its three
    file-system calls: creating the directory, opening the file, writing
    it. *)
Lemma saveProgress_run (E : env) (query countryCode : string) (t : tree) (w : world) :
  let target := progressPath E query countryCode in
  let dir := EEnsureDir (dirname E ++ ["output"; query; countryCode]) in
  saveProgress E query countryCode t w =
  match fs_fault E (clock w), fs_fault E (S (clock w)), fs_fault E (S (S (clock w))) with
  | None, None, None =>
      (Ret (), {| progressData := progressData w;
                  progress_files := <[target := Some t]> (progress_files w);
                  json_files := json_files w; sheet_files := sheet_files w;
                  trace := trace w ++ [dir; EWriteTree target t];
                  clock := 3 + clock w |})
  | None, None, Some e =>
      (Ret (), {| progressData := progressData w;
                  progress_files := <[target := None]> (progress_files w);
                  json_files := json_files w; sheet_files := sheet_files w;
                  trace := trace w ++ [dir; EWriteTree target t;
                                       ELog (LSaveProgressFailed e)];
                  clock := 3 + clock w |})
  | None, Some e, _ => (Ret (), advance w [dir; ELog (LSaveProgressFailed e)] 2)
  | Some e, _, _ => (Ret (), advance w [ELog (LSaveProgressFailed e)] 1)
  end.
Proof.
  intros target dir. subst target dir.
  unfold saveProgress, ensureDir, writeJson_tree, fs_call.
  rewrite progressPath_dirname. run_prims. simpl.
  destruct (fs_fault E (clock w)) as [e1|]; simpl;
    [|destruct (fs_fault E (S (clock w))) as [e2|]; simpl;
      [|destruct (fs_fault E (S (S (clock w)))) as [e3|]; simpl]].
  all: unfold advance; simpl; rewrite <- ?app_assoc, ?insert_insert_eq; done.
Qed.

(** X1: [loadProgress] never throws and changes neither [progressData] nor
    any file.  Without a progress file it returns the empty tree without
    a word; a file that cannot be read or does not parse gives the empty
    tree too, after one console line; a file that parses gives its
    content. *)
Theorem loadProgress_falls_back (E : env) (query countryCode : string) (w : world) :
  let run := loadProgress E query countryCode w in
  progressData (snd run) = progressData w ∧
  progress_files (snd run) = progress_files w ∧
  json_files (snd run) = json_files w ∧
  sheet_files (snd run) = sheet_files w ∧
  match progress_files w !! progressPath E query countryCode with
  | None => run = (Ret empty_tree, w)
  | Some content =>
      match fs_fault E (clock w), content with
      | None, Some data => fst run = Ret data ∧ trace (snd run) = trace w
      | None, None =>
          ∃ e, fst run = Ret empty_tree ∧ err_name e = "SyntaxError" ∧
               trace (snd run) = trace w ++ [ELog (LLoadProgressFailed countryCode e)]
      | Some e, _ =>
          fst run = Ret empty_tree ∧
          trace (snd run) = trace w ++ [ELog (LLoadProgressFailed countryCode e)]
      end
  end.
Proof.
  intros run. subst run. unfold loadProgress, fs_call. run_prims. simpl.
  destruct (progress_files w !! progressPath E query countryCode) as [[data|]|];
    simpl; [| |by destruct w].
  - destruct (fs_fault E (clock w)); simpl; by repeat split.
  - destruct (fs_fault E (clock w)); simpl; repeat split; try done.
    eexists. split; [done|]. split; [|reflexivity]. reflexivity.
Qed.





(* ===================================================================== *)
(** ** The category filter and the extraction of records *)
(* ===================================================================== *)

Lemma filter_result_spec {A : Type} (f : A → result bool) (l : list A) :
  match filter_result f l with
  | Ret l' => sublist l' l ∧ ∀ x, x ∈ l' ↔ x ∈ l ∧ f x = Ret true
  | Throw e => ∃ x, x ∈ l ∧ f x = Throw e
  end.
Proof.
  induction l as [|a l IH]; simpl.
  - split; [constructor|]. intros x. split; [by intros ?%elem_of_nil|].
    by intros [?%elem_of_nil _].
  - destruct (f a) as [keep|e] eqn:Ha; [|exists a; split; [left|done]].
    destruct (filter_result f l) as [l'|e].
    + destruct IH as [Hsub Hin]. destruct keep.
      * split; [by apply sublist_skip|]. intros x. rewrite !elem_of_cons, Hin.
        split; [intros [-> |[? ?]]; auto|intros [[-> |?] ?]; auto].
      * split; [by apply sublist_cons|]. intros x. rewrite elem_of_cons, Hin.
        split; [intros [? ?]; auto|intros [[-> |?] ?]; [congruence|auto]].
    + destruct IH as (x & Hx & Hfx). exists x. split; [by right|done].
Qed.



Lemma extractBusinessData_from_spec (seenIds : gset string) (places : list place) :
  let out := extractBusinessData_from seenIds places in
  NoDup (map (oget "source_id") out) ∧
  List.length out ≤ List.length places ∧
  Forall (λ b, ∃ p, p ∈ places ∧ b = business_of_place p ∧ usable p ∧
                    pl_sourceId p ∉ seenIds) out.
Proof.
  revert seenIds. induction places as [|p places IH]; intros seenIds; simpl.
  - split; [constructor|]. split; [lia|constructor].
  - assert (Hweak : ∀ seen' : gset string, seenIds ⊆ seen' →
      let out := extractBusinessData_from seen' places in
      NoDup (map (oget "source_id") out) ∧
      List.length out ≤ S (List.length places) ∧
      Forall (λ b, ∃ p0, p0 ∈ p :: places ∧ b = business_of_place p0 ∧ usable p0 ∧
                         pl_sourceId p0 ∉ seenIds) out).
    { intros seen' Hsub. destruct (IH seen') as (Hnd & Hlen & Hall).
      split; [done|]. split; [lia|].
      eapply Forall_impl; [exact Hall|]. intros b (p0 & Hp0 & -> & Hu & Hid).
      exists p0. split; [by right|]. split; [done|]. split; [done|].
      intros Hin. apply Hid. by apply Hsub. }
    case_bool_decide as Hurl; [by apply Hweak|].
    case_bool_decide as Hseen; [by apply Hweak|].
    assert (Hsub : seenIds ⊆ {[pl_sourceId p]} ∪ seenIds).
    { intros x Hx. apply elem_of_union. by right. }
    case_bool_decide as Hname; [by apply Hweak|].
    match goal with
    | |- context [if ?c then _ :: _ else _] => destruct c eqn:Hok
    end; [|by apply Hweak].
    destruct (IH ({[pl_sourceId p]} ∪ seenIds)) as (Hnd & Hlen & Hall).
    destruct (Hweak _ Hsub) as (_ & _ & Hall').
    simpl. split; [|split; [lia|]].
    + constructor; [|done].
      intros (b & Hb & Hin)%list_elem_of_fmap.
      rewrite Forall_forall in Hall. apply Hall in Hin as (p0 & _ & -> & _ & Hid).
      apply Hid, elem_of_union. left. apply elem_of_singleton.
      simpl in Hb. congruence.
    + constructor; [|done]. exists p. split; [left|]. split; [done|].
      split; [|done]. split; [done|]. split; [done|].
      apply andb_true_iff in Hok as [_ Hor]. apply orb_true_iff in Hor as [H|H];
        apply negb_true_iff, bool_decide_eq_false in H; auto.
Qed.

(** X5: the records [extractBusinessData] returns.  Their [source_id]s are
    pairwise distinct; there are at most as many as place links; each is
    built from a place link that has a URL, a name, and an address or a
    phone number; each has the same thirteen fields, a non-empty name, a
    category that is never empty ([Unknown] stands for a missing one) and a
    [source_url] that starts with [http]. *)
Theorem extractBusinessData_records (places : list place) :
  let out := extractBusinessData places in
  NoDup (map (oget "source_id") out) ∧
  List.length out ≤ List.length places ∧
  Forall (λ b, ∃ p, p ∈ places ∧ b = business_of_place p ∧ usable p) out ∧
  Forall (λ b,
    keys b = [ "source_id"; "name"; "category"; "formatted_address"; "phone_number";
               "source_url"; "website_url"; "rating_text"; "stars";
               "number_of_reviews"; "price_level"; "open_hours";
               "extraction_timestamp" ] ∧
    truthy (oget "name" b) = true ∧
    (truthy (oget "formatted_address" b) = true ∨
     truthy (oget "phone_number" b) = true) ∧
    truthy (oget "category" b) = true ∧
    ∃ url, oget "source_url" b = Some (VStr url) ∧ startsWith url "http" = true) out.
Proof.
  intros out. subst out. unfold extractBusinessData.
  destruct (extractBusinessData_from_spec ∅ places) as (Hnd & Hlen & Hall).
  split; [done|]. split; [done|]. split.
  - eapply Forall_impl; [exact Hall|]. intros b (p & Hp & -> & Hu & _). eauto.
  - eapply Forall_impl; [exact Hall|].
    intros b (p & _ & -> & (Hurl & Hname & Hcontact) & _).
    split; [done|]. split; [|split; [|split]].
    + simpl. by rewrite bool_decide_eq_false_2.
    + simpl. destruct Hcontact as [H|H]; [left|right]; by rewrite bool_decide_eq_false_2.
    + simpl. rewrite bool_decide_eq_false_2; [done|]. by case_bool_decide.
    + simpl. destruct (startsWith (pl_url p) "http") eqn:Hp; [by eexists|].
      eexists. split; [done|]. reflexivity.
Qed.

(* ===================================================================== *)
(** ** The browser session *)
(* ===================================================================== *)

Lemma launchBrowser_run (E : env) (w : world) :
  launchBrowser E w = match launch_fault E (clock w) with
                      | None => (Ret (), advance w [ELaunch] 1)
                      | Some e => (Throw e, advance w [] 1)
                      end.
Proof.
  unfold launchBrowser. run_prims. cbn. destruct (launch_fault E (clock w)); cbn;
    f_equal; apply world_eq; cbn; try done. by rewrite app_nil_r.
Qed.

Lemma withRetry_from_launch (E : env) (maxRetries : nat) (delay : Z) (j : nat) :
  ∀ (remaining attempt : nat) (w : world),
    attempt + remaining = S maxRetries → j < remaining →
    (∀ i, i < j → launch_fault E (i + clock w) ≠ None) →
    launch_fault E (j + clock w) = None →
    ∃ new,
      withRetry_from (launchBrowser E) maxRetries delay remaining attempt w
        = (Ret (Some ()), advance w (new ++ [ELaunch]) (S j)) ∧
      pauses new = map (λ a, (delay * Z.of_nat a)%Z) (seq attempt j) ∧
      retry_lines new = j ∧ launches new = 0.
Proof.
  induction j as [|j IH]; intros remaining attempt w Hsum Hlt Hfail Hok.
  - destruct remaining as [|remaining]; [lia|]. exists [].
    cbn [withRetry_from]. rewrite bind_run, try_run, launchBrowser_run.
    simpl in Hok. rewrite Hok. by cbn.
  - destruct remaining as [|remaining]; [lia|].
    cbn [withRetry_from]. rewrite bind_run, try_run, launchBrowser_run.
    destruct (launch_fault E (clock w)) as [e|] eqn:He;
      [|by destruct (Hfail 0); [lia|]].
    cbn [fst snd]. rewrite bool_decide_eq_false_2 by lia.
    unfold log, sleep, emit.
    repeat (rewrite bind_run; cbn -[withRetry_from launchBrowser Z.mul Z.of_nat]).
    match goal with |- context [withRetry_from _ _ _ _ _ ?w1] =>
      destruct (IH remaining (S attempt) w1) as (new & Hrun & Hp & Hr & Hl) end;
      [lia | lia | | | ].
    + intros i Hi. cbn [clock]. replace (i + S (clock w)) with (S i + clock w) by lia.
      apply Hfail. lia.
    + cbn [clock]. by replace (j + S (clock w)) with (S j + clock w) by lia.
    + rewrite Hrun.
      exists (ELog (LRetry attempt maxRetries e) :: ESleep (delay * Z.of_nat attempt) :: new).
      split; [|split; [|split]].
      * f_equal. apply world_eq; cbn; try done; [|lia].
        by rewrite app_nil_r, <- !app_assoc.
      * change (pauses (ELog (LRetry attempt maxRetries e)
                          :: ESleep (delay * Z.of_nat attempt) :: new))
          with ((delay * Z.of_nat attempt)%Z :: pauses new).
        by rewrite Hp.
      * change (retry_lines (ELog (LRetry attempt maxRetries e)
                          :: ESleep (delay * Z.of_nat attempt) :: new))
          with (S (retry_lines new)). by rewrite Hr.
      * done.
Qed.

(** X6: [withRetry] returns the first success.  When launching the browser
    fails [j] times and then succeeds, with [j] below [maxRetries], the
    wrapper returns the browser after [j + 1] attempts, having reported [j]
    retries and paused [delay * 1], ..., [delay * j] between them. *)
Theorem withRetry_returns_first_success (E : env) (maxRetries : nat) (delay : Z)
    (j : nat) (w : world)
    (Hj : j < maxRetries)
    (Hfail : ∀ i, i < j → launch_fault E (i + clock w) ≠ None)
    (Hok : launch_fault E (j + clock w) = None) :
  ∃ new,
    withRetry (launchBrowser E) maxRetries delay w
      = (Ret (Some ()), advance w (new ++ [ELaunch]) (S j)) ∧
    pauses new = map (λ a, (delay * Z.of_nat a)%Z) (seq 1 j) ∧
    retry_lines new = j ∧ launches new = 0.
Proof. apply withRetry_from_launch; [lia | done..]. Qed.

Lemma withRetry_returns_first_success_witness :
  ∃ new,
    withRetry (launchBrowser Scenario.E_flaky) 3 1000 Scenario.w0
      = (Ret (Some ()), advance Scenario.w0 (new ++ [ELaunch]) 2) ∧
    pauses new = map (λ a, (1000 * Z.of_nat a)%Z) (seq 1 1) ∧
    retry_lines new = 1 ∧ launches new = 0.
Proof.
  apply (withRetry_returns_first_success Scenario.E_flaky 3 1000 1 Scenario.w0).
  - lia.
  - intros i Hi. replace i with 0 by lia. vm_compute. discriminate.
  - reflexivity.
Defined.



(* ===================================================================== *)
(** ** Merging batches *)
(* ===================================================================== *)

Section Merge.

Implicit Types (seen : gset string) (l : list obj).

Lemma removeDuplicates_from_key_set seen l :
  key_set (removeDuplicates_from seen l) ∪ seen = key_set l ∪ seen.
Proof.
  revert seen. induction l as [|b l IH]; intros seen; simpl; [done|].
  case_bool_decide as Hb.
  - rewrite IH. unfold key_set. simpl. apply set_eq. intros k.
    rewrite !elem_of_union, elem_of_singleton. split; [tauto|].
    intros [[-> |?]|?]; auto.
  - apply set_eq. intros k.
    assert (IHk : k ∈ key_set (removeDuplicates_from ({[dedup_key b]} ∪ seen) l)
                        ∪ ({[dedup_key b]} ∪ seen)
                  ↔ k ∈ key_set l ∪ ({[dedup_key b]} ∪ seen)) by by rewrite IH.
    unfold key_set in *. simpl.
    rewrite !elem_of_union, elem_of_singleton in IHk.
    rewrite !elem_of_union, elem_of_singleton. tauto.
Qed.

Lemma removeDuplicates_from_twice seen seen' l :
  removeDuplicates_from seen (removeDuplicates_from seen' l)
  = removeDuplicates_from (seen ∪ seen') l.
Proof.
  revert seen seen'. induction l as [|b l IH]; intros seen seen'; simpl; [done|].
  destruct (decide (dedup_key b ∈ seen')) as [Hs'|Hs'].
  - rewrite (bool_decide_eq_true_2 _ Hs'). rewrite IH.
    rewrite bool_decide_eq_true_2; [done|]. apply elem_of_union. by right.
  - rewrite (bool_decide_eq_false_2 _ Hs'). simpl.
    destruct (decide (dedup_key b ∈ seen)) as [Hs|Hs].
    + rewrite (bool_decide_eq_true_2 _ Hs). rewrite IH.
      rewrite bool_decide_eq_true_2 by (apply elem_of_union; by left).
      f_equal. apply set_eq. intros k. rewrite !elem_of_union, elem_of_singleton.
      split; [intros [?|[-> |?]]; auto | tauto].
    + rewrite (bool_decide_eq_false_2 _ Hs). rewrite IH.
      rewrite bool_decide_eq_false_2
        by (intros [?|?]%elem_of_union; [by apply Hs | by apply Hs']).
      do 2 f_equal. apply set_eq. intros k. rewrite !elem_of_union, !elem_of_singleton.
      tauto.
Qed.

Lemma removeDuplicates_merge_left l1 l2 :
  removeDuplicates (removeDuplicates l1 ++ l2) = removeDuplicates (l1 ++ l2).
Proof.
  pose proof (removeDuplicates_from_key_set ∅ l1) as Hkeys.
  unfold removeDuplicates. rewrite !removeDuplicates_from_app.
  rewrite removeDuplicates_from_twice, union_empty_l_L. by rewrite Hkeys.
Qed.

End Merge.

(** X8: de-duplication composes.  De-duplicating again changes nothing;
    merging a batch into an already de-duplicated list, or a de-duplicated
    batch into a list, gives what de-duplicating the concatenation gives;
    and de-duplication loses no key. *)
Theorem removeDuplicates_merges (a b : list obj) :
  removeDuplicates (removeDuplicates a) = removeDuplicates a ∧
  removeDuplicates (removeDuplicates a ++ b) = removeDuplicates (a ++ b) ∧
  removeDuplicates (a ++ removeDuplicates b) = removeDuplicates (a ++ b) ∧
  (∀ k, k ∈ map dedup_key (removeDuplicates a) ↔ k ∈ map dedup_key a).
Proof.
  assert (Hidem : ∀ l, removeDuplicates (removeDuplicates l) = removeDuplicates l).
  { intros l. unfold removeDuplicates. rewrite removeDuplicates_from_twice.
    by rewrite union_empty_l_L. }
  pose proof (removeDuplicates_from_key_set ∅ a) as Hkeys.
  unfold removeDuplicates in *. split; [apply Hidem|]. split; [|split].
  - apply removeDuplicates_merge_left.
  - rewrite !removeDuplicates_from_app, removeDuplicates_from_twice.
    by rewrite union_empty_r_L.
  - intros k. rewrite <- !key_set_spec. rewrite !union_empty_r_L in Hkeys.
    by rewrite Hkeys.
Qed.

(* ===================================================================== *)
(** ** The cumulative file *)
(* ===================================================================== *)

(** X9: [updateCumulativeResults] never throws and touches no other file
    than [cumulative.json].  Either it reports the update, and the file
    holds the de-duplicated concatenation of its former content and the new
    batch; or it reports a failure, and the file is as it was or, when the
    write failed after the file was opened, truncated.  A file that does
    not parse is never repaired: every later update fails on reading it.
    Merging the same batch a second time changes nothing. *)
Theorem updateCumulativeResults_merges (E : env) (newBusinesses : list obj)
    (query : string) (country : location) (w : world) :
  let filePath := cumulativePath E query country in
  let existing := match json_files w !! filePath with
                  | Some (Some content) => content
                  | _ => []
                  end in
  let combined := removeDuplicates (existing ++ newBusinesses) in
  let run := updateCumulativeResults E newBusinesses query country w in
  fst run = Ret () ∧
  progressData (snd run) = progressData w ∧
  progress_files (snd run) = progress_files w ∧
  sheet_files (snd run) = sheet_files w ∧
  (∀ p, p ≠ filePath → json_files (snd run) !! p = json_files w !! p) ∧
  ((json_files (snd run) = <[filePath := Some combined]> (json_files w) ∧
    ∃ pre, trace (snd run) = trace w ++ pre ++
             [ELog (LCumulativeUpdated (name country) (List.length combined))])
   ∨
   ((json_files (snd run) = json_files w ∨
     json_files (snd run) = <[filePath := None]> (json_files w)) ∧
    ∃ pre e, trace (snd run) = trace w ++ pre ++
               [ELog (LCumulativeFailed (name country) e)])) ∧
  (json_files w !! filePath = Some None →
   json_files (snd run) = json_files w ∧
   ∃ e, trace (snd run) = trace w ++ [ELog (LCumulativeFailed (name country) e)]) ∧
  removeDuplicates (combined ++ newBusinesses) = combined ∧
  sublist combined (existing ++ newBusinesses).
Proof.
  intros filePath existing combined run.
  assert (Hidem : removeDuplicates (combined ++ newBusinesses) = combined).
  { unfold combined. rewrite removeDuplicates_merge_left.
    unfold removeDuplicates.
    rewrite (removeDuplicates_from_app _ (existing ++ newBusinesses) newBusinesses).
    rewrite (removeDuplicates_from_seen _ newBusinesses); [by rewrite app_nil_r|].
    intros b Hb. apply elem_of_union_l, key_set_spec, list_elem_of_fmap.
    exists b. split; [done|]. apply elem_of_app. by right. }
  assert (Hsub : sublist combined (existing ++ newBusinesses))
    by apply removeDuplicates_from_sublist.
  subst run combined existing.
  unfold updateCumulativeResults, writeJson_records, fs_call. fold (cumulativePath E query country).
  fold filePath. run_prims. cbn -[removeDuplicates] in *. unfold path in *.
  match goal with |- context [@lookup ?K ?A ?M ?I filePath (json_files w)] =>
    destruct (@lookup K A M I filePath (json_files w)) as [[content|]|] eqn:Hfile end;
    cbn -[removeDuplicates].
  - destruct (fs_fault E (clock w)) as [e1|]; cbn -[removeDuplicates];
      [|destruct (fs_fault E (S (clock w))) as [e2|]; cbn -[removeDuplicates];
        [|destruct (fs_fault E (S (S (clock w)))) as [e3|]; cbn -[removeDuplicates]]].
    all: split; [done|]; split; [done|]; split; [done|]; split; [done|].
    all: split; [intros p Hp; by rewrite ?lookup_insert_ne|].
    all: split; [|split; [done|by split]].
    + right. split; [by left|]. by exists [], e1.
    + right. split; [by left|]. by exists [], e2.
    + right. split; [by right|]. eexists [_], e3. by rewrite <- app_assoc.
    + left. split; [apply insert_insert_eq|]. eexists [_]. by rewrite <- !app_assoc.
  - destruct (fs_fault E (clock w)) as [e1|]; cbn -[removeDuplicates].
    all: split; [done|]; split; [done|]; split; [done|]; split; [done|].
    all: split; [intros p Hp; by rewrite ?lookup_insert_ne|].
    all: split; [|split; [intros _; split; [done|by eexists]|by split]].
    + right. split; [by left|]. by eexists [], _.
    + right. split; [by left|]. by eexists [], _.
  - destruct (fs_fault E (clock w)) as [e1|]; cbn -[removeDuplicates];
      [|destruct (fs_fault E (S (clock w))) as [e2|]; cbn -[removeDuplicates]].
    all: split; [done|]; split; [done|]; split; [done|]; split; [done|].
    all: split; [intros p Hp; by rewrite ?lookup_insert_ne|].
    all: split; [|split; [done|by split]].
    + right. split; [by left|]. by exists [], e1.
    + right. split; [by right|]. eexists [_], e2. by rewrite <- app_assoc.
    + left. split; [apply insert_insert_eq|]. eexists [_]. by rewrite <- !app_assoc.
Qed.

Lemma export_event_mono (businesses : list obj) (outputDir : path) (countryName : string)
    (l1 l2 : list string) (e : event) :
  (∀ f, f ∈ l1 → f ∈ l2) →
  export_event businesses outputDir countryName l1 e →
  export_event businesses outputDir countryName l2 e.
Proof.
  intros Hsub. destruct e as [[]| | | | | | | | | | |]; simpl; try done.
  - intros (? & ? & ?); auto.
  - auto.
  - intros (? & f & ? & ?); eauto.
  - intros (? & f & ? & ?); eauto.
Qed.

Lemma rows_for_length (columns : list string) (data : list obj) :
  List.length (rows_for columns data) = List.length data.
Proof. unfold rows_for. by rewrite length_map. Qed.

Lemma export_format_run (E : env) (businesses : list obj) (outputDir : path)
    (countryName format : string) (w : world) :
  let run := export_format E businesses outputDir countryName format w in
  fst run = Ret () ∧
  progressData (snd run) = progressData w ∧
  progress_files (snd run) = progress_files w ∧
  ∃ new, trace (snd run) = trace w ++ new ∧
         export_lines new = [format] ∧
         Forall (export_event businesses outputDir countryName [format]) new.
Proof.
  assert (Hin : format ∈ [format]) by left.
  unfold export_format, exportJSON, exportCSV, exportXLSX, writeJson_records,
    write_sheet, fs_call. fold (export_path outputDir countryName format).
  run_prims. cbn -[json_to_sheet rows_for].
  repeat case_bool_decide; cbn -[json_to_sheet rows_for].
  all: try (destruct businesses as [|first rest]; cbn -[json_to_sheet rows_for]).
  all: try (destruct (fs_fault E (clock w)); cbn -[json_to_sheet rows_for]).
  all: try (destruct (fs_fault E (S (clock w))); cbn -[json_to_sheet rows_for]).
  all: do 3 (split; [done|]).
  all: eexists; split; [by rewrite <- ?app_assoc|]; split; [done|].
  all: repeat constructor; simpl; try done.
  all: try (by rewrite rows_for_length).
  all: try (eexists; split; [exact Hin|]; split; [done|]; auto; fail).
  all: try (eexists; split; [exact Hin|]; split; [done|]; left; by split).
Qed.

Lemma export_formats_run (E : env) (businesses : list obj) (outputDir : path)
    (countryName : string) (formats : list string) (w : world) :
  let run := export_formats E businesses outputDir countryName formats w in
  fst run = Ret () ∧
  progressData (snd run) = progressData w ∧
  progress_files (snd run) = progress_files w ∧
  ∃ new, trace (snd run) = trace w ++ new ∧
         export_lines new = formats ∧
         Forall (export_event businesses outputDir countryName formats) new.
Proof.
  revert w. induction formats as [|format rest IH]; intros w; cbn [export_formats].
  - repeat split; try done. exists []. by rewrite app_nil_r.
  - rewrite bind_run.
    pose proof (export_format_run E businesses outputDir countryName format w)
      as (Hret & Hpd & Hpf & new1 & Htr1 & Hl1 & Hall1).
    destruct (export_format E businesses outputDir countryName format w) as [r w1].
    simpl in Hret, Hpd, Hpf, Htr1. subst r.
    destruct (IH w1) as (Hret2 & Hpd2 & Hpf2 & new2 & Htr2 & Hl2 & Hall2).
    split; [done|]. split; [congruence|]. split; [congruence|].
    exists (new1 ++ new2). split; [by rewrite Htr2, Htr1, app_assoc|]. split.
    + unfold export_lines in *. by rewrite omap_app, Hl1, Hl2.
    + apply Forall_app. split.
      * eapply Forall_impl; [exact Hall1|]. intros e. apply export_event_mono.
        intros f ->%list_elem_of_singleton. left.
      * eapply Forall_impl; [exact Hall2|]. intros e. apply export_event_mono.
        intros f Hf. by right.
Qed.

(** X10: [exportResults].  A failure to create the results directory is
    thrown before anything is exported.  Otherwise the call returns, with
    one console line per configured format, in order: a format that fails
    does not stop the later ones.  Every write goes to the file of a
    configured format, and is a write of the given records or of a table
    with one row per record.  A format that is none of [json], [csv],
    [xlsx], and the CSV format when there is no record, are reported as
    exported although nothing is written. *)
Theorem exportResults_reports_every_format (E : env) (businesses : list obj)
    (query countryCode countryName : string) (w : world) :
  let outputDir := dirname E ++ ["output"; query; countryCode; "results"] in
  let run := exportResults E businesses query countryCode countryName w in
  progressData (snd run) = progressData w ∧
  progress_files (snd run) = progress_files w ∧
  match fs_fault E (clock w) with
  | Some e => run = (Throw e, snd (tick w))
  | None =>
      fst run = Ret () ∧
      ∃ new, trace (snd run) = trace w ++ EEnsureDir outputDir :: new ∧
             export_lines new = cfg_exportFormats E ∧
             Forall (export_event businesses outputDir countryName (cfg_exportFormats E))
               new
  end ∧
  (∀ format w1,
     (toLowerCase format ≠ "json" ∧ toLowerCase format ≠ "csv" ∧
      toLowerCase format ≠ "xlsx") ∨
     (toLowerCase format = "csv" ∧ businesses = []) →
     export_format E businesses outputDir countryName format w1
     = (Ret (), advance w1 [ELog (LExported (List.length businesses) format
                                    (export_path outputDir countryName format))] 0)).
Proof.
  intros outputDir run. subst run. unfold exportResults, ensureDir, fs_call.
  fold outputDir. rewrite !bind_run. cbn [tick].
  split; [|split; [|split]].
  - destruct (fs_fault E (clock w)); [done|]. unfold emit. cbn [fst snd].
    match goal with |- context [export_formats _ _ _ _ _ ?w1] =>
      destruct (export_formats_run E businesses outputDir countryName
                  (cfg_exportFormats E) w1) as (_ & -> & _) end. done.
  - destruct (fs_fault E (clock w)); [done|]. unfold emit. cbn [fst snd].
    match goal with |- context [export_formats _ _ _ _ _ ?w1] =>
      destruct (export_formats_run E businesses outputDir countryName
                  (cfg_exportFormats E) w1) as (_ & _ & -> & _) end. done.
  - destruct (fs_fault E (clock w)); [done|]. unfold emit. cbn [fst snd].
    match goal with |- context [export_formats _ _ _ _ _ ?w1] =>
      destruct (export_formats_run E businesses outputDir countryName
                  (cfg_exportFormats E) w1) as (Hret & _ & _ & new & Htr & Hl & Hall) end.
    split; [done|]. exists new. split; [|done]. rewrite Htr. cbn [trace].
    by rewrite <- app_assoc.
  - intros format w1 Hcase. unfold export_format, exportCSV.
    fold (export_path outputDir countryName format). run_prims.
    destruct Hcase as [(Hj & Hc & Hx)|[Hc ->]].
    + rewrite !bool_decide_eq_false_2 by done. cbn. unfold advance. done.
    + rewrite Hc. cbn. unfold advance. done.
Qed.

(* ===================================================================== *)
(** ** Provenance *)
(* ===================================================================== *)

Lemma filterByCategory_sublist (E : env) (businesses kept : list obj) :
  filterByCategory E businesses = Ret kept → sublist kept businesses.
Proof.
  unfold filterByCategory. case_bool_decide; [by intros [= <-]|].
  pose proof (filter_result_spec (category_allowed E) businesses) as Hspec.
  destruct (filter_result (category_allowed E) businesses) as [l|e]; [|done].
  intros [= <-]. apply Hspec.
Qed.

(** X11: the records [searchMapsWithRetry] returns.  It returns, and every
    record is a record of [extractBusinessData], built from a usable place
    link, with six fields added: [source_name] is [google], [source_query]
    the query as it was passed (the localised one), [source_country] the
    country code, and [country], [state], [city] the names passed, the city
    being the empty string for a search at state level.  Every record has
    the same nineteen fields. *)
Theorem searchMapsWithRetry_provenance (E : env)
    (query cityname statename countryname countrycode : string) (w : world) :
  ∃ businesses,
    fst (searchMapsWithRetry E query cityname statename countryname countrycode w)
    = Ret businesses ∧
    Forall (λ b,
      (∃ p, usable p ∧
            b = with_provenance query cityname statename countryname countrycode
                  (business_of_place p)) ∧
      oget "source_name" b = Some (VStr "google") ∧
      oget "source_query" b = Some (VStr query) ∧
      oget "source_country" b = Some (VStr countrycode) ∧
      oget "country" b = Some (VStr countryname) ∧
      oget "state" b = Some (VStr statename) ∧
      oget "city" b = Some (VStr cityname) ∧
      keys b = scraped_keys) businesses.
Proof.
  rewrite searchMapsWithRetry_is_one_attempt. unfold search_attempt. rewrite bind_run.
  destruct (searchGoogleMaps_outcome E (searchQuery query cityname statename countryname)
              countrycode w) as (bs & new & Hret & _ & _ & _ & _ & _ & _ & Hsrc & _).
  destruct (searchGoogleMaps E _ countrycode w) as [r w1]. simpl in Hret. subst r.
  assert (Hbuilt : Forall (λ b, ∃ p, b = business_of_place p ∧ usable p) bs).
  { destruct Hsrc as [->|(k & places & _ & ->)]; [constructor|].
    destruct (extractBusinessData_from_spec ∅ places) as (_ & _ & Hall).
    eapply Forall_impl; [exact Hall|]. intros b (p & _ & -> & Hu & _). eauto. }
  destruct (filterByCategory_scraped E query cityname statename countryname countrycode bs)
    as (kept & Hkept & _).
  { eapply Forall_impl; [exact Hbuilt|]. intros b (p & -> & _). eauto. }
  rewrite Hkept. exists kept. split; [done|].
  apply filterByCategory_sublist in Hkept.
  apply Forall_forall. intros b Hb.
  apply (elem_of_sublist _ _ _ Hb) in Hkept.
  apply list_elem_of_fmap in Hkept as (b0 & -> & Hb0).
  rewrite Forall_forall in Hbuilt. destruct (Hbuilt _ Hb0) as (p & -> & Hu).
  split; [eauto|].
  do 6 (split; [reflexivity|]). apply keys_scraped.
Qed.

(* ===================================================================== *)
(** ** What a city-level run schedules *)
(* ===================================================================== *)

Lemma string_app_inj_l (s t1 t2 : string) : s +:+ t1 = s +:+ t2 → t1 = t2.
Proof. induction s as [|c s IH]; simpl; [done|]. intros [= H]. by apply IH. Qed.

Lemma cityKey_inj (country state c1 c2 : location) :
  cityKey country state c1 = cityKey country state c2 → name c1 = name c2.
Proof. unfold cityKey. by intros H; do 4 apply string_app_inj_l in H. Qed.

Section CityCompletion.

Variables (E : env) (cities : list (option location)) (state country : location)
          (query localizedQuery : string).

(** The search a worker awaits is recorded when the worker is resumed. *)
Lemma resume_fetches (wid : nat) (p : pool) (w : world) (city : location) (key : string) :
  workers p !! wid = Some (InSearch city key) →
  ∃ more,
    trace (snd (resume E cities state country query localizedQuery wid p w))
    = trace w ++ EFetch (searchQuery localizedQuery (name city) (name state)
                           (name country)) (iso2 country) :: more.
Proof.
  intros Hw. unfold resume. rewrite Hw, bind_run, try_run.
  rewrite searchMapsWithRetry_is_one_attempt.
  destruct (search_attempt_outcome E localizedQuery (name city) (name state) (name country)
              (iso2 country) w) as (bs & new & Hret & Htr & _).
  destruct (search_attempt E (searchGoogleMaps E) localizedQuery (name city) (name state)
              (name country) (iso2 country) w) as [r w1].
  simpl in Hret, Htr. subst r. cbn [fst snd].
  unfold pause, randomInt. run_prims. cbn -[Nat.ltb].
  destruct (0 <? List.length bs); cbn; rewrite Htr, <- ?app_assoc; cbn; eauto.
Qed.

(** Every index the loop head passes over holds a missing entry or a marked
    city, except the last one when the head stops at a city. *)
Lemma claim_from_covers (t : tree) (rest : list (option location))
    (idx : nat) (claimed : list nat) :
  let '(idx', _, next) := claim_from country state t rest idx claimed in
  idx ≤ idx' ≤ idx + List.length rest ∧
  (∀ i city, idx ≤ i < idx' → rest !! (i - idx) = Some (Some city) →
             isCityDone t (cityKey country state city) = true ∨
             next = Some (city, cityKey country state city)) ∧
  (next = None → idx' = idx + List.length rest) ∧
  (∀ city key, next = Some (city, key) → key = cityKey country state city).
Proof.
  revert idx claimed. induction rest as [|[city|] rest IH]; intros idx claimed; simpl.
  - split; [lia|]. split; [intros; lia|]. split; [lia|done].
  - destruct (isCityDone t (cityKey country state city)) eqn:Hdone.
    + specialize (IH (S idx) (claimed ++ [idx])).
      destruct (claim_from country state t rest (S idx) (claimed ++ [idx]))
        as [[idx' cl] next].
      destruct IH as (Hle & Hcov & Hend & Hkey). split; [lia|].
      split; [|split; [intros Hn; specialize (Hend Hn); lia|done]].
      intros i c Hi Hc. destruct (decide (i = idx)) as [->|Hne].
      * rewrite Nat.sub_diag in Hc. injection Hc as <-. by left.
      * apply (Hcov i c); [lia|].
        replace (i - idx) with (S (i - S idx)) in Hc by lia. done.
    + split; [lia|]. split; [|split; [done|by intros c k [= <- <-]]].
      intros i c Hi Hc.
      replace (i - idx) with 0 in Hc by lia. simpl in Hc. injection Hc as <-. by right.
  - specialize (IH (S idx) (claimed ++ [idx])).
    destruct (claim_from country state t rest (S idx) (claimed ++ [idx]))
      as [[idx' cl] next].
    destruct IH as (Hle & Hcov & Hend & Hkey). split; [lia|].
    split; [|split; [intros Hn; specialize (Hend Hn); lia|done]].
    intros i c Hi Hc. destruct (decide (i = idx)) as [->|Hne].
    + by rewrite Nat.sub_diag in Hc.
    + apply (Hcov i c); [lia|].
      replace (i - idx) with (S (i - S idx)) in Hc by lia. done.
Qed.

Lemma covered_loop_head (wid : nat) (p : pool) (w : world) :
  workers p !! wid = Some NotStarted ∨ workers p !! wid = Some InDelay →
  covered cities state country p w →
  covered cities state country (loop_head cities state country wid p (progressData w)) w.
Proof.
  intros Hwid (Hidx & Hkeys & Hcov & Hfin). unfold loop_head.
  pose proof (claim_from_covers (progressData w) (drop (cityIndex p) cities)
                (cityIndex p) []) as Hclaim.
  destruct (claim_from country state (progressData w) (drop (cityIndex p) cities)
              (cityIndex p) []) as [[idx' cl] next].
  rewrite length_drop in Hclaim. destruct Hclaim as (Hle & Hnew & Hend & Hkey).
  assert (Hlt : wid < List.length (workers p)).
  { destruct Hwid as [H|H]; by apply lookup_lt_Some in H. }
  assert (Hnot : ∀ city key, workers p !! wid ≠ Some (InSearch city key)).
  { intros city key H. destruct Hwid as [H'|H']; congruence. }
  split; [cbn; lia|]. split; [|split]; cbn.
  - intros wid' city key. destruct (decide (wid' = wid)) as [->|Hne].
    + rewrite list_lookup_insert_eq by done. destruct next as [[c k]|]; [|done].
      intros [= <- <-]. by apply Hkey.
    + rewrite list_lookup_insert_ne by done. apply Hkeys.
  - intros i city Hi Hcity. destruct (decide (i < cityIndex p)) as [Hold|Hnew'].
    + destruct (Hcov i city Hold Hcity) as [Hd|[wid' Hw']]; [by left|]. right.
      exists wid'. rewrite list_lookup_insert_ne; [done|].
      intros ->. by destruct (Hnot _ _ Hw').
    + destruct (Hnew i city) as [Hd|Hn]; [lia | | by left |].
      * rewrite lookup_drop. by replace (cityIndex p + (i - cityIndex p)) with i by lia.
      * right. exists wid. rewrite list_lookup_insert_eq by done. by rewrite Hn.
  - intros wid'. destruct (decide (wid' = wid)) as [->|Hne].
    + rewrite list_lookup_insert_eq by done. destruct next as [[c k]|]; [done|].
      intros _. rewrite Hend by done. lia.
    + rewrite list_lookup_insert_ne by done. intros Hf. specialize (Hfin _ Hf). lia.
Qed.

Lemma covered_step (wid : nat) (p : pool) (w : world) (p' : pool) (w' : world) :
  covered cities state country p w →
  transition cities state country localizedQuery wid p w p' w' →
  covered cities state country p' w'.
Proof.
  intros Hcov Ht. destruct Ht as [p w Hw|p w Hw|p w city key businesses s' w' Hw Hpd Hpf Hext Hs'
                                 |p w city businesses w' Hw (Hpd & Hpf & Hext)].
  - done.
  - by apply covered_loop_head.
  - destruct Hcov as (Hidx & Hkeys & Hcities & Hfin).
    assert (Hlt : wid < List.length (workers p)) by by apply lookup_lt_Some in Hw.
    assert (Hs : ∀ c k, s' ≠ InSearch c k) by (intros c k; by destruct Hs' as [-> | ->]).
    assert (Hf : s' ≠ Finished) by by destruct Hs' as [-> | ->].
    split; [done|]. split; [|split]; cbn.
    + intros wid' c k. destruct (decide (wid' = wid)) as [->|Hne].
      * rewrite list_lookup_insert_eq by done. intros [= H]. by destruct (Hs c k).
      * rewrite list_lookup_insert_ne by done. apply Hkeys.
    + intros i c Hi Hc. rewrite Hpd.
      destruct (Hcities i c Hi Hc) as [Hd|[wid' Hw']].
      * left. unfold isCityDone. cbn. apply marked_mark. by right.
      * destruct (decide (wid' = wid)) as [->|Hne].
        -- left. rewrite Hw in Hw'. injection Hw' as -> ->.
           unfold isCityDone. cbn. apply marked_mark. by left.
        -- right. exists wid'. by rewrite list_lookup_insert_ne.
    + intros wid'. destruct (decide (wid' = wid)) as [->|Hne].
      * rewrite list_lookup_insert_eq by done. intros [= H]. by destruct Hf.
      * rewrite list_lookup_insert_ne by done. apply Hfin.
  - destruct Hcov as (Hidx & Hkeys & Hcities & Hfin).
    assert (Hlt : wid < List.length (workers p)) by by apply lookup_lt_Some in Hw.
    split; [done|]. split; [|split]; cbn.
    + intros wid' c k. destruct (decide (wid' = wid)) as [->|Hne].
      * by rewrite list_lookup_insert_eq by done.
      * rewrite list_lookup_insert_ne by done. apply Hkeys.
    + intros i c Hi Hc. rewrite Hpd.
      destruct (Hcities i c Hi Hc) as [Hd|[wid' Hw']]; [by left|].
      right. exists wid'. rewrite list_lookup_insert_ne; [done|].
      intros ->. congruence.
    + intros wid'. destruct (decide (wid' = wid)) as [->|Hne].
      * by rewrite list_lookup_insert_eq by done.
      * rewrite list_lookup_insert_ne by done. apply Hfin.
Qed.

Section FetchInvariant.

(** A property of the pool and the world that is kept by every reading of
    the clock and by every resumption, of which one may use that it is a
    transition and that it records the search the worker awaited ... *)
Variable J : pool → world → Prop.
Hypothesis J_tick : ∀ p w, J p w → J p (snd (tick w)).
Hypothesis J_step : ∀ wid p w p' w',
  J p w → transition cities state country localizedQuery wid p w p' w' →
  (∀ city key, workers p !! wid = Some (InSearch city key) →
     ∃ more, trace w' = trace w ++ EFetch (searchQuery localizedQuery (name city)
                                            (name state) (name country))
                                     (iso2 country) :: more) →
  J p' w'.

Lemma resume_keeps (wid : nat) (p : pool) (w : world) :
  J p w →
  ∃ p' w',
    resume E cities state country query localizedQuery wid p w = (Ret p', w') ∧ J p' w'.
Proof.
  intros HJ.
  destruct (resume_transition E cities state country query localizedQuery wid p w)
    as (p' & w' & Hrun & Ht).
  exists p', w'. split; [done|]. eapply J_step; [exact HJ | exact Ht|].
  intros city key Hw. destruct (resume_fetches wid p w city key Hw) as [more Hmore].
  rewrite Hrun in Hmore. eauto.
Qed.

(** ... holds when the run has settled. *)
Lemma run_workers_keeps (w : world) :
  J (initial_pool E) w →
  ∃ p' w',
    run_workers E cities state country query localizedQuery w = (Ret p', w') ∧ J p' w'.
Proof.
  intros HJ. unfold run_workers. rewrite bind_run.
  assert (Hstart : ∀ wids p w, J p w →
            ∃ p' w', start_workers E cities state country query localizedQuery wids p w
                     = (Ret p', w') ∧ J p' w').
  { induction wids as [|wid wids IH]; intros p w1 HJ1; simpl.
    - by eexists _, _.
    - rewrite bind_run. destruct (resume_keeps wid p w1 HJ1) as (p1 & w2 & -> & HJ2).
      by apply IH. }
  destruct (Hstart (seq 0 (cfg_parallel E)) _ w HJ) as (p1 & w1 & -> & HJ1).
  generalize (3 * List.length cities). intros fuel. revert p1 w1 HJ1.
  induction fuel as [|fuel IH]; intros p1 w1 HJ1; simpl.
  - by eexists _, _.
  - destruct (pending p1) as [|wid0 others]; [by eexists _, _|].
    rewrite bind_run. unfold tick at 1. cbn beta iota. rewrite bind_run.
    match goal with
    | |- context [resume _ _ _ _ _ _ ?wid p1 ?w2] =>
        destruct (resume_keeps wid p1 w2 (J_tick p1 w1 HJ1)) as (p2 & w3 & -> & HJ3)
    end.
    by apply IH.
Qed.

End FetchInvariant.

Lemma scheduled_step (w0 : world) (wid : nat) (p : pool) (w : world) (p' : pool)
    (w' : world) :
  scheduled cities state country localizedQuery w0 p w →
  transition cities state country localizedQuery wid p w p' w' →
  (∀ city key, workers p !! wid = Some (InSearch city key) →
     ∃ more, trace w' = trace w ++ EFetch (searchQuery localizedQuery (name city)
                                            (name state) (name country))
                                     (iso2 country) :: more) →
  scheduled cities state country localizedQuery w0 p' w'.
Proof.
  intros [Hcov (new & Htr & Hmarks)] Ht Hfetch.
  split; [by eapply covered_step|].
  destruct Ht as [p w Hw|p w Hw|p w city key businesses s' w' Hw Hpd Hpf Hext Hs'
                 |p w city businesses w' Hw (Hpd & Hpf & more & Hmore & _)].
  - by exists new.
  - by exists new.
  - destruct (Hfetch city key Hw) as [more Hmore].
    destruct Hcov as (_ & Hkeys & _). pose proof (Hkeys wid city key Hw) as ->.
    exists (new ++ EFetch (searchQuery localizedQuery (name city) (name state)
                             (name country)) (iso2 country) :: more).
    split; [by rewrite Hmore, Htr, app_assoc|].
    intros k. rewrite Hpd. unfold isCityDone at 1. cbn. rewrite marked_mark.
    intros [-> |Hk].
    + right. exists city. split; [done|]. apply elem_of_app. right. left.
    + destruct (Hmarks k Hk) as [?|(c & -> & Hin)]; [by left|]. right.
      exists c. split; [done|]. apply elem_of_app. by left.
  - exists (new ++ more). split; [by rewrite Hmore, Htr, app_assoc|].
    intros k. rewrite Hpd. intros Hk.
    destruct (Hmarks k Hk) as [?|(c & -> & Hin)]; [by left|]. right.
    exists c. split; [done|]. apply elem_of_app. by left.
Qed.

(** With at least one worker, when the run has settled every city of the
    list is marked, and every city of the list that was not marked when the
    run started has been searched. *)
Lemma processCitiesConcurrently_schedules (w : world) :
  1 ≤ cfg_parallel E →
  let run := processCitiesConcurrently E cities state country query localizedQuery w in
  ∃ new,
    trace (snd run) = trace w ++ new ∧
    ∀ city, Some city ∈ cities →
      isCityDone (progressData (snd run)) (cityKey country state city) = true ∧
      (isCityDone (progressData w) (cityKey country state city) = false →
       EFetch (searchQuery localizedQuery (name city) (name state) (name country))
         (iso2 country) ∈ new).
Proof.
  intros HK run. subst run.
  destruct (run_pool_settles E cities state country query localizedQuery w)
    as (p & w' & Hrun & Hpending & ->). cbn [snd].
  destruct (run_workers_keeps (scheduled cities state country localizedQuery w))
    with (w := w) as (p2 & w2 & Hrun2 & Hcov & new & Htr & Hmarks).
  { done. }
  { intros wid q w1 q' w1'. apply scheduled_step. }
  { split.
    - split; [cbn; lia|]. split; [|split]; cbn.
      + intros wid c k [[=] _]%lookup_replicate.
      + intros; lia.
      + intros wid [[=] _]%lookup_replicate.
    - exists []. split; [by rewrite app_nil_r|]. auto. }
  rewrite Hrun in Hrun2. injection Hrun2 as <- <-.
  destruct Hcov as (Hidx & Hkeys & Hcities & Hfin).
  assert (Hall : ∀ wid s, workers p !! wid = Some s → s = Finished).
  { intros wid s Hs. destruct (is_finished s) eqn:Hf; [by destruct s|].
    assert (wid ∈ pending p) as Hin by (apply pending_spec; eauto).
    rewrite Hpending in Hin. by apply elem_of_nil in Hin. }
  assert (Hlen : List.length (workers p) = cfg_parallel E).
  { destruct (pool_invariant E cities state country query localizedQuery
                (λ p _, pool_ok cities (cfg_parallel E) p))
      with (fuel := 3 * List.length cities) (w := w) as (p3 & w3 & Hrun3 & Hok).
    - done.
    - intros wid q w1 q' w1' Hok Ht. eapply transition_pool_ok; eauto.
    - apply initial_pool_ok.
    - unfold run_workers in Hrun. rewrite Hrun in Hrun3. injection Hrun3 as <- <-.
      apply Hok. }
  destruct (lookup_lt_is_Some_2 (workers p) 0) as [s0 Hs0]; [lia|].
  pose proof (Hall 0 s0 Hs0) as ->. specialize (Hfin 0 Hs0).
  exists new. split; [done|]. intros city Hcity.
  assert (Hdone : isCityDone (progressData w') (cityKey country state city) = true).
  { apply list_elem_of_lookup in Hcity as [i Hi].
    destruct (Hcities i city) as [Hd|[wid Hw]]; [|done|done|].
    - rewrite Hfin. by apply lookup_lt_Some in Hi.
    - by specialize (Hall _ _ Hw). }
  split; [done|]. intros Hfresh.
  destruct (Hmarks _ Hdone) as [Hold|(c & Hkey & Hin)]; [congruence|].
  apply cityKey_inj in Hkey. by rewrite Hkey.
Qed.

End CityCompletion.

(* ===================================================================== *)
(** ** What a city-level run completes *)
(* ===================================================================== *)

(** X12: a city-level run.  It returns, clears no mark and writes no
    progress file.  With at least one worker every city of the list is
    marked when it returns, in whatever order the searches settle and
    whatever they find.  With no worker it returns at once and marks
    nothing. *)
Theorem processCitiesConcurrently_marks_every_city (E : env)
    (cities : list (option location)) (state country : location)
    (query localizedQuery : string) (w : world) :
  let run := processCitiesConcurrently E cities state country query localizedQuery w in
  (∃ businesses, fst run = Ret businesses) ∧
  (∀ k, isCityDone (progressData w) k = true →
        isCityDone (progressData (snd run)) k = true) ∧
  (∀ k, isStateDone (progressData w) k = true →
        isStateDone (progressData (snd run)) k = true) ∧
  progress_files (snd run) = progress_files w ∧
  (1 ≤ cfg_parallel E →
   ∀ city, Some city ∈ cities →
           isCityDone (progressData (snd run)) (cityKey country state city) = true) ∧
  (cfg_parallel E = 0 → run = (Ret [], w)).
Proof.
  intros run. subst run.
  destruct (processCitiesConcurrently_steps E cities state country query localizedQuery w)
    as (businesses & Hret & (Hcity & Hstate) & Hpf & _).
  split; [eauto|]. split; [done|]. split; [done|]. split; [done|]. split.
  - intros HK city Hin.
    destruct (processCitiesConcurrently_schedules E cities state country query
                localizedQuery w HK) as (new & _ & Hsched).
    by destruct (Hsched city Hin).
  - intros HK. unfold processCitiesConcurrently, run_workers, initial_pool.
    rewrite HK. by destruct (List.length cities).
Qed.

(* ===================================================================== *)
(** ** One state per call *)
(* ===================================================================== *)

Lemma fetches_app (l1 l2 : list event) : fetches (l1 ++ l2) = fetches l1 ++ fetches l2.
Proof. unfold fetches. apply omap_app. Qed.

Lemma fetches_none (evs : list event) : Forall not_fetch evs → fetches evs = [].
Proof.
  induction 1 as [|e evs He _ IH]; [done|].
  destruct e as [| |q cc| | | | | | | | |]; cbn; try exact IH. by destruct (He q cc).
Qed.

Lemma session_event_quiet (e : event) : session_event e → quiet e.
Proof. by destruct e as [[]| | | | | | | | | | |]. Qed.

Lemma saveStateResults_returns (E : env) (businesses : list obj) (query : string)
    (country state : location) (w : world) :
  fst (saveStateResults E businesses query country state w) = Ret ().
Proof.
  unfold saveStateResults. rewrite bind_run, try_run.
  match goal with |- context [fst (?m w)] => destruct (fst (m w)) end; reflexivity.
Qed.

(** What follows the search of a state in the loop: the state is marked,
    its results are saved if there are any, and the statement that reads
    the unbound [cityKey] throws. *)
Lemma state_boundary_throws (E : env) (country state : location) (query : string)
    (stateBusinesses : list obj) {A : Type} (k : unit → M A) (w : world) :
  let run := (updateProgressData (markStateComplete (stateKey country state));;
              (if 0 <? List.length stateBusinesses
               then saveStateResults E stateBusinesses query country state
               else mret ());;
              assign_unbound_cityKey;; k ()) w in
  fst run = Throw (ReferenceError "cityKey is not defined") ∧
  progressData (snd run) = markStateComplete (stateKey country state) (progressData w) ∧
  progress_files (snd run) = progress_files w ∧
  ∃ more, trace (snd run) = trace w ++ more ∧ Forall quiet more.
Proof.
  cbv zeta. rewrite bind_run. cbn [updateProgressData]. rewrite bind_run.
  destruct (0 <? List.length stateBusinesses).
  - match goal with |- context [saveStateResults _ ?b ?q ?c ?s ?w0] =>
      pose proof (saveStateResults_returns E b q c s w0) as Hr;
      pose proof (touches_saveStateResults quiet (λ e He, He) E b q c s w0)
        as (Hp1 & Hp2 & more & Hm & Hq);
      destruct (saveStateResults E b q c s w0) as [r w3] end.
    simpl in Hr, Hp1, Hp2, Hm. subst r. cbn. eauto 10.
  - cbn. repeat split; try done. exists []. by rewrite app_nil_r.
Qed.

Lemma processStates_loop_first_unmarked (E : env) (country : location)
    (query localizedQuery : string) (states : list (option location))
    (results : list obj) (w : world) :
  let run := processStates_loop E states country query localizedQuery results w in
  (run = (Ret results, w) ∧
   ∀ s, Some s ∈ states → isStateDone (progressData w) (stateKey country s) = true) ∨
  ∃ pre state post new e,
    states = pre ++ Some state :: post ∧
    (∀ s, Some s ∈ pre → isStateDone (progressData w) (stateKey country s) = true) ∧
    isStateDone (progressData w) (stateKey country state) = false ∧
    fst run = Throw e ∧
    progress_files (snd run) = progress_files w ∧
    trace (snd run) = trace w ++ new ∧
    Forall (λ ev, quiet ev ∨
                  leaf_fetch E country state localizedQuery (progressData w) ev) new ∧
    (cfg_includeCities E = false →
     e = ReferenceError "cityKey is not defined" ∧
     progressData (snd run)
     = markStateComplete (stateKey country state) (progressData w) ∧
     fetches new = [(searchQuery localizedQuery "" (name state) (name country),
                     iso2 country)]).
Proof.
  induction states as [|[state|] rest IH]; cbn [processStates_loop].
  - left. split; [done|]. by intros s ?%elem_of_nil.
  - cbv zeta. rewrite bind_run. cbn [readProgressData].
    destruct (isStateDone (progressData w) (stateKey country state)) eqn:Hdone.
    + cbv zeta in IH.
      destruct IH as [[Hrun Hall]|(pre & st & post & new & e & -> & Hpre & Hrest)].
      * left. split; [done|]. intros s [[= ->]|Hs]%elem_of_cons; auto.
      * right. exists (Some state :: pre), st, post, new, e. split; [done|].
        split; [|done]. intros s [[= ->]|Hs]%elem_of_cons; auto.
    + right. exists [], state, rest.
      rewrite bind_run. cbn [log emit]. rewrite bind_run.
      unfold state_businesses. destruct (cfg_includeCities E) eqn:Hmode; cbv beta iota.
      * (* city mode *)
        rewrite bind_run. cbn [tick clock].
        destruct (citiesByCountryState E (iso2 country) (iso2 state) (clock w))
          as [citiesByState|e] eqn:Hdir.
        2:{ cbn. exists [ELog (LProcessingState (name state) (name country))], e.
            split; [done|]. split; [by intros s ?%elem_of_nil|].
            split; [done|]. split; [done|]. split; [done|]. split; [done|].
            split; [|done]. constructor; [by left|constructor]. }
        rewrite bind_run. cbn [tick clock]. cbv zeta.
        match goal with |- context [if 0 <? List.length ?l then _ else _] =>
          set (shuffledCities := l) end.
        match goal with |- context [(if 0 <? _ then _ else _) ?w1] =>
          assert (Hcities : ∃ bs w2,
                    (if 0 <? List.length shuffledCities
                     then processCitiesConcurrently E shuffledCities state country query
                            localizedQuery
                     else mret []) w1 = (Ret bs, w2) ∧
                    steps (city_events shuffledCities state country localizedQuery
                             (progressData w)) w1 w2) end.
        { destruct (0 <? List.length shuffledCities).
          - match goal with |- ∃ bs w2, ?m ?w1 = _ ∧ _ =>
              destruct (processCitiesConcurrently_steps E shuffledCities state country
                          query localizedQuery w1) as (bs & Hret & Hsteps);
              destruct (m w1) as [r w2] end.
            simpl in Hret, Hsteps. subst r. eauto.
          - eexists _, _. split; [done|]. reflexivity. }
        destruct Hcities as (bs & w2 & -> & Hgrow & Hpf2 & new2 & Htr2 & Hall2).
        destruct (state_boundary_throws E country state query bs
                    (λ _, t ← readProgressData;
                          saveProgress E query (iso2 country) t;;
                          pause E;;
                          processStates_loop E rest country query localizedQuery
                            (results ++ bs)) w2)
          as (Hthrow & _ & Hpf3 & more & Htr3 & Hmore).
        match goal with |- ∃ new e, _ ∧ _ ∧ _ ∧ fst ?r = _ ∧ _ =>
          change r with ((updateProgressData (markStateComplete (stateKey country state));;
              (if 0 <? List.length bs
               then saveStateResults E bs query country state
               else mret ());;
              assign_unbound_cityKey;;
              (λ _, t ← readProgressData;
                          saveProgress E query (iso2 country) t;;
                          pause E;;
                          processStates_loop E rest country query localizedQuery
                            (results ++ bs)) ()) w2) end.
        eexists _, _. split; [done|]. split; [by intros s ?%elem_of_nil|].
        split; [done|]. split; [exact Hthrow|]. split; [by rewrite Hpf3, Hpf2|].
        split; [rewrite Htr3, Htr2; cbn; rewrite <- !app_assoc; reflexivity|].
        split; [|done].
        constructor; [by left|]. apply Forall_app. split.
        -- eapply Forall_impl; [exact Hall2|]. cbn.
           intros ev [?|(city & _ & Hfresh & ->)]; [by left|]. right.
           exists (name city). split; [|done]. rewrite Hmode. eauto.
        -- eapply Forall_impl; [exact Hmore|]. by left.
      * (* state mode *)
        match goal with |- ∃ new e, _ ∧ _ ∧ _ ∧ fst ?r = _ ∧ _ =>
          assert (Hrun : ∃ run, run = r) by eauto; destruct Hrun as [run Hrun];
          rewrite <- Hrun end.
        rewrite bind_run, searchMapsWithRetry_is_one_attempt in Hrun.
        match type of Hrun with context [search_attempt _ _ ?q ?c ?s ?n ?cc ?w1] =>
          destruct (search_attempt_outcome E q c s n cc w1)
            as (bs & new & Hret & Htr & Hev & Hpd & Hpf & _);
          destruct (search_attempt E (searchGoogleMaps E) q c s n cc w1) as [r w2] end.
        simpl in Hret, Htr, Hpd, Hpf. subst r.
        rewrite bind_run in Hrun. cbn [log emit mret M_ret] in Hrun.
        match type of Hrun with _ = _ ?w3 =>
          destruct (state_boundary_throws E country state query bs
                    (λ _, t ← readProgressData;
                          saveProgress E query (iso2 country) t;;
                          pause E;;
                          processStates_loop E rest country query localizedQuery
                            (results ++ bs)) w3)
              as (Hthrow & Hpd3 & Hpf3 & more & Htr3 & Hmore) end.
        cbv zeta in Hthrow, Hpd3, Hpf3, Htr3.
        rewrite <- Hrun in Hthrow, Hpd3, Hpf3, Htr3. clear Hrun.
        cbn [progressData progress_files trace] in Hpd3, Hpf3, Htr3.
        eexists _, _. split; [done|]. split; [by intros s ?%elem_of_nil|].
        split; [done|]. split; [exact Hthrow|].
        split; [by rewrite Hpf3, Hpf|].
        split; [rewrite Htr3, Htr; cbn; rewrite <- !app_assoc; reflexivity|].
        assert (Hnf : fetches new = []).
        { apply fetches_none. eapply Forall_impl; [exact Hev|].
          intros ev Hs. by apply quiet_not_fetch, session_event_quiet. }
        split.
        -- constructor; [by left|]. constructor.
           { right. exists "". by rewrite Hmode. }
           apply Forall_app. split.
           ++ eapply Forall_impl; [exact Hev|]. intros ev ?. left.
              by apply session_event_quiet.
           ++ constructor; [by left|]. eapply Forall_impl; [exact Hmore|]. by left.
        -- intros _. split; [done|]. split; [by rewrite Hpd3, Hpd|].
           cbn. rewrite !fetches_app, Hnf. cbn. rewrite fetches_none; [done|].
           eapply Forall_impl; [exact Hmore|]. apply quiet_not_fetch.
  - cbv zeta in IH.
    destruct IH as [[Hrun Hall]|(pre & st & post & new & e & -> & Hpre & Hrest)].
    + left. split; [done|]. intros s [[=]|Hs]%elem_of_cons; auto.
    + right. exists (None :: pre), st, post, new, e. split; [done|].
      split; [|done]. intros s [[=]|Hs]%elem_of_cons; auto.
Qed.

(* ===================================================================== *)
(** ** One country *)
(* ===================================================================== *)

Lemma quiet_not_tree_write (e : event) : quiet e → not_tree_write e.
Proof. intros Hq. split; intros ? ? ->; exact Hq. Qed.

Lemma leaf_event_not_tree_write (E : env) (country : location) (t0 : tree) (e : event) :
  leaf_event E country t0 e → not_tree_write e.
Proof.
  intros [Hq|(state & lq & _ & _ & cityname & _ & ->)];
    [by apply quiet_not_tree_write|]. by split.
Qed.

Lemma loadProgress_returns (E : env) (query countryCode : string) (w : world) :
  ∃ loaded, fst (loadProgress E query countryCode w) = Ret loaded.
Proof.
  unfold loadProgress, fs_call. run_prims. cbn.
  destruct (progress_files w !! _) as [[data|]|]; cbn; [| |by eexists];
    destruct (fs_fault E (clock w)); cbn; by eexists.
Qed.

Lemma translateQuery_run (E : env) (query : string) (targetLanguage : option string)
    (w : world) :
  ∃ localizedQuery,
    fst (translateQuery E query targetLanguage w) = Ret localizedQuery ∧
    touches quiet w (snd (translateQuery E query targetLanguage w)).
Proof.
  unfold translateQuery.
  destruct (negb (cfg_localize E) || bool_decide (targetLanguage = Some "en")).
  - exists query. split; [done|]. reflexivity.
  - run_prims. cbn. destruct (translate E query targetLanguage (clock w)); cbn.
    + eexists. split; [done|]. repeat split; cbn; try done. exists [].
      by rewrite app_nil_r.
    + eexists. split; [done|]. repeat split; cbn; try done. eexists.
      split; [done|]. by repeat constructor.
Qed.

Lemma export_event_quiet (businesses : list obj) (outputDir : path)
    (countryName : string) (formats : list string) (e : event) :
  export_event businesses outputDir countryName formats e → quiet e.
Proof. by destruct e. Qed.

Lemma exportResults_quiet (E : env) (businesses : list obj)
    (query countryCode countryName : string) (w : world) :
  touches quiet w (snd (exportResults E businesses query countryCode countryName w)).
Proof.
  unfold exportResults, ensureDir, fs_call. rewrite !bind_run. cbn [tick].
  destruct (fs_fault E (clock w)).
  - cbn. repeat split; try done. exists []. by rewrite app_nil_r.
  - unfold emit. cbn [fst snd].
    match goal with |- context [export_formats _ _ ?d _ _ ?w1] =>
      destruct (export_formats_run E businesses d countryName
                  (cfg_exportFormats E) w1) as (_ & Hpd & Hpf & new & Htr & _ & Hall) end.
    split; [by rewrite Hpd|]. split; [by rewrite Hpf|].
    eexists. split; [rewrite Htr; cbn [trace]; by rewrite <- app_assoc|].
    constructor; [done|].
    eapply Forall_impl; [exact Hall|]. intros e. apply export_event_quiet.
Qed.

Lemma extends_more (φ : event → Prop) (w w1 w2 : world) (new : list event) :
  extends φ w w1 → trace w2 = trace w1 ++ new → Forall φ new → extends φ w w2.
Proof.
  intros (new1 & Htr1 & Hall1) Htr2 Hall2. exists (new1 ++ new).
  split; [by rewrite Htr2, Htr1, app_assoc|]. by apply Forall_app.
Qed.

Lemma extends_same (φ : event → Prop) (w w1 w2 : world) :
  extends φ w w1 → trace w2 = trace w1 → extends φ w w2.
Proof.
  intros H Htr. apply (extends_more φ w w1 w2 []); [done | | constructor].
  by rewrite app_nil_r.
Qed.

(** How the [try] block of [processCountry] ends.  The events it adds are
    quiet ones and searches for leaves that the loaded tree does not mark.
    Either no progress file was written and, if the block returned, it
    returned the empty array; or the block reached its last three
    statements: then the loaded tree did not mark the country, marked every
    state the directory listed, and the block ends by saving that tree with
    the country marked. *)
Lemma processCountry_body_outcome (E : env) (country : location) (query : string)
    (w : world) :
  let run := processCountry_body E country query w in
  ∃ loaded,
    fst (loadProgress E query (iso2 country) w) = Ret loaded ∧
    ((progress_files (snd run) = progress_files w ∧
      extends (leaf_event E country loaded) w (snd run) ∧
      (isCountryDone loaded (iso2 country) = true → extends quiet w (snd run)) ∧
      ∀ v, fst run = Ret v → v = []) ∨
     (∃ k k' allStates w2,
        statesByCountry E (iso2 country) k = Ret allStates ∧
        (∀ s, Some s ∈ shuffle E allStates k' →
              isStateDone loaded (stateKey country s) = true) ∧
        isCountryDone loaded (iso2 country) = false ∧
        progress_files w2 = progress_files w ∧
        extends quiet w w2 ∧
        progressData w2 = markCountryComplete (iso2 country) loaded ∧
        run = (saveProgress E query (iso2 country)
                 (markCountryComplete (iso2 country) loaded);;
               log (LCountryCompleted (name country) 0);; mret []) w2)).
Proof.
  intros run.
  pose proof (touches_loadProgress E query (iso2 country) w) as Hload.
  destruct (loadProgress_returns E query (iso2 country) w) as [loaded Hret].
  exists loaded. split; [done|].
  assert (Hleaf : ∀ w', extends quiet w w' → extends (leaf_event E country loaded) w w').
  { intros w'. apply extends_mono. intros e ?. by left. }
  assert (Hrun : run = processCountry_body E country query w) by done. clearbody run.
  unfold processCountry_body in Hrun. rewrite bind_run in Hrun.
  destruct (loadProgress E query (iso2 country) w) as [r w1]. simpl in Hret, Hload.
  subst r. destruct Hload as (Hpd1 & Hpf1 & Hex1).
  run_prims. cbn in Hrun.
  destruct (isCountryDone loaded (iso2 country)) eqn:Hdone; cbn in Hrun.
  { left. subst run. cbn.
    assert (Hq : extends quiet w
                   {| progressData := loaded; progress_files := progress_files w1;
                      json_files := json_files w1; sheet_files := sheet_files w1;
                      trace := trace w1 ++ [ELog (LCountrySkipped (name country))];
                      clock := clock w1 |})
      by (eapply extends_more; [exact Hex1 | reflexivity | by repeat constructor]).
    split; [done|]. split; [by apply Hleaf|]. split; [done|]. by intros v [= <-]. }
  destruct (countrylocalemap E (iso2 country) (clock w1)) as [info|e] eqn:Hinfo;
    cbn in Hrun;
    [|left; subst run; cbn; split; [done|]; split; [|split; [done|intros v [=]]];
      apply Hleaf; eapply extends_same; [exact Hex1 | reflexivity]].
  destruct info as [[languages|]|]; cbn in Hrun;
    [| |left; subst run; cbn; split; [done|]; split; [|split; [done|intros v [=]]];
        apply Hleaf; eapply extends_same; [exact Hex1 | reflexivity]].
  all: match type of Hrun with context [translateQuery ?E' ?q ?l ?w3] =>
         destruct (translateQuery_run E' q l w3) as (lq & Hlq & Hpd2 & Hpf2 & Hex2);
         destruct (translateQuery E' q l w3) as [r3 w3'] end.
  all: simpl in Hlq, Hpd2, Hpf2; subst r3.
  all: assert (Hex3 : extends quiet w w3')
         by (etrans; [|exact Hex2]; eapply extends_same; [exact Hex1|reflexivity]).
  all: clear Hex1 Hex2.
  all: destruct (bool_decide (lq = query)); cbn in Hrun.
  all: destruct (statesByCountry E (iso2 country) (clock w3')) as [allStates|e] eqn:Hstates;
         cbn in Hrun;
         [|left; subst run; cbn; split; [congruence|]; split; [|split; [done|intros v [=]]];
           apply Hleaf;
           first [eapply extends_same; [exact Hex3 | reflexivity]
                 |eapply extends_more; [exact Hex3 | reflexivity | by repeat constructor]]].
  all: match type of Hrun with context [processStatesConcurrently _ ?l _ _ _ ?w5] =>
         assert (Hpd5 : progressData w5 = loaded) by done;
         assert (Hpf5 : progress_files w5 = progress_files w) by (cbn; congruence);
         assert (Hex5 : extends quiet w w5)
           by first [eapply extends_same; [exact Hex3 | reflexivity]
                    |eapply extends_more; [exact Hex3 | reflexivity | by repeat constructor]];
         pose proof (processStates_loop_first_unmarked E country query lq l [] w5) as Hloop;
         unfold processStatesConcurrently in Hrun;
         destruct (processStates_loop E l country query lq [] w5) as [r6 w6]
       end.
  all: cbv zeta in Hloop.
  all: destruct Hloop as [[[= -> ->] Hall_done]
                         |(pre & st & post & new6 & e & Hsplit & _ & Hfresh & Hthrow & Hpf6
                             & Htr6 & Hall6 & _)];
         [|simpl in Hthrow, Hpf6, Htr6; subst r6; cbn in Hrun; left; subst run; cbn;
           split; [congruence|]; split; [|split; [congruence|intros v [=]]];
           eapply extends_more; [apply Hleaf; exact Hex5 | exact Htr6 |];
           eapply Forall_impl; [exact Hall6|]; cbn;
           intros ev [?|Hf]; [by left|]; right; exists st, lq;
           rewrite <- Hpd2; split; [|split; [exact Hfresh|exact Hf]];
           exists (clock w3'), (S (clock w3')), allStates; split; [done|];
           rewrite Hsplit; apply elem_of_app; right; left].
  all: cbn in Hrun.
  all: match type of Hrun with context [exportResults _ ?b _ _ _ ?w7] =>
         pose proof (exportResults_quiet E b query (iso2 country) (name country) w7)
           as (Hpd8 & Hpf8 & Hex8);
         destruct (exportResults E b query (iso2 country) (name country) w7) as [r8 w8]
       end.
  all: simpl in Hpd8, Hpf8, Hex8.
  all: assert (Hex9 : extends quiet w w8) by (etrans; [exact Hex5|exact Hex8]).
  all: destruct r8 as [[]|e]; cbn in Hrun;
         [|left; subst run; cbn; split; [congruence|]; split; [by apply Hleaf|];
           split; [done|intros v [=]]].
  all: right; exists (clock w3'), (S (clock w3')), allStates.
  all: exists {| progressData := markCountryComplete (iso2 country) (progressData w8);
                 progress_files := progress_files w8; json_files := json_files w8;
                 sheet_files := sheet_files w8; trace := trace w8; clock := clock w8 |}.
  all: assert (Hpd9 : progressData w8 = loaded) by (rewrite Hpd8; exact Hpd5).
  all: split; [done|].
  all: split; [intros s Hs; rewrite <- Hpd5; by apply Hall_done|].
  all: split; [done|].
  all: split; [cbn; congruence|].
  all: split; [eapply extends_same; [exact Hex9 | reflexivity]|].
  all: split; [cbn; by rewrite Hpd9|].
  all: subst run; rewrite Hpd9; reflexivity.
Qed.

Lemma saveProgress_returns (E : env) (query countryCode : string) (t : tree) (w : world) :
  fst (saveProgress E query countryCode t w) = Ret ().
Proof.
  rewrite saveProgress_run. destruct (fs_fault E (clock w)); [done|].
  destruct (fs_fault E (S (clock w))); [done|].
  by destruct (fs_fault E (S (S (clock w)))).
Qed.

Lemma processCountry_returns_empty (E : env) (country : location) (query : string)
    (w : world) :
  fst (processCountry E country query w) = Ret [].
Proof.
  unfold processCountry. rewrite bind_run, try_run.
  destruct (processCountry_body_outcome E country query w)
    as (loaded & _ & [(_ & _ & _ & Hv)
                     |(k & k' & allStates & w2 & _ & _ & _ & _ & _ & _ & Hrun)]).
  - destruct (fst (processCountry_body E country query w)) as [v|e]; [|done].
    by rewrite (Hv v eq_refl).
  - rewrite Hrun, bind_run.
    pose proof (saveProgress_returns E query (iso2 country)
                  (markCountryComplete (iso2 country) loaded) w2) as Hsave.
    destruct (saveProgress E query (iso2 country) _ w2) as [r w3]. simpl in Hsave.
    by subst r.
Qed.

(** X13: every call of [processCountry] returns the empty array, whatever
    was scraped: the loop over the states returns only when it had no state
    to process.  Hence the loop of [main] adds nothing to [allBusinesses]
    and to the total of the summary, counts no failed country, and counts
    as successful every country it reached before a shutdown. *)
Theorem main_loop_counts_nothing (E : env) (isShuttingDown : nat → bool)
    (targetCountries : list location) (query : string) (t : tally) (w : world) :
  (∀ country w1, fst (processCountry E country query w1) = Ret []) ∧
  ∃ reached,
    fst (main_loop E isShuttingDown targetCountries query t w)
    = Ret {| allBusinesses := allBusinesses t;
             totalBusinesses := totalBusinesses t;
             successfulCountries := successfulCountries t + reached;
             failedCountries := failedCountries t |} ∧
    reached ≤ List.length targetCountries ∧
    ((∀ k, isShuttingDown k = false) → reached = List.length targetCountries).
Proof.
  split; [intros; apply processCountry_returns_empty|].
  revert t w. induction targetCountries as [|country rest IH]; intros t w;
    cbn [main_loop].
  - exists 0. cbn. rewrite Nat.add_0_r. by destruct t.
  - rewrite bind_run. cbn [readWorld].
    destruct (isShuttingDown (clock w)) eqn:Hflag.
    + exists 0. cbn. rewrite Nat.add_0_r. split; [by destruct t|].
      split; [lia|]. intros Hnever. by rewrite Hnever in Hflag.
    + rewrite bind_run, try_run.
      rewrite (processCountry_returns_empty E country query w).
      match goal with |- context [main_loop _ _ _ _ ?t1 ?w1] =>
        destruct (IH t1 w1) as (reached & Hret & Hle & Hall) end.
      exists (S reached). rewrite Hret. cbn.
      rewrite app_nil_r, Nat.add_0_r, Nat.add_succ_r. split; [done|].
      split; [lia|]. intros Hnever. by rewrite Hall.
Qed.

(** X14: the only progress file [processCountry] can change is the one of
    its query and country: after the call every progress file is as it
    was, or that one holds the tree that was loaded with the country
    marked, or that one is truncated (the write failed after the file was
    opened).  Every write of a progress file it starts is a write of that
    tree to that file, and is started only if the loaded tree did not mark
    the country and marked every state the directory listed.  In
    particular a run that starts without a progress file saves one only
    for a country whose directory lists no state. *)
Theorem country_saved_after_its_states (E : env) (country : location) (query : string)
    (w : world) :
  let run := processCountry E country query w in
  let target := progressPath E query (iso2 country) in
  ∃ loaded new,
    fst (loadProgress E query (iso2 country) w) = Ret loaded ∧
    trace (snd run) = trace w ++ new ∧
    (∀ p, p ≠ target → progress_files (snd run) !! p = progress_files w !! p) ∧
    (progress_files (snd run) = progress_files w ∨
     progress_files (snd run) !! target
     = Some (Some (markCountryComplete (iso2 country) loaded)) ∨
     progress_files (snd run) !! target = Some None) ∧
    (progress_files (snd run) ≠ progress_files w →
     ∃ t, EWriteTree target t ∈ new) ∧
    (∀ p t, EWriteTree p t ∈ new →
       p = target ∧ t = markCountryComplete (iso2 country) loaded ∧
       isCountryDone loaded (iso2 country) = false ∧
       ∃ k k' allStates,
         statesByCountry E (iso2 country) k = Ret allStates ∧
         (∀ s, Some s ∈ shuffle E allStates k' →
               isStateDone loaded (stateKey country s) = true) ∧
         (progress_files w !! target = None →
          ∀ s, Some s ∉ shuffle E allStates k')).
Proof.
  intros run target. subst run. unfold processCountry. rewrite bind_run, try_run.
  destruct (processCountry_body_outcome E country query w)
    as (loaded & Hload &
        [(Hpf & Hleaf & _ & Hv)
        |(k & k' & allStates & w2 & Hstates & Hdone & Hcountry & Hpf & (pre & Htr & Hall)
            & Hpd & Hrun)]);
    exists loaded.
  - apply (extends_mono _ _ _ _ (leaf_event_not_tree_write E country loaded)) in Hleaf.
    destruct Hleaf as (new & Htr & Hall).
    assert (Hclean : ∀ extra, Forall not_tree_write extra →
                     ∀ p t, EWriteTree p t ∉ new ++ extra).
    { intros extra Hextra p t Hin.
      assert (Hall' : Forall not_tree_write (new ++ extra)) by by apply Forall_app.
      rewrite Forall_forall in Hall'. destruct (Hall' _ Hin) as [Hno _].
      by apply (Hno p t). }
    destruct (processCountry_body E country query w) as [[v|e] w1];
      simpl in Hpf, Htr |- *.
    + exists new. split; [done|]. split; [done|]. split; [by rewrite Hpf|].
      split; [by left|]. split; [done|].
      intros p t Hin. destruct (Hclean [] ltac:(constructor) p t). by rewrite app_nil_r.
    + exists (new ++ [ELog (LCountryFailed (name country) e)]).
      split; [done|]. split; [by rewrite Htr, app_assoc|]. split; [by rewrite Hpf|].
      split; [by left|]. split; [done|].
      intros p t Hin. destruct (Hclean [ELog (LCountryFailed (name country) e)]) with p t;
        [|done]. by repeat constructor.
  - rewrite Hrun, bind_run, saveProgress_run. fold target.
    assert (Hfresh : progress_files w !! target = None →
                     ∀ s, Some s ∉ shuffle E allStates k').
    { intros Hnone s Hs. specialize (Hdone s Hs).
      unfold loadProgress in Hload. revert Hload. run_prims. cbn. fold target.
      rewrite Hnone. cbn. intros [= <-]. done. }
    assert (Hpre : ∀ p t, EWriteTree p t ∉ pre).
    { intros p t Hin. rewrite Forall_forall in Hall. exact (Hall _ Hin). }
    destruct (fs_fault E (clock w2)) as [e1|];
      [|destruct (fs_fault E (S (clock w2))) as [e2|];
        [|destruct (fs_fault E (S (S (clock w2)))) as [e3|]]].
    all: unfold advance; run_prims; cbn; eexists; split; [done|].
    all: split; [rewrite Htr, <- !app_assoc; reflexivity|].
    all: split; [intros p Hp; rewrite ?lookup_insert_ne by done; by rewrite Hpf|].
    all: split; [first [by left
                       | right; right; by rewrite lookup_insert_eq
                       | right; left; by rewrite lookup_insert_eq]|].
    all: split; [first [by intros []
                       | intros _; eexists; apply elem_of_app; right; right; left]|].
    all: intros p t [Hin|Hin]%elem_of_app; [by destruct (Hpre p t)|].
    all: explicit_in Hin.
    all: injection Hin as -> ->; split; [done|]; split; [done|]; split; [done|].
    all: exists k, k', allStates; by repeat split.
Qed.

(* ===================================================================== *)
(** ** Resuming: what is skipped and what is scheduled *)
(* ===================================================================== *)

(** C5: what a run skips and what it schedules.  Leaves that the tree
    marks are not fetched again, at any level, and the marks that count for
    [processCountry] are those of the progress file it loads.  A city-level
    run with at least one worker searches every city of the list that is
    not marked.  The state loop does not: it searches for the first state
    that is not marked and then throws, so that the states after it are not
    scheduled; in state mode that is one search per call, ended by the
    [ReferenceError] of the unbound [cityKey].  On a directory that lists
    Bitola before Skopje and no progress file, [processCountry] searches
    for Bitola only: Skopje, listed and not marked, is never searched, and
    no progress file is written. *)
Theorem resume_schedules_first_state_only (E : env) :
  (∀ cities state country query localizedQuery w,
     let run := processCitiesConcurrently E cities state country query localizedQuery w in
     ∃ businesses new,
       fst run = Ret businesses ∧
       trace (snd run) = trace w ++ new ∧
       (∀ city, Some city ∈ cities →
                isCityDone (progressData w) (cityKey country state city) = true →
                EFetch (searchQuery localizedQuery (name city) (name state) (name country))
                  (iso2 country) ∉ new) ∧
       (∀ sq cc, EFetch sq cc ∈ new →
                 ∃ city, Some city ∈ cities ∧
                         isCityDone (progressData w) (cityKey country state city) = false ∧
                         sq = searchQuery localizedQuery (name city) (name state)
                                (name country) ∧
                         cc = iso2 country) ∧
       (1 ≤ cfg_parallel E →
        ∀ city, Some city ∈ cities →
                isCityDone (progressData w) (cityKey country state city) = false →
                EFetch (searchQuery localizedQuery (name city) (name state) (name country))
                  (iso2 country) ∈ new)) ∧
  (∀ states country query localizedQuery w,
     let run := processStatesConcurrently E states country query localizedQuery w in
     ∃ new,
       trace (snd run) = trace w ++ new ∧
       (∀ sq cc, EFetch sq cc ∈ new →
                 ∃ state cityname,
                   Some state ∈ states ∧
                   isStateDone (progressData w) (stateKey country state) = false ∧
                   sq = searchQuery localizedQuery cityname (name state) (name country) ∧
                   cc = iso2 country) ∧
       (cfg_includeCities E = false →
        ∀ state, Some state ∈ states →
                 isStateDone (progressData w) (stateKey country state) = true →
                 EFetch (searchQuery localizedQuery "" (name state) (name country))
                   (iso2 country) ∉ new) ∧
       ((run = (Ret [], w) ∧
         ∀ state, Some state ∈ states →
                  isStateDone (progressData w) (stateKey country state) = true) ∨
        (∃ pre state post e,
           states = pre ++ Some state :: post ∧
           (∀ s, Some s ∈ pre →
                 isStateDone (progressData w) (stateKey country s) = true) ∧
           isStateDone (progressData w) (stateKey country state) = false ∧
           fst run = Throw e ∧
           (∀ sq cc, EFetch sq cc ∈ new →
                     ∃ cityname, sq = searchQuery localizedQuery cityname (name state)
                                        (name country)) ∧
           (cfg_includeCities E = false →
            e = ReferenceError "cityKey is not defined" ∧
            fetches new = [(searchQuery localizedQuery "" (name state) (name country),
                            iso2 country)])))) ∧
  (∀ country query w,
     let run := processCountry E country query w in
     ∃ loaded new,
       fst (loadProgress E query (iso2 country) w) = Ret loaded ∧
       fst run = Ret [] ∧
       trace (snd run) = trace w ++ new ∧
       (isCountryDone loaded (iso2 country) = true → ∀ sq cc, EFetch sq cc ∉ new) ∧
       (∀ sq cc, EFetch sq cc ∈ new →
          ∃ state localizedQuery cityname,
            listed E country state ∧
            isStateDone loaded (stateKey country state) = false ∧
            (if cfg_includeCities E
             then ∃ city, cityname = name city ∧
                          isCityDone loaded (cityKey country state city) = false
             else cityname = "") ∧
            sq = searchQuery localizedQuery cityname (name state) (name country) ∧
            cc = iso2 country)) ∧
  (let run := processCountry Scenario.E0_rev Scenario.MK "cafe" Scenario.w0 in
   statesByCountry Scenario.E0_rev "MK" 1 = Ret [Some Scenario.Bitola; Some Scenario.Skopje] ∧
   fst (loadProgress Scenario.E0_rev "cafe" "MK" Scenario.w0) = Ret empty_tree ∧
   isStateDone empty_tree (stateKey Scenario.MK Scenario.Skopje) = false ∧
   fst run = Ret [] ∧
   fetches (trace (snd run)) = [("cafe near Bitola North Macedonia", "MK")] ∧
   (EFetch "cafe near Skopje North Macedonia" "MK" ∉ trace (snd run)) ∧
   (last (trace (snd run))
    = Some (ELog (LCountryFailed "North Macedonia"
                    (ReferenceError "cityKey is not defined")))) ∧
   progress_files (snd run) = ∅).
Proof.
  split; [|split; [|split]].
  - intros cities state country query localizedQuery w run. subst run.
    destruct (processCitiesConcurrently_steps E cities state country query localizedQuery w)
      as (bs & Hret & _ & _ & new & Htr & Hev).
    exists bs, new. split; [done|]. split; [done|].
    assert (Hall : ∀ e, e ∈ new →
              city_events cities state country localizedQuery (progressData w) e)
      by (by apply Forall_forall).
    split; [|split].
    + intros city Hin Hdone Hfetch.
      destruct (Hall _ Hfetch) as [[]|(city' & _ & Hnot & Heq)].
      injection Heq as Heq. apply searchQuery_inj_city in Heq.
      unfold cityKey in *. rewrite Heq in Hdone. congruence.
    + intros sq cc Hfetch.
      destruct (Hall _ Hfetch) as [[]|(city' & ? & ? & [= -> ->])]. by exists city'.
    + intros HK city Hin Hfresh.
      destruct (processCitiesConcurrently_schedules E cities state country query
                  localizedQuery w HK) as (new' & Htr' & Hsched).
      rewrite Htr in Htr'. apply app_inv_head in Htr'. subst new'.
      by apply (Hsched city Hin).
  - intros states country query localizedQuery w run. subst run.
    unfold processStatesConcurrently.
    destruct (processStates_loop_steps E country query localizedQuery states [] w)
      as [(_ & _ & new & Htr & Hev) _].
    exists new. split; [done|].
    assert (Hall : ∀ e, e ∈ new →
              state_events E states country localizedQuery (progressData w) e)
      by (by apply Forall_forall).
    split; [|split].
    + intros sq cc Hfetch.
      destruct (Hall _ Hfetch) as [[]|(s & c & ? & ? & _ & [= -> ->])]. by exists s, c.
    + intros Hmode state Hin Hdone Hfetch.
      destruct (Hall _ Hfetch) as [[]|(s & c & _ & Hnot & Hc & Heq)].
      rewrite (Hc Hmode) in Heq. injection Heq as Heq.
      apply searchQuery_inj_state in Heq.
      unfold stateKey in *. rewrite Heq in Hdone. congruence.
    + destruct (processStates_loop_first_unmarked E country query localizedQuery states []
                  w) as [Hnone|(pre & st & post & new' & e & Hsplit & Hpre & Hfresh & Hthrow
                                  & _ & Htr' & Hleaf & Hmode)]; [by left|].
      right. rewrite Htr in Htr'. apply app_inv_head in Htr'. subst new'.
      exists pre, st, post, e. split; [done|]. split; [done|]. split; [done|].
      split; [done|]. split.
      * intros sq cc Hfetch. rewrite Forall_forall in Hleaf.
        destruct (Hleaf _ Hfetch) as [[]|(cityname & _ & [= -> ->])]. by exists cityname.
      * intros Hoff. by destruct (Hmode Hoff) as (? & _ & ?).
  - intros country query w run. subst run.
    pose proof (processCountry_returns_empty E country query w) as Hempty.
    unfold processCountry in *. rewrite bind_run, try_run in *.
    destruct (processCountry_body_outcome E country query w)
      as (loaded & Hload &
          [(_ & (new & Htr & Hall) & Hskip & _)
          |(k & k' & allStates & w2 & Hstates & Hdone & Hcountry & _ & (pre & Htr & Hall)
              & _ & Hrun)]);
      exists loaded.
    + assert (Hleaf : ∀ extra, Forall quiet extra →
                ∀ sq cc, EFetch sq cc ∈ new ++ extra →
                  ∃ state localizedQuery cityname,
                    listed E country state ∧
                    isStateDone loaded (stateKey country state) = false ∧
                    (if cfg_includeCities E
                     then ∃ city, cityname = name city ∧
                                  isCityDone loaded (cityKey country state city) = false
                     else cityname = "") ∧
                    sq = searchQuery localizedQuery cityname (name state) (name country) ∧
                    cc = iso2 country).
      { intros extra Hextra sq cc [Hin|Hin]%elem_of_app.
        - rewrite Forall_forall in Hall.
          destruct (Hall _ Hin) as [[]|(st & lq & Hl & Hf & cityname & Hc & [= -> ->])].
          by exists st, lq, cityname.
        - rewrite Forall_forall in Hextra. by destruct (Hextra _ Hin). }
      assert (Hnone : isCountryDone loaded (iso2 country) = true →
                ∀ extra, Forall quiet extra → ∀ sq cc, EFetch sq cc ∉ new ++ extra).
      { intros Hd extra Hextra sq cc [Hin|Hin]%elem_of_app.
        - destruct (Hskip Hd) as (new' & Htr' & Hq).
          rewrite Htr in Htr'. apply app_inv_head in Htr'. subst new'.
          rewrite Forall_forall in Hq. by destruct (Hq _ Hin).
        - rewrite Forall_forall in Hextra. by destruct (Hextra _ Hin). }
      destruct (processCountry_body E country query w) as [[v|e] w1];
        simpl in Htr, Hempty |- *.
      * exists new. split; [done|]. split; [done|]. split; [done|]. split.
        -- intros Hd sq cc Hin. apply (Hnone Hd [] ltac:(constructor) sq cc).
           by rewrite app_nil_r.
        -- intros sq cc Hin. apply (Hleaf [] ltac:(constructor) sq cc).
           by rewrite app_nil_r.
      * exists (new ++ [ELog (LCountryFailed (name country) e)]).
        split; [done|]. split; [done|]. split; [by rewrite Htr, app_assoc|]. split.
        -- intros Hd. apply (Hnone Hd). by repeat constructor.
        -- apply Hleaf. by repeat constructor.
    + rewrite Hrun, bind_run, saveProgress_run in *.
      assert (Hpre : ∀ sq cc, EFetch sq cc ∉ pre).
      { intros sq cc Hin. rewrite Forall_forall in Hall. exact (Hall _ Hin). }
      destruct (fs_fault E (clock w2)) as [e1|];
        [|destruct (fs_fault E (S (clock w2))) as [e2|];
          [|destruct (fs_fault E (S (S (clock w2)))) as [e3|]]].
      all: unfold advance in *; run_prims; cbn in *; eexists; split; [done|].
      all: split; [done|].
      all: split; [rewrite Htr, <- !app_assoc; reflexivity|].
      all: split; [congruence|].
      all: intros sq cc [Hin|Hin]%elem_of_app; [by destruct (Hpre sq cc)|].
      all: explicit_in Hin.
  - cbv zeta. split; [reflexivity|]. split; [reflexivity|]. split; [reflexivity|].
    assert (Htrace : trace (snd (processCountry Scenario.E0_rev Scenario.MK "cafe"
                                   Scenario.w0))
      = [ ELog (LProcessingState "Bitola" "North Macedonia");
          EFetch "cafe near Bitola North Macedonia" "MK";
          ELaunch; ENewPage; EClosePage; ECloseBrowser; ELog LBrowserClosed;
          ELog (LStateDone "Bitola" "North Macedonia" 1);
          EEnsureDir ["output"; "cafe"; "MK"; "states"];
          EWriteRecords ["output"; "cafe"; "MK"; "states"; "Bitola.json"]
            [Scenario.record_a];
          ELog (LSavedState 1 "Bitola");
          EWriteRecords ["output"; "cafe"; "MK"; "cumulative.json"] [Scenario.record_a];
          ELog (LCumulativeUpdated "North Macedonia" 1);
          ELog (LCountryFailed "North Macedonia"
                  (ReferenceError "cityKey is not defined")) ])
      by (vm_compute; reflexivity).
    rewrite Htrace. split; [by vm_compute|]. split; [reflexivity|].
    split; [intros Hin; explicit_in Hin|]. split; [reflexivity|]. by vm_compute.
Qed.

(* ===================================================================== *)
(** ** Batches of queries *)
(* ===================================================================== *)

Lemma chunks_from_enough (maxConcurrent : nat) (fuel : nat) (rest : list string) :
  1 ≤ maxConcurrent → List.length rest ≤ fuel →
  ∃ chunks, chunks_from fuel maxConcurrent rest = Some chunks ∧
            List.concat chunks = rest ∧
            Forall (λ chunk, 1 ≤ List.length chunk ≤ maxConcurrent) chunks.
Proof.
  intros Hpos. revert rest. induction fuel as [|fuel IH]; intros rest Hlen.
  - destruct rest; [|simpl in Hlen; lia]. exists []. by repeat split.
  - destruct rest as [|q rest]; [exists []; by repeat split|].
    cbn [chunks_from].
    destruct (IH (drop maxConcurrent (q :: rest))) as (chunks & -> & Hcat & Hall).
    { rewrite length_drop. simpl in *. lia. }
    eexists. split; [done|]. split.
    + cbn [List.concat]. rewrite Hcat. apply take_drop.
    + constructor; [|done]. rewrite length_take. simpl. lia.
Qed.

Lemma chunks_from_stuck (fuel : nat) (queries : list string) :
  queries ≠ [] → chunks_from fuel 0 queries = None.
Proof.
  induction fuel as [|fuel IH]; intros Hne; destruct queries as [|q rest]; try done.
  cbn [chunks_from drop]. by rewrite IH.
Qed.

Section BatchFacts.

Variables (E : env) (onProgress : nat → nat → nat → M unit)
          (onError : string → error → M unit).

Lemma searchGoogleMaps_returns (query country : string) (w : world) :
  ∃ businesses, fst (searchGoogleMaps E query country w) = Ret businesses.
Proof.
  destruct (searchGoogleMaps_outcome E query country w) as (b & _ & H & _). eauto.
Qed.

Lemma settle_chunk_fulfilled (country : string) (chunk : list string) (w : world) :
  ∃ settled,
    fst (settle_chunk E country chunk w) = Ret settled ∧
    map fst settled = chunk ∧
    Forall (λ qr, ∃ value, snd qr = Ret value) settled.
Proof.
  revert w. induction chunk as [|query rest IH]; intros w; cbn [settle_chunk].
  - exists []. by repeat split.
  - rewrite bind_run, try_run.
    destruct (searchGoogleMaps_returns query country w) as [value Hv]. rewrite Hv.
    rewrite bind_run.
    destruct (IH (snd (searchGoogleMaps E query country w))) as (settled & Hs & Hq & Hall).
    destruct (settle_chunk E country rest _) as [r w1]. simpl in Hs. subst r.
    eexists. split; [done|]. split; [by cbn; rewrite Hq|].
    constructor; [by eexists|done].
Qed.

Lemma record_settled_fulfilled (settled : list (string * result (list obj)))
    (results : list batch_result) (w : world) :
  Forall (λ qr, ∃ value, snd qr = Ret value) settled →
  record_settled onError settled results w
  = (Ret (results ++ map fulfilled_entry settled, Ret ()), w).
Proof.
  revert results. induction settled as [|[query [value|e]] rest IH]; intros results Hall.
  - cbn. by rewrite app_nil_r.
  - apply Forall_cons in Hall as [_ Hall]. cbn [record_settled].
    rewrite (IH _ Hall). cbn [map]. by rewrite <- app_assoc.
  - apply Forall_cons in Hall as [[value [=]] _].
Qed.

Lemma batch_loop_fulfilled (country : string) (delay : Z) (chunks : list (list string))
    (i total : nat) (results : list batch_result) (w : world) :
  ∃ new,
    fst (batch_loop E onProgress onError country delay chunks i total results w)
      = Ret (results ++ new) ∧
    map br_query new = List.concat chunks ∧
    Forall (λ r, br_success r = true ∧ br_error r = None) new.
Proof.
  revert i results w. induction chunks as [|chunk rest IH]; intros i results w;
    cbn [batch_loop].
  - exists []. by rewrite app_nil_r.
  - rewrite bind_run.
    destruct (settle_chunk_fulfilled country chunk w) as (settled & Hs & Hq & Hall).
    destruct (settle_chunk E country chunk w) as [r w1]. simpl in Hs. subst r.
    rewrite bind_run, (record_settled_fulfilled settled results w1 Hall).
    rewrite bind_run, try_run.
    match goal with |- context [batch_loop _ _ _ _ _ _ _ _ _ ?w2] =>
      destruct (IH (S i) (results ++ map fulfilled_entry settled) w2)
        as (new2 & Hret & Hq2 & Hok2) end.
    cbn [fst snd]. rewrite Hret. exists (map fulfilled_entry settled ++ new2).
    split; [by rewrite app_assoc|]. split.
    + rewrite map_app, Hq2, <- Hq, map_map. done.
    + apply Forall_app. split; [|done]. apply Forall_map. by apply Forall_true.
Qed.

End BatchFacts.

Lemma batch_loop_onError_unused (E : env) (onProgress : nat → nat → nat → M unit)
    (onError onError' : string → error → M unit)
    (country : string) (delay : Z) (chunks : list (list string))
    (i total : nat) (results : list batch_result) (w : world) :
  batch_loop E onProgress onError country delay chunks i total results w
  = batch_loop E onProgress onError' country delay chunks i total results w.
Proof.
  revert i results w. induction chunks as [|chunk rest IH]; intros i results w;
    cbn [batch_loop]; [done|].
  rewrite !bind_run.
  destruct (settle_chunk_fulfilled E country chunk w) as (settled & Hs & Hq & Hall).
  destruct (settle_chunk E country chunk w) as [r w1]. simpl in Hs. subst r.
  rewrite !bind_run, !(record_settled_fulfilled _ settled results w1 Hall).
  rewrite !bind_run. destruct (try _ w1) as [[r|e] w2]; [apply IH|done].
Qed.

(** X15: [searchGoogleMapsBatch].  With [maxConcurrent] at least 1 the
    call returns one entry per query, in the order of the queries, every
    entry marked successful and without an error message, whatever the
    browser does and whatever [onProgress] does; [onError] is never called,
    so that the run is the same with any other [onError].  With
    [maxConcurrent] 0 and a query to run, the loop that splits the queries
    never ends. *)
Theorem searchGoogleMapsBatch_all_fulfilled (E : env)
    (onProgress : nat → nat → nat → M unit) (onError : string → error → M unit)
    (fuel : nat) (queries : list string) (country : string) (delay : Z)
    (maxConcurrent : nat) (w : world)
    (Hpos : 1 ≤ maxConcurrent) (Hfuel : List.length queries ≤ fuel) :
  (∃ results,
     fst (searchGoogleMapsBatch E onProgress onError fuel queries country delay
            maxConcurrent w) = Ret (Some results) ∧
     map br_query results = queries ∧
     Forall (λ r, br_success r = true ∧ br_error r = None) results) ∧
  (∀ onError',
     searchGoogleMapsBatch E onProgress onError fuel queries country delay
       maxConcurrent w
     = searchGoogleMapsBatch E onProgress onError' fuel queries country delay
         maxConcurrent w) ∧
  (∀ fuel', queries ≠ [] →
     searchGoogleMapsBatch E onProgress onError fuel' queries country delay 0 w
     = (Ret None, w)).
Proof.
  unfold searchGoogleMapsBatch. split; [|split].
  - destruct (chunks_from_enough maxConcurrent fuel queries Hpos Hfuel)
      as (chunks & -> & Hcat & _).
    rewrite bind_run.
    destruct (batch_loop_fulfilled E onProgress onError country delay chunks 0
                (List.length chunks) [] w) as (new & Hret & Hq & Hok).
    destruct (batch_loop E onProgress onError country delay chunks 0 _ [] w) as [r w1].
    simpl in Hret. subst r. exists new. split; [done|]. split; [congruence|done].
  - intros onError'. destruct (chunks_from fuel maxConcurrent queries); [|done].
    by rewrite !bind_run, (batch_loop_onError_unused E onProgress onError onError').
  - intros fuel' Hne. by rewrite chunks_from_stuck.
Qed.

Lemma searchGoogleMapsBatch_all_fulfilled_witness :
  ∃ results,
    fst (searchGoogleMapsBatch Scenario.E0 (λ _ _ _, mret ()) (λ _ _, mret ()) 2
           ["cafe near Skopje North Macedonia"; "cafe near Bitola North Macedonia"] "MK"
           2000 1 Scenario.w0) = Ret (Some results) ∧
    map br_query results
    = ["cafe near Skopje North Macedonia"; "cafe near Bitola North Macedonia"] ∧
    Forall (λ r, br_success r = true ∧ br_error r = None) results.
Proof.
  refine (proj1 (searchGoogleMapsBatch_all_fulfilled Scenario.E0 (λ _ _ _, mret ())
                   (λ _ _, mret ()) 2
                   ["cafe near Skopje North Macedonia"; "cafe near Bitola North Macedonia"]
                   "MK" 2000 1 Scenario.w0 _ _)); simpl; lia.
Defined.
